(** * kungpao.utils: a shallow embedding and its checked properties

    The module [kungpao/utils.py] is a collection of numeric helpers:
    angle normalisation, weighted statistics, construction of random
    states, counting of projected pairs between two catalogs and a
    three-pass image cleaner.

    Conventions of the embedding.
    - A Python number is a rational ([Q]): integers are exact, and a float is
      read as the rational it denotes, so that every arithmetic step of the
      source is the exact one.  Integer arguments stay integers ([n # 1])
      through [+], [-] and [*].
    - A Python call either returns or raises: [result A].
    - The libraries the module calls (numpy's elementary functions and
      its constructor of generator states, the cosmology package, the
      source extractor [sep], numpy's normal sampler) are interfaces
      ([Class]) whose operations are left uninterpreted; what is known of
      them is stated as laws beside them, and every theorem holds for
      every implementation that keeps the laws.  The calls that check
      their arguments ([sep], the constructor of generator states) return
      or raise.
    - numpy arrays that the source copies and writes in place live in a
      store ([gmap loc ndarray]); Python names are bound to locations. *)

From stdpp Require Import base option list gmap strings.
From Stdlib Require Import ZArith QArith Qround Qabs Lia Lqa.

(** ** Python results *)

Inductive exn : Type :=
| ValueError
| IndexError
| KeyError
| ZeroDivisionError
| OverflowError
| TypeError.

Inductive result (A : Type) : Type :=
| Return (a : A)
| Raise (e : exn).
Arguments Return {A} a.
Arguments Raise {A} e.

#[global] Instance result_ret : MRet result := fun A a => Return a.
#[global] Instance result_bind : MBind result := fun A B f m =>
  match m with
  | Return a => f a
  | Raise e => Raise e
  end.

Definition returns {A : Type} (r : result A) : Prop := exists a, r = Return a.

(** ** Python arithmetic on numbers *)

Definition Qltb (x y : Q) : bool := negb (Qle_bool y x).

(** [a / b] under [from __future__ import division]. *)
Definition py_div (a b : Q) : result Q :=
  if Qeq_bool b 0 then Raise ZeroDivisionError else Return (a / b)%Q.

(** [a % b]: the remainder has the sign of the divisor. *)
Definition py_mod (a b : Q) : result Q :=
  if Qeq_bool b 0 then Raise ZeroDivisionError
  else Return (a - b * inject_Z (Qfloor (a / b)))%Q.

(** [x[i]] on a sequence: a negative index counts from the end. *)
Definition py_index {A : Type} (l : list A) (i : Z) : result A :=
  let n := Z.of_nat (length l) in
  let j := if (i <? 0)%Z then (i + n)%Z else i in
  if (j <? 0)%Z then Raise IndexError
  else match l !! Z.to_nat j with
       | Some a => Return a
       | None => Raise IndexError
       end.

(** [x[start:stop]] on a sequence: negative bounds count from the end and
    both bounds are clipped to the sequence. *)
Definition py_slice_bound (n i : Z) : Z :=
  if (i <? 0)%Z then Z.max 0 (i + n) else Z.min i n.

Definition py_slice {A : Type} (l : list A) (start stop : Z) : list A :=
  let n := Z.of_nat (length l) in
  let a := py_slice_bound n start in
  let b := py_slice_bound n stop in
  take (Z.to_nat (b - a)) (drop (Z.to_nat a) l).

(** [sum(l)] *)
Definition py_sum (l : list Q) : Q := fold_left Qplus l 0%Q.

(** ** normalize_angle *)

Definition normalize_angle (num lower upper : Q) (b : bool) : result Q :=
  if negb b then
    if Qle_bool upper lower then Raise ValueError
    else
      num ← (if Qltb upper num || Qeq_bool num lower
             then r ← py_mod (Qabs (num + upper)) (Qabs lower + Qabs upper);
                  Return (lower + r)%Q
             else Return num);
      num ← (if Qltb num lower || Qeq_bool num upper
             then r ← py_mod (Qabs (num - lower)) (Qabs lower + Qabs upper);
                  Return (upper - r)%Q
             else Return num);
      let res := if Qeq_bool num upper then lower else num in
      Return (res * 1)%Q
  else
    let total_length := (Qabs lower + Qabs upper)%Q in
    num ← (if Qltb num (- total_length)
           then q ← py_div num (-2 * total_length);
                Return (num + inject_Z (Qceiling q) * 2 * total_length)%Q
           else Return num);
    num ← (if Qltb total_length num
           then q ← py_div num (2 * total_length);
                Return (num - inject_Z (Qfloor q) * 2 * total_length)%Q
           else Return num);
    let num := if Qltb upper num then (total_length - num)%Q else num in
    let num := if Qltb num lower then (- total_length - num)%Q else num in
    Return (num * 1)%Q.

(** ** weighted_median *)

(** [any([j > bound for j in l])] *)
Definition any_gt (bound : Q) (l : list Q) : bool :=
  existsb (fun j => Qltb bound j) l.

(** [max(l)] on a non-empty list; the first of several equal maxima. *)
Definition py_max (l : list Q) : result Q :=
  match l with
  | [] => Raise ValueError
  | x :: l' => Return (fold_left (fun m y => if Qltb m y then y else m) l' x)
  end.

(** [l.index(x)]: position of the first element equal to [x]. *)
Fixpoint list_index (x : Q) (l : list Q) : result Z :=
  match l with
  | [] => Raise ValueError
  | y :: l' => if Qeq_bool y x then Return 0%Z
               else i ← list_index x l'; Return (i + 1)%Z
  end.

(** Order of Python tuples [(datum, weight)]: first components first. *)
Definition pair_ltb (p q : Q * Q) : bool :=
  Qltb (fst p) (fst q) || (Qeq_bool (fst p) (fst q) && Qltb (snd p) (snd q)).

Fixpoint insert_sorted (p : Q * Q) (l : list (Q * Q)) : list (Q * Q) :=
  match l with
  | [] => [p]
  | q :: l' => if pair_ltb q p then q :: insert_sorted p l' else p :: q :: l'
  end.

(** [sorted(l)] for a list of pairs (stable). *)
Definition py_sorted (l : list (Q * Q)) : list (Q * Q) :=
  fold_right insert_sorted [] l.

(** [sys.float_info.epsilon], that is [2 ** -52]. *)
Definition float_epsilon : Q := 1 # 4503599627370496.

(** The loop
    [while cumulative_weight <= midpoint:
         below_midpoint_index += 1
         cumulative_weight += sorted_weights[below_midpoint_index-1]]
    run on the weights not yet visited; [rest] is
    [sorted_weights[below_midpoint_index:]]. *)
Fixpoint accumulate_weights (midpoint : Q) (rest : list Q)
    (cumulative_weight : Q) (below_midpoint_index : Z) : result (Q * Z) :=
  if Qle_bool cumulative_weight midpoint then
    match rest with
    | [] => Raise IndexError
    | w :: rest' =>
        accumulate_weights midpoint rest'
          (cumulative_weight + w)%Q (below_midpoint_index + 1)%Z
    end
  else Return (cumulative_weight, below_midpoint_index).

(** [weights=None] is [None]; [np_median] stands for [numpy.median].
    The function returns [None] when it falls off its last [if]. *)
Definition weighted_median (np_median : list Q -> Q)
    (data : list Q) (weights : option (list Q)) : result (option Q) :=
  match weights with
  | None => Return (Some (np_median data))
  | Some weights =>
      let midpoint := ((1 # 2) * py_sum weights)%Q in
      if any_gt midpoint weights then
        m ← py_max weights;
        i ← list_index m weights;
        x ← py_index data i;
        Return (Some x)
      else if any_gt 0 weights then
        let pairs := py_sorted (zip data weights) in
        match pairs with
        | [] => Raise ValueError
        | _ :: _ =>
            let sorted_data := pairs.*1 in
            let sorted_weights := pairs.*2 in
            '(cumulative_weight, below_midpoint_index) ←
               accumulate_weights midpoint sorted_weights 0%Q 0%Z;
            w ← py_index sorted_weights (below_midpoint_index - 1);
            let cumulative_weight := (cumulative_weight - w)%Q in
            if Qltb (cumulative_weight - midpoint) float_epsilon then
              let bounds := py_slice sorted_data (below_midpoint_index - 2)
                                     below_midpoint_index in
              m ← py_div (py_sum bounds) (inject_Z (Z.of_nat (length bounds)));
              Return (Some m)
            else
              x ← py_index sorted_data (below_midpoint_index - 1);
              Return (Some x)
        end
      else Return None
  end.

(** ** check_random_state *)

(** A Python float: the finite ones denote rationals. *)
Inductive pyfloat : Type :=
| Finite (q : Q)
| Infinity (negative : bool)
| NaN.

(** The values a caller can pass as [seed], and the generator states
    [numpy.random] hands out.  [RandomState s] is the state built by the
    call [np.random.RandomState(s)]; [MtrandRand] is the singleton
    [np.random.mtrand._rand]. *)
#[warnings="-register-all"]
Inductive pyobj : Type :=
| PyNone
| PyNumpyRandom                      (* the module [numpy.random] *)
| PyBool (b : bool)
| PyInt (n : Z)
| PyFloat (x : pyfloat)
| PyStr (s : string)
| PyList (l : list pyobj)
| PyTuple (l : list pyobj)
| PyRandomState (g : random_state)
with random_state : Type :=
| MtrandRand
| RandomState (seed : pyobj).

(** [isinstance(v, (numbers.Integral, np.integer))]; [bool] is a subclass
    of [int]. *)
Definition is_integral (v : pyobj) : bool :=
  match v with
  | PyBool _ | PyInt _ => true
  | _ => false
  end.

(** [isinstance(v, numbers.Real)] *)
Definition is_real (v : pyobj) : bool :=
  match v with
  | PyBool _ | PyInt _ | PyFloat _ => true
  | _ => false
  end.

(** [int(v)] for a real number: truncation towards zero. *)
Definition Qtruncate (q : Q) : Z :=
  if Qltb q 0 then Qceiling q else Qfloor q.

Definition py_int (v : pyobj) : result Z :=
  match v with
  | PyBool b => Return (if b then 1 else 0)%Z
  | PyInt n => Return n
  | PyFloat (Finite q) => Return (Qtruncate q)
  | PyFloat (Infinity _) => Raise OverflowError
  | PyFloat NaN => Raise ValueError
  | _ => Raise ValueError
  end.

(** The constructor [np.random.RandomState(seed)] of numpy: it checks
    the seed and raises, or builds the state. *)
Class Seeding : Type := {
  np_RandomState : pyobj -> result random_state
}.

(** An element of a seed array numpy accepts: a [bool], or an integer of
    [0 .. 2**32 - 1]. *)
Definition seed_word (v : pyobj) : bool :=
  match v with
  | PyBool _ => true
  | PyInt n => (0 <=? n)%Z && (n <=? 4294967295)%Z
  | _ => false
  end.

Definition is_float (v : pyobj) : bool :=
  match v with
  | PyFloat _ => true
  | _ => false
  end.

(** What the constructor does with the seeds [check_random_state] can
    hand it: a [bool] is taken as an integer; an integer must lie in
    [0 .. 2**32 - 1] ("Seed must be between 0 and 2**32 - 1"); a
    non-empty list of such integers is a seed array; a list of numbers
    with a float among them cannot be cast to integers ([TypeError]).
    Nothing is said of other lists. *)
Class SeedingLaws `{Seeding} : Prop := {
  seed_bool : forall b,
    np_RandomState (PyBool b) = Return (RandomState (PyBool b));
  seed_int : forall n,
    np_RandomState (PyInt n) =
      if seed_word (PyInt n) then Return (RandomState (PyInt n))
      else Raise ValueError;
  seed_ints : forall l,
    l <> [] -> forallb seed_word l = true ->
    np_RandomState (PyList l) = Return (RandomState (PyList l));
  seed_floats : forall l,
    forallb is_real l = true -> existsb is_float l = true ->
    np_RandomState (PyList l) = Raise TypeError
}.

Definition check_random_state `{Seeding} (seed : pyobj) : result random_state :=
  match seed with
  | PyNone | PyNumpyRandom => Return MtrandRand
  | _ =>
    if is_integral seed then np_RandomState seed
    else if is_real seed then
      n ← py_int seed; np_RandomState (PyInt n)
    else
      match seed with
      | PyRandomState g => Return g
      | PyList l =>
          first ← py_index l 0;
          if is_integral first then np_RandomState seed
          else Raise ValueError
      | _ => Raise ValueError
      end
  end.

(** ** Angular distances and the pair counter *)

(** The elementary functions the module takes from [math] and [numpy]. *)
Class Numpy : Type := {
  math_pi : Q;
  np_cos : Q -> Q;
  np_sin : Q -> Q;
  np_sqrt : Q -> Q;
  np_arctan2 : Q -> Q -> Q
}.

(** Erin Sheldon's cosmology package: [Da c zmin zmax] is
    [c.Da(zmin, zmax)], an angular diameter distance. *)
Class Cosmology : Type := {
  cosmo : Type;
  Da : cosmo -> Q -> Q -> Q
}.

(** A catalog is a sequence of rows; a row maps column names to numbers.
    [row[col]] raises [KeyError] when the row has no such column. *)
Definition getitem (row : gmap string Q) (col : string) : result Q :=
  match row !! col with
  | Some v => Return v
  | None => Raise KeyError
  end.

(** [cat[col]]: the column as an array, in row order.  A column that is
    missing shows at the first row; an empty catalog has every column. *)
Definition column (cat : list (gmap string Q)) (col : string)
    : result (list Q) :=
  mapM (fun row => getitem row col) cat.

Definition kpc_scale_erin `{Cosmology} (c : cosmo) (redshift : Q) : Q :=
  (Da c 0 redshift / 206.264806)%Q.

Section AngularDistance.
Context `{Numpy}.
Local Open Scope Q_scope.

Definition deg2rad : Q := math_pi / 180.

(** The unit vector of a direction given in degrees. *)
Definition xyz (ra dec : Q) : Q * Q * Q :=
  (np_cos (dec * deg2rad) * np_cos (ra * deg2rad),
   np_cos (dec * deg2rad) * np_sin (ra * deg2rad),
   np_sin (dec * deg2rad)).

(** [np.cross] on two vectors. *)
Definition np_cross (a b : Q * Q * Q) : Q * Q * Q :=
  let '(a0, a1, a2) := a in
  let '(b0, b1, b2) := b in
  (a1 * b2 - a2 * b1, a2 * b0 - a0 * b2, a0 * b1 - a1 * b0).

(** [np.sum(a * b)] along the last axis. *)
Definition np_dot (a b : Q * Q * Q) : Q :=
  let '(a0, a1, a2) := a in
  let '(b0, b1, b2) := b in
  a0 * b0 + a1 * b1 + a2 * b2.

(** [np.sum(v ** 2.0)] along the last axis. *)
Definition sum_squares (v : Q * Q * Q) : Q :=
  let '(v0, v1, v2) := v in v0 ^ 2 + v1 ^ 2 + v2 ^ 2.

(** One point against an array of points; the result is in arcsec and
    follows the order of the array. *)
Definition angular_distance (ra_1 dec_1 : Q) (ra_arr_2 dec_arr_2 : list Q)
    : list Q :=
  let xyz_1 := xyz ra_1 dec_1 in
  let xyz_2 := map (fun p => xyz (fst p) (snd p)) (zip ra_arr_2 dec_arr_2) in
  map (fun v => np_arctan2 (np_sqrt (sum_squares (np_cross xyz_1 v)))
                           (np_dot xyz_1 v) / deg2rad * 3600) xyz_2.
End AngularDistance.

(** [np.sum(mask)] for a boolean array. *)
Definition np_sum_bool (mask : list bool) : Z :=
  fold_left (fun n (b : bool) => if b then (n + 1)%Z else n) mask 0%Z.

(** [np.where(mask)]: the positions where the mask holds, increasing. *)
Fixpoint np_where_from (i : nat) (mask : list bool) : list nat :=
  match mask with
  | [] => []
  | b :: mask' =>
      if b then i :: np_where_from (S i) mask' else np_where_from (S i) mask'
  end.

Definition np_where (mask : list bool) : list nat := np_where_from 0 mask.

(** A [for] loop over a sequence whose body may raise. *)
Fixpoint for_each {A S : Type} (body : S -> A -> result S) (l : list A) (s : S)
    : result S :=
  match l with
  | [] => Return s
  | x :: l' => s' ← body s x; for_each body l' s'
  end.

Section PairMatch.
Context `{Numpy} `{Cosmology}.

(** The array [sep] of one iteration: projected distances in kpc from
    [obj1] to every row of [cat2]. *)
Definition projected_sep (c : cosmo) (z_col ra_col dec_col : string)
    (obj1 : gmap string Q) (cat2 : list (gmap string Q)) : result (list Q) :=
  z ← getitem obj1 z_col;
  let scale := kpc_scale_erin c z in
  ra_1 ← getitem obj1 ra_col;
  dec_1 ← getitem obj1 dec_col;
  ra_arr_2 ← column cat2 ra_col;
  dec_arr_2 ← column cat2 dec_col;
  Return (map (fun d => d * scale)%Q
              (angular_distance ra_1 dec_1 ra_arr_2 dec_arr_2)).

(** The body of the loop [for obj1 in tqdm(cat1)] ([tqdm] only reports
    progress); the state is [(num_pair, index_pair)]. *)
Definition pair_match_body (cat2 : list (gmap string Q)) (z_col : string)
    (r_kpc : Q) (c : cosmo) (ra_col dec_col : string) (include : bool)
    (acc : list Z * list (list nat)) (obj1 : gmap string Q)
    : result (list Z * list (list nat)) :=
  let '(num_pair, index_pair) := acc in
  sep ← projected_sep c z_col ra_col dec_col obj1 cat2;
  let within := map (fun d => Qltb d r_kpc) sep in
  let num_pair :=
    if include then num_pair ++ [(np_sum_bool within - 1)%Z]
    else num_pair ++ [np_sum_bool within] in
  let index_pair := index_pair ++ [np_where within] in
  Return (num_pair, index_pair).

Definition table_pair_match_physical (cat1 cat2 : list (gmap string Q))
    (z_col : string) (r_kpc : Q) (c : cosmo) (ra_col dec_col : string)
    (include : bool) : result (list Z * list (list nat)) :=
  for_each (pair_match_body cat2 z_col r_kpc c ra_col dec_col include)
           cat1 ([], []).
End PairMatch.

(** ** numpy arrays *)

(** A 2-D array: its shape [(rows, columns)] and its elements in row-major
    order. *)
Record ndarray (A : Type) : Type := NDArray {
  shape : nat * nat;
  flat : list A
}.
Arguments NDArray {A} shape flat.
Arguments shape {A} n.
Arguments flat {A} n.

Definition wf_array {A : Type} (a : ndarray A) : Prop :=
  length (flat a) = ((shape a).1 * (shape a).2)%nat.

Definition shape_eqb (s t : nat * nat) : bool :=
  Nat.eqb s.1 t.1 && Nat.eqb s.2 t.2.

(** [a[r, c]] for non-negative indices. *)
Definition getitem2 {A : Type} (a : ndarray A) (r c : nat) : result A :=
  if Nat.ltb r (shape a).1 && Nat.ltb c (shape a).2 then
    match flat a !! (r * (shape a).2 + c)%nat with
    | Some x => Return x
    | None => Raise IndexError
    end
  else Raise IndexError.

(** An elementwise operation with a scalar, such as [a > 0] or [a == v]. *)
Definition arr_map {A B : Type} (f : A -> B) (a : ndarray A) : ndarray B :=
  NDArray (shape a) (map f (flat a)).

(** An elementwise operation on two arrays, such as [a + b]; the shapes
    must agree. *)
Definition arr_zip_with {A B C : Type} (f : A -> B -> C)
    (a : ndarray A) (b : ndarray B) : result (ndarray C) :=
  if shape_eqb (shape a) (shape b)
  then Return (NDArray (shape a) (zip_with f (flat a) (flat b)))
  else Raise ValueError.

(** The elements of [l] selected by a boolean mask, in order. *)
Fixpoint select {A : Type} (mask : list bool) (l : list A) : list A :=
  match mask, l with
  | b :: mask', x :: l' => if b then x :: select mask' l' else select mask' l'
  | _, _ => []
  end.

(** The values [vals] written, in order, to the positions of [l] selected
    by the mask. *)
Fixpoint scatter {A : Type} (l : list A) (mask : list bool) (vals : list A)
    : list A :=
  match l, mask with
  | x :: l', b :: mask' =>
      if b then
        match vals with
        | v :: vals' => v :: scatter l' mask' vals'
        | [] => x :: scatter l' mask' []
        end
      else x :: scatter l' mask' vals
  | _, _ => l
  end.

Definition count_true (mask : list bool) : nat := length (filter Is_true mask).

(** [a[mask]]: a 1-D array of the selected elements. *)
Definition mask_get {A : Type} (a : ndarray A) (mask : ndarray bool)
    : result (list A) :=
  if shape_eqb (shape a) (shape mask)
  then Return (select (flat mask) (flat a))
  else Raise IndexError.

(** [a[mask] = v] for a scalar [v]; the array after the assignment. *)
Definition mask_fill {A : Type} (a : ndarray A) (mask : ndarray bool) (v : A)
    : result (ndarray A) :=
  if shape_eqb (shape a) (shape mask)
  then Return (NDArray (shape a)
                 (zip_with (fun x (b : bool) => if b then v else x)
                           (flat a) (flat mask)))
  else Raise IndexError.

(** [a[mask] = vals] for a 1-D array [vals]; the array after the
    assignment.  One value is broadcast; otherwise there must be as many
    values as selected positions. *)
Definition mask_set {A : Type} (a : ndarray A) (mask : ndarray bool)
    (vals : list A) : result (ndarray A) :=
  if shape_eqb (shape a) (shape mask) then
    if Nat.eqb (length vals) (count_true (flat mask))
    then Return (NDArray (shape a) (scatter (flat a) (flat mask) vals))
    else match vals with
         | [v] => mask_fill a mask v
         | _ => Raise ValueError
         end
  else Raise IndexError.

(** Addition of [int32] arrays wraps around. *)
Definition wrap_int32 (z : Z) : Z :=
  ((z + 2147483648) mod 4294967296 - 2147483648)%Z.

Definition add_int32 (x y : Z) : Z := wrap_int32 (x + y).

(** ** Segmentation helpers *)

(** The centre pixel: [int(shape[0] / 2L), int(shape[1] / 2L)].  The
    division is the true one and [int] truncates, which on a shape is the
    integer quotient. *)
Definition centre {A : Type} (a : ndarray A) : nat * nat :=
  ((shape a).1 / 2, (shape a).2 / 2)%nat.

Definition seg_index_cen_obj (seg : ndarray Z) : result (option (ndarray bool)) :=
  cen_obj ← getitem2 seg (centre seg).1 (centre seg).2;
  if Z.eqb cen_obj 0 then Return None
  else Return (Some (arr_map (fun v => Z.eqb v cen_obj) seg)).

(** ** The collaborators of the image cleaner *)

(** What [sep.Background] estimates: per-pixel sky level and noise
    ([back()], [rms()]) and their global summaries. *)
Record background : Type := Background {
  back : ndarray Q;
  rms : ndarray Q;
  globalback : Q;
  globalrms : Q
}.

(** The [mask=] argument of [sep.Background]: a boolean array or a numeric
    one compared with [maskthresh]. *)
Inductive mask_array : Type :=
| BoolMask (m : ndarray bool)
| IntMask (m : ndarray Z).

(** The source extractor.
    [sep_Background img mask maskthresh bw bh fw fh] and
    [sep_extract data thresh err minarea deblend_nthresh deblend_cont],
    the latter with [segmentation_map=True]: the catalog of objects and
    the segmentation map.  Both read their arrays and write none of them:
    they are functions of the values of the arrays.  Both check their
    arguments and have limits of their own: a call returns or raises. *)
Class Sep : Type := {
  sep_Background : ndarray Q -> option mask_array -> Q ->
                   nat -> nat -> nat -> nat -> result background;
  sep_extract : ndarray Q -> Q -> option (ndarray Q) -> nat -> nat -> Q ->
                result (list (gmap string Q) * ndarray Z)
}.

(** [loc=] and [scale=] of [np.random.normal]: a number or an array. *)
Inductive normal_arg : Type :=
| Scalar (x : Q)
| PerPixel (a : ndarray Q).

(** numpy's normal sampler, as a function of the state of the global
    generator: [np_random_normal loc scale size g]. *)
Class RandomNormal : Type := {
  rng_state : Type;
  np_random_normal : normal_arg -> normal_arg -> nat * nat -> rng_state ->
                     ndarray Q * rng_state
}.

(** What is known of the collaborators.  What they return has the shape
    of what they are given (the invariant of section 3 of the
    specification, as far as it is theirs).  The global RMS of a
    background is positive: where its estimate is not, [sep] takes 1.0
    (an image of constant data).  A sigma map of another shape than the
    data is refused with [ValueError]. *)
Class SepLaws `{Sep} : Prop := {
  back_shape : forall img mask mt bw bh fw fh b,
    wf_array img ->
    sep_Background img mask mt bw bh fw fh = Return b ->
    shape (back b) = shape img /\ wf_array (back b);
  rms_shape : forall img mask mt bw bh fw fh b,
    wf_array img ->
    sep_Background img mask mt bw bh fw fh = Return b ->
    shape (rms b) = shape img /\ wf_array (rms b);
  globalrms_positive : forall img mask mt bw bh fw fh b,
    sep_Background img mask mt bw bh fw fh = Return b ->
    (0 < globalrms b)%Q;
  segmap_shape : forall data thresh err minarea dn dc objs seg,
    wf_array data ->
    sep_extract data thresh err minarea dn dc = Return (objs, seg) ->
    shape seg = shape data /\ wf_array seg;
  err_shape : forall data thresh e minarea dn dc,
    shape e <> shape data ->
    sep_extract data thresh (Some e) minarea dn dc = Raise ValueError
}.

Class RandomNormalLaws `{RandomNormal} : Prop := {
  normal_shape : forall loc scale size g,
    shape (np_random_normal loc scale size g).1 = size /\
    wf_array (np_random_normal loc scale size g).1
}.

(** ** The store *)

Abbreviation loc := positive (only parsing).

(** The lines [image_clean_up] prints when [verbose] is set. *)
Inductive message : Type :=
| MsgBkg (pass : nat) (globalback globalrms : Q)
    (* "# BKG n: Mean Sky / RMS Sky = %10.5f / %10.5f" *)
| MsgDet (pass : nat) (nobj : nat)
    (* "# DET n: Detect %d objects" *)
| MsgCentralObject (npix : nat)
    (* "# Central object: %d pixels" *)
| MsgCentralNotDetected.
    (* "# Central object not detected !" *)

(** The detection parameters of one pass (the [dict]s of the signature). *)
Record bkg_param : Type := BkgParam { bw : nat; bh : nat; fw : nat; fh : nat }.
Record det_param : Type :=
  DetParam { thr : Q; minarea : nat; deb_n : nat; deb_c : Q }.

Definition bkg_param_1_default : bkg_param := BkgParam 20 20 3 3.
Definition det_param_1_default : det_param := DetParam 1.5 40 128 0.00001.
Definition bkg_param_2_default : bkg_param := BkgParam 150 150 7 7.
Definition det_param_2_default : det_param := DetParam 2.0 20 64 0.001.
Definition bkg_param_3_default : bkg_param := BkgParam 60 60 5 5.
Definition det_param_3_default : det_param := DetParam 3.5 10 64 0.005.

(** The diagnostic bundle.  [img] and [sig] are the caller's arrays
    themselves (locations); the rest was made by the routine. *)
Record everything : Type := Everything {
  ev_img : loc;
  ev_sig : option loc;
  ev_bkg_1 : background;
  ev_obj_1 : list (gmap string Q);
  ev_seg_1 : ndarray Z;
  ev_bkg_2 : background;
  ev_obj_2 : list (gmap string Q);
  ev_seg_2 : ndarray Z;
  ev_bkg_3 : background;
  ev_obj_3 : list (gmap string Q);
  ev_seg_3 : ndarray Z;
  ev_noise : ndarray Q
}.

(** The plotting side: [diagnose_image_clean] renders a figure from the
    cleaned image and the bundle, reading the arrays in the heap. *)
Class Display : Type := {
  figure : Type;
  plot_kwargs : Type;
  diagnose_image_clean : gmap loc (ndarray Q) -> loc -> everything ->
                         plot_kwargs -> figure
}.

Section Store.
Context `{RandomNormal}.

(** Arrays handed in by the caller, and the deep copies of them that the
    routine writes in place, are held in the heap and named by their
    location.  The state of numpy's global generator and the lines
    printed so far complete the store. *)
Record store : Type := Store {
  heap : gmap loc (ndarray Q);
  rng : rng_state;
  stdout : list message
}.

Definition M (A : Type) : Type := store -> result (A * store).

#[global] Instance M_ret : MRet M := fun A a s => Return (a, s).
#[global] Instance M_bind : MBind M := fun A B f m s =>
  match m s with
  | Return (a, s') => f a s'
  | Raise e => Raise e
  end.

(** A computation that does not touch the store. *)
Definition lift {A : Type} (r : result A) : M A := fun s =>
  match r with
  | Return a => Return (a, s)
  | Raise e => Raise e
  end.

(** Reading the array a name is bound to.  A name of a well-formed call
    is always bound; [KeyError] stands for the other case. *)
Definition load (l : loc) : M (ndarray Q) := fun s =>
  match heap s !! l with
  | Some a => Return (a, s)
  | None => Raise KeyError
  end.

Definition load_opt (l : option loc) : M (option (ndarray Q)) :=
  match l with
  | Some l => a ← load l; mret (Some a)
  | None => mret None
  end.

(** A new array object. *)
Definition alloc (a : ndarray Q) : M loc := fun s =>
  let l := fresh (dom (heap s)) in
  Return (l, Store (<[l := a]> (heap s)) (rng s) (stdout s)).

(** [copy.deepcopy(x)] *)
Definition deepcopy (l : loc) : M loc :=
  a ← load l; alloc a.

(** [x[mask] = vals], in place. *)
Definition setitem_mask (l : loc) (mask : ndarray bool) (vals : list Q)
    : M unit := fun s =>
  match heap s !! l with
  | Some a =>
      match mask_set a mask vals with
      | Return a' => Return (tt, Store (<[l := a']> (heap s)) (rng s) (stdout s))
      | Raise e => Raise e
      end
  | None => Raise KeyError
  end.

(** [np.random.normal(loc=, scale=, size=)] on the global generator. *)
Definition random_normal (loc scale : normal_arg) (size : nat * nat)
    : M (ndarray Q) := fun s =>
  let '(a, g) := np_random_normal loc scale size (rng s) in
  Return (a, Store (heap s) g (stdout s)).

(** [if verbose: print(...)] *)
Definition print_if (verbose : bool) (msg : message) : M unit := fun s =>
  if verbose then Return (tt, Store (heap s) (rng s) (stdout s ++ [msg]))
  else Return (tt, s).
End Store.

(** ** image_clean_up *)

(** The three shapes of the return value. *)
Inductive cleaned `{Display} : Type :=
| Clean (img_clean : loc)
| CleanDiagnose (img_clean : loc) (ev : everything)
| CleanDiagnoseVisual (img_clean : loc) (ev : everything) (fig : figure).

Section ImageCleanUp.
Context `{Sep} `{RandomNormal} `{Display}.

(** The call [diagnose_image_clean(img_clean, everything, **kwargs)]. *)
Definition render (img_clean : loc) (ev : everything) (kwargs : plot_kwargs)
    : M figure := fun s =>
  Return (diagnose_image_clean (heap s) img_clean ev kwargs, s).

Definition image_clean_up (img : loc) (sig : option loc)
    (bad : option (ndarray bool))
    (bkg_param_1 : bkg_param) (det_param_1 : det_param)
    (bkg_param_2 : bkg_param) (det_param_2 : det_param)
    (bkg_param_3 : bkg_param) (det_param_3 : det_param)
    (verbose visual diagnose : bool) (kwargs : plot_kwargs) : M cleaned :=
  img_v ← load img;
  sig_v ← load_opt sig;
  (* Measure a very local sky to help detection and deblending *)
  bkg_1 ← lift (sep_Background img_v (BoolMask <$> bad) 0
                  (bw bkg_param_1) (bh bkg_param_1)
                  (fw bkg_param_1) (fh bkg_param_1));
  print_if verbose (MsgBkg 1 (globalback bkg_1) (globalrms bkg_1));;
  (* Subtract a local sky, detect and deblend objects *)
  img_sub ← lift (arr_zip_with Qminus img_v (back bkg_1));
  '(obj_1, seg_1) ←
    lift (sep_extract img_sub (thr det_param_1) sig_v (minarea det_param_1)
                      (deb_n det_param_1) (deb_c det_param_1));
  print_if verbose (MsgDet 1 (length obj_1));;
  (* Detect all pixels above the threshold *)
  bkg_2 ← lift (sep_Background img_v None 0
                  (bw bkg_param_2) (bh bkg_param_2)
                  (fw bkg_param_2) (fh bkg_param_2));
  '(obj_2, seg_2) ←
    lift (sep_extract img_v (thr det_param_2) sig_v (minarea det_param_2)
                      (deb_n det_param_2) (deb_c det_param_2));
  print_if verbose (MsgDet 2 (length obj_2));;
  (* Estimate the background for generating noise image *)
  bkg_3 ← lift (sep_Background img_v (Some (IntMask seg_2)) 0
                  (bw bkg_param_3) (bh bkg_param_3)
                  (fw bkg_param_3) (fh bkg_param_3));
  print_if verbose (MsgBkg 3 (globalback bkg_3) (globalrms bkg_3));;
  noise ← match sig with
          | None =>
              random_normal (Scalar (globalback bkg_3))
                            (Scalar (globalrms bkg_3)) (shape img_v)
          | Some _ =>
              let sky_val := back bkg_3 in
              let sky_sig := rms bkg_3 in
              sky_sig ← lift (mask_fill sky_sig
                                (arr_map (fun x => Qle_bool x 0) sky_sig)
                                (1 # 100000000));
              random_normal (PerPixel sky_val) (PerPixel sky_sig)
                            (shape img_v)
          end;
  (* Replace all detected pixels with noise *)
  img_noise_replace ← deepcopy img;
  let detected_2 := arr_map (fun v => Z.ltb 0 v) seg_2 in
  vals ← lift (mask_get noise detected_2);
  setitem_mask img_noise_replace detected_2 vals;;
  (* Detect the faint objects left on the image *)
  img_noise_replace_v ← load img_noise_replace;
  '(obj_3, seg_3) ←
    lift (sep_extract img_noise_replace_v (thr det_param_3) sig_v
                      (minarea det_param_3) (deb_n det_param_3)
                      (deb_c det_param_3));
  print_if verbose (MsgDet 3 (length obj_3));;
  (* Combine the two segmentation maps *)
  seg_comb ← lift (arr_zip_with add_int32 seg_2 seg_3);
  (* Index for the central object *)
  obj_cen_mask ← lift (seg_index_cen_obj seg_1);
  match obj_cen_mask with
  | Some mask => print_if verbose (MsgCentralObject (count_true (flat mask)))
  | None => print_if verbose MsgCentralNotDetected
  end;;
  seg_comb ← match obj_cen_mask with
             | Some mask => lift (mask_fill seg_comb mask 0%Z)
             | None => mret seg_comb
             end;
  img_clean ← deepcopy img;
  let flagged := arr_map (fun v => Z.ltb 0 v) seg_comb in
  vals ← lift (mask_get noise flagged);
  setitem_mask img_clean flagged vals;;
  if diagnose then
    let ev := Everything img sig bkg_1 obj_1 seg_1 bkg_2 obj_2 seg_2
                         bkg_3 obj_3 seg_3 noise in
    if visual then
      fig ← render img_clean ev kwargs;
      mret (CleanDiagnoseVisual img_clean ev fig)
    else mret (CleanDiagnose img_clean ev)
  else mret (Clean img_clean).
End ImageCleanUp.

(** ** Unit conversions *)

Module Convert.
Section Convert.
Context `{Numpy}.

(** [np.pi] is the constant [math.pi]. *)
Definition rad2deg (rad : Q) : Q := (rad * 180 / math_pi)%Q.

Definition deg2rad (deg : Q) : Q := (deg * math_pi / 180)%Q.
End Convert.

Definition hr2deg (deg : Q) : Q := (deg * (24 / 360))%Q.

Definition deg2hr (hr : Q) : Q := (hr * 15)%Q.
End Convert.

(** ** weighted_mean *)

(** [enumerate(l)] *)
Definition enumerate {A : Type} (l : list A) : list (nat * A) :=
  zip (seq 0 (length l)) l.

(** [weights=None] is [None]; [np_mean] stands for [numpy.mean]. *)
Definition weighted_mean (np_mean : list Q -> Q)
    (data : list Q) (weights : option (list Q)) : result Q :=
  match weights with
  | None => Return (np_mean data)
  | Some weights =>
      let total_weight := py_sum weights in
      weights ← mapM (fun weight => py_div weight total_weight) weights;
      for_each (fun w_mean (iw : nat * Q) =>
                  x ← py_index data (Z.of_nat iw.1);
                  Return (w_mean + iw.2 * x)%Q)
               (enumerate weights) 0%Q
  end.

(** ** random_string *)

(** Python's generator [random]: [random_random g] is [random.random()]
    in the state [g], a number and the next state. *)
Class PyRandom : Type := {
  py_rng : Type;
  random_random : py_rng -> Q * py_rng
}.

(** [random.random()] lies in [[0, 1)]. *)
Class PyRandomLaws `{PyRandom} : Prop := {
  random_unit : forall g, (0 <= (random_random g).1)%Q /\
                          ((random_random g).1 < 1)%Q
}.

Section RandomString.
Context `{PyRandom}.

(** [random.choice(seq)], that is
    [seq[int(self.random() * len(seq))]]. *)
Definition random_choice {A : Type} (seq : list A) (g : py_rng)
    : result (A * py_rng) :=
  let '(x, g') := random_random g in
  a ← py_index seq (Qtruncate (x * inject_Z (Z.of_nat (length seq))));
  Return (a, g').

(** [random.choice(chars) for _ in range(n)], joined. *)
Fixpoint random_chars (n : nat) (chars : list Ascii.ascii) (g : py_rng)
    : result (list Ascii.ascii * py_rng) :=
  match n with
  | O => Return ([], g)
  | S n' =>
      '(c, g') ← random_choice chars g;
      '(s, g'') ← random_chars n' chars g';
      Return (c :: s, g'')
  end.

(** [range(size)] is empty for a negative [size]. *)
Definition random_string (size : Z) (chars : list Ascii.ascii) (g : py_rng)
    : result (list Ascii.ascii * py_rng) :=
  random_chars (Z.to_nat size) chars g.
End RandomString.

(** [string.ascii_uppercase + string.digits], the default of [chars]. *)
Definition default_chars : list Ascii.ascii :=
  String.list_ascii_of_string "ABCDEFGHIJKLMNOPQRSTUVWXYZ0123456789".

(** ** Segmentation maps addressed by a position *)

(** An index along an axis of length [n]: a negative one counts from the
    end. *)
Definition axis_index (n : nat) (i : Z) : result nat :=
  let j := if (i <? 0)%Z then (i + Z.of_nat n)%Z else i in
  if (j <? 0)%Z || (Z.of_nat n <=? j)%Z then Raise IndexError
  else Return (Z.to_nat j).

(** [a[i, j]] for integers of either sign. *)
Definition getitem2_int {A : Type} (a : ndarray A) (i j : Z) : result A :=
  r ← axis_index (shape a).1 i;
  c ← axis_index (shape a).2 j;
  getitem2 a r c.

(** [seg_copy = copy.deepcopy(seg)] followed by the assignment of 0 under
    the mask [seg == label]; the copy after the assignment.  ([seg] is not
    written.) *)
Definition remove_label (seg : ndarray Z) (label : Z) : result (ndarray Z) :=
  mask_fill seg (arr_map (fun v => Z.eqb v label) seg) 0%Z.

Definition seg_remove_cen_obj (seg : ndarray Z) : result (ndarray Z) :=
  cen_obj ← getitem2 seg (centre seg).1 (centre seg).2;
  remove_label seg cen_obj.

(** [seg[int(x), int(y)]]: [x] runs along the first axis. *)
Definition seg_remove_obj (seg : ndarray Z) (x y : Q) : result (ndarray Z) :=
  obj ← getitem2_int seg (Qtruncate x) (Qtruncate y);
  remove_label seg obj.

Definition seg_index_obj (seg : ndarray Z) (x y : Q)
    : result (option (ndarray bool)) :=
  obj ← getitem2_int seg (Qtruncate x) (Qtruncate y);
  if Z.eqb obj 0 then Return None
  else Return (Some (arr_map (fun v => Z.eqb v obj) seg)).

(** ** angular_distance_single *)

(** The elementary functions of the module [math]. *)
Class Math : Type := {
  math_cos : Q -> Q;
  math_sin : Q -> Q;
  math_sqrt : Q -> Q;
  math_atan2 : Q -> Q -> Q
}.

Section AngularDistanceSingle.
Context `{Numpy} `{Math}.
Local Open Scope Q_scope.

Definition angular_distance_single (ra_1 dec_1 ra_2 dec_2 : Q) : Q :=
  let deg2rad := math_pi / 180 in
  let ra_1 := ra_1 * deg2rad in
  let dec_1 := dec_1 * deg2rad in
  let ra_2 := ra_2 * deg2rad in
  let dec_2 := dec_2 * deg2rad in
  let x_1 := math_cos dec_1 * math_cos ra_1 in
  let y_1 := math_cos dec_1 * math_sin ra_1 in
  let z_1 := math_sin dec_1 in
  let x_2 := math_cos dec_2 * math_cos ra_2 in
  let y_2 := math_cos dec_2 * math_sin ra_2 in
  let z_2 := math_sin dec_2 in
  let d := x_2 * x_1 + y_2 * y_1 + z_2 * z_1 in
  let c_x := y_1 * z_2 - z_1 * y_2 in
  let c_y := - (x_1 * z_2 - z_1 * x_2) in
  let c_z := x_1 * y_2 - y_1 * x_2 in
  let c := math_sqrt (c_x ^ 2 + c_y ^ 2 + c_z ^ 2) in
  let res := math_atan2 c d in
  res / deg2rad * 3600.
End AngularDistanceSingle.

(** ** numpy_weighted_median *)

(** [np.cumsum(l)]: the running sums, the first being the first element. *)
Fixpoint cumsum_from (acc : Q) (l : list Q) : list Q :=
  match l with
  | [] => []
  | x :: l' => (acc + x)%Q :: cumsum_from (acc + x)%Q l'
  end.

Definition np_cumsum (l : list Q) : list Q :=
  match l with
  | [] => []
  | x :: l' => x :: cumsum_from x l'
  end.

(** [data[mask]] on 1-D arrays: the mask must have the length of the
    data. *)
Definition mask_get_1d {A : Type} (data : list A) (mask : list bool)
    : result (list A) :=
  if Nat.eqb (length data) (length mask) then Return (select mask data)
  else Raise IndexError.

(** [data] and [weights] are the arrays after [np.array(...).flatten()];
    [np_median] and [np_mean] stand for [numpy.median] and [numpy.mean].
    Unpacking an empty [zip] raises [ValueError]; the function returns
    [None] when no weight is positive. *)
Definition numpy_weighted_median (np_median np_mean : list Q -> Q)
    (data : list Q) (weights : option (list Q)) : result (option Q) :=
  match weights with
  | None => Return (Some (np_median data))
  | Some weights =>
      if any_gt 0 weights then
        let pairs := py_sorted (zip data weights) in
        match pairs with
        | [] => Raise ValueError
        | _ :: _ =>
            let sorted_data := pairs.*1 in
            let sorted_weights := pairs.*2 in
            let midpoint := ((1 # 2) * py_sum sorted_weights)%Q in
            if any_gt midpoint weights then
              m ← py_max weights;
              selected ← mask_get_1d data (map (fun w => Qeq_bool w m) weights);
              x ← py_index selected 0;
              Return (Some x)
            else
              let cumulative_weight := np_cumsum sorted_weights in
              below_midpoint_index ←
                py_index (np_where (map (fun c => Qle_bool c midpoint)
                                        cumulative_weight)) (-1);
              c ← py_index cumulative_weight (Z.of_nat below_midpoint_index);
              if Qltb (c - midpoint) float_epsilon then
                Return (Some (np_mean
                  (py_slice sorted_data (Z.of_nat below_midpoint_index)
                            (Z.of_nat below_midpoint_index + 2))))
              else
                x ← py_index sorted_data (Z.of_nat below_midpoint_index + 1);
                Return (Some x)
        end
      else Return None
  end.

(** * Predicates used in the statements *)

(** The seeds for which [check_random_state] hands out a generator
    state: an integer must lie in [0 .. 2**32 - 1], a finite float must do
    so once cut to an integer, and a list must start with an integer and
    be accepted by [np.random.RandomState]. *)
Inductive accepted_seed `{Seeding} : pyobj -> Prop :=
| accepted_none : accepted_seed PyNone
| accepted_module : accepted_seed PyNumpyRandom
| accepted_bool b : accepted_seed (PyBool b)
| accepted_int n : seed_word (PyInt n) = true -> accepted_seed (PyInt n)
| accepted_float q :
    seed_word (PyInt (Qtruncate q)) = true ->
    accepted_seed (PyFloat (Finite q))
| accepted_state g : accepted_seed (PyRandomState g)
| accepted_list first l :
    is_integral first = true ->
    returns (np_RandomState (PyList (first :: l))) ->
    accepted_seed (PyList (first :: l)).

(** A row that has all the columns of [cols]. *)
Definition has_columns (cols : list string) (row : gmap string Q) : Prop :=
  Forall (fun col => is_Some (row !! col)) cols.

(** The cleaned image and the diagnostic bundle of a return value. *)
Definition img_clean_of `{Display} (r : cleaned) : loc :=
  match r with
  | Clean l | CleanDiagnose l _ | CleanDiagnoseVisual l _ _ => l
  end.

Definition diagnostics_of `{Display} (r : cleaned) : option everything :=
  match r with
  | Clean _ => None
  | CleanDiagnose _ ev | CleanDiagnoseVisual _ ev _ => Some ev
  end.

(** The bundle a call hands back, if any. *)
Definition returned_bundle `{RandomNormal} `{Display}
    (res : result (cleaned * store)) : option everything :=
  match res with
  | Return (r, _) => diagnostics_of r
  | Raise _ => None
  end.

(** Whether a pixel is flagged in the combined segmentation map once the
    central object is taken out: [cen] is the label of pass 1 at the centre
    pixel, [v1], [v2] and [v3] are the labels of the pixel in the three
    passes. *)
Definition flagged_pixel (cen v1 v2 v3 : Z) : bool :=
  Z.ltb 0 (add_int32 v2 v3) && negb (negb (Z.eqb cen 0) && Z.eqb v1 cen).

(** The line printed about the central object. *)
Definition central_message (seg_1 : ndarray Z) (cen : Z) : message :=
  if Z.eqb cen 0 then MsgCentralNotDetected
  else MsgCentralObject
         (count_true (flat (arr_map (fun v => Z.eqb v cen) seg_1))).

(** [sky_sig[sky_sig <= 0] = 1E-8]: the array after the assignment. *)
Definition floor_rms (sky_sig : ndarray Q) : ndarray Q :=
  arr_map (fun x => if Qle_bool x 0 then 1 # 100000000 else x) sky_sig.

(** [a[seg > 0] = noise[seg > 0]] on a copy [a] of [img]: the copy after
    the assignment. *)
Definition noise_replaced (img : ndarray Q) (seg : ndarray Z)
    (noise : ndarray Q) : ndarray Q :=
  let mask := flat (arr_map (fun v => Z.ltb 0 v) seg) in
  NDArray (shape img) (scatter (flat img) mask (select mask (flat noise))).

Section RunFacts.
Context `{Sep} `{RandomNormal}.

(** The call to [np.random.normal] of a run: with the global level and
    RMS of the third background when there is no sigma map, with its
    per-pixel level and RMS otherwise, the RMS after the assignment of
    [1E-8]. *)
Definition draw_noise (sig : option loc) (bkg_3 : background)
    (size : nat * nat) (g : rng_state) : ndarray Q * rng_state :=
  match sig with
  | None =>
      np_random_normal (Scalar (globalback bkg_3)) (Scalar (globalrms bkg_3))
                       size g
  | Some _ =>
      np_random_normal (PerPixel (back bkg_3))
                       (PerPixel (floor_rms (rms bkg_3))) size g
  end.

(** The calls to [sep] of a run on the image [img_v] with the sigma map
    [sig_v], in the order of the source, when each of them returns; [ev]
    holds what they returned and the noise image drawn in the generator
    state [g].  Pass 1 detects on the image less its local background,
    pass 2 on the image, pass 3 on the image in which the detections of
    pass 2 are replaced by noise; the third background is estimated with
    the map of pass 2 as mask. *)
Record sep_passes (img : loc) (img_v : ndarray Q)
    (sig : option loc) (sig_v : option (ndarray Q))
    (bad : option (ndarray bool))
    (p1 : bkg_param) (d1 : det_param) (p2 : bkg_param) (d2 : det_param)
    (p3 : bkg_param) (d3 : det_param) (g : rng_state) (ev : everything)
    : Prop := SepPasses {
  pass_inputs : ev_img ev = img /\ ev_sig ev = sig;
  pass_bkg_1 :
    sep_Background img_v (BoolMask <$> bad) 0 (bw p1) (bh p1) (fw p1) (fh p1)
      = Return (ev_bkg_1 ev);
  pass_det_1 :
    exists img_sub,
      arr_zip_with Qminus img_v (back (ev_bkg_1 ev)) = Return img_sub /\
      sep_extract img_sub (thr d1) sig_v (minarea d1) (deb_n d1) (deb_c d1)
        = Return (ev_obj_1 ev, ev_seg_1 ev);
  pass_bkg_2 :
    sep_Background img_v None 0 (bw p2) (bh p2) (fw p2) (fh p2)
      = Return (ev_bkg_2 ev);
  pass_det_2 :
    sep_extract img_v (thr d2) sig_v (minarea d2) (deb_n d2) (deb_c d2)
      = Return (ev_obj_2 ev, ev_seg_2 ev);
  pass_bkg_3 :
    sep_Background img_v (Some (IntMask (ev_seg_2 ev))) 0
                   (bw p3) (bh p3) (fw p3) (fh p3)
      = Return (ev_bkg_3 ev);
  pass_noise :
    ev_noise ev = (draw_noise sig (ev_bkg_3 ev) (shape img_v) g).1;
  pass_det_3 :
    sep_extract (noise_replaced img_v (ev_seg_2 ev) (ev_noise ev))
                (thr d3) sig_v (minarea d3) (deb_n d3) (deb_c d3)
      = Return (ev_obj_3 ev, ev_seg_3 ev)
}.

(** What a run of [image_clean_up] leaves behind, in terms of the caller's
    heap [h] and generator state [g], the image [img_v] found at [img],
    the location [l_clean] returned, the bundle [ev], the final heap
    [h'], generator state [g'] and output [out'], the array [clean] at
    [l_clean] and the label [cen] of pass 1 at the centre pixel. *)
Record clean_run (h : gmap loc (ndarray Q)) (g : rng_state)
    (img : loc) (sig : option loc) (img_v : ndarray Q)
    (verbose : bool) (l_clean : loc) (ev : everything)
    (h' : gmap loc (ndarray Q)) (g' : rng_state) (out' : list message)
    (clean : ndarray Q) (cen : Z) : Prop := CleanRun {
  run_frame : forall l a, h !! l = Some a -> h' !! l = Some a;
  run_fresh : h !! l_clean = None;
  run_clean : h' !! l_clean = Some clean;
  run_shape : shape clean = shape img_v /\ wf_array clean;
  run_shapes :
    shape (ev_seg_1 ev) = shape img_v /\ shape (ev_seg_2 ev) = shape img_v /\
    shape (ev_seg_3 ev) = shape img_v /\ shape (ev_noise ev) = shape img_v;
  run_rng : g' = (draw_noise sig (ev_bkg_3 ev) (shape img_v) g).2;
  run_centre :
    getitem2 (ev_seg_1 ev) (centre (ev_seg_1 ev)).1 (centre (ev_seg_1 ev)).2
      = Return cen;
  run_output :
    exists pre,
      out' = pre ++ if verbose then [central_message (ev_seg_1 ev) cen] else [];
  run_pixels :
    forall k x, flat img_v !! k = Some x ->
    exists n v1 v2 v3,
      flat (ev_noise ev) !! k = Some n /\
      flat (ev_seg_1 ev) !! k = Some v1 /\
      flat (ev_seg_2 ev) !! k = Some v2 /\
      flat (ev_seg_3 ev) !! k = Some v3 /\
      flat clean !! k = Some (if flagged_pixel cen v1 v2 v3 then n else x)
}.
End RunFacts.

(** Whether a position addresses a pixel: each coordinate, cut to an
    integer, lies from minus the length of its axis up to that length
    less one. *)
Definition addresses {A : Type} (a : ndarray A) (x y : Q) : bool :=
  ((- Z.of_nat (shape a).1 <=? Qtruncate x) &&
   (Qtruncate x <? Z.of_nat (shape a).1) &&
   (- Z.of_nat (shape a).2 <=? Qtruncate y) &&
   (Qtruncate y <? Z.of_nat (shape a).2))%Z.

(** Two outcomes of a computation that differ at most by what was
    printed: the same error, or the same value, heap and generator
    state; the second one with the output [out]. *)
Definition agree_but_output `{RandomNormal} {A : Type}
    (loud quiet : result (A * store)) (out : list message) : Prop :=
  match loud, quiet with
  | Return (a1, s1), Return (a2, s2) =>
      a1 = a2 /\ heap s1 = heap s2 /\ rng s1 = rng s2 /\ stdout s2 = out
  | Raise e1, Raise e2 => e1 = e2
  | _, _ => False
  end.

(** The computation [quiet] does what [loud] does, and prints nothing. *)
Definition quieter `{RandomNormal} {A : Type} (loud quiet : M A) : Prop :=
  forall s1 s2, heap s1 = heap s2 -> rng s1 = rng s2 ->
    agree_but_output (loud s1) (quiet s2) (stdout s2).

(** Two values of a median: nothing twice, or two equal numbers. *)
Definition same_value (r1 r2 : option Q) : Prop :=
  match r1, r2 with
  | Some x, Some y => (x == y)%Q
  | None, None => True
  | _, _ => False
  end.

(** * Concrete collaborators

    Simple rational implementations of the interfaces, used to run the
    model on concrete inputs. *)

(** [numpy.median] on a non-empty list: the middle of the sorted values,
    the mean of the two middle ones when their number is even. *)
Definition median (l : list Q) : Q :=
  let s := (py_sorted (map (fun x => (x, 0%Q)) l)).*1 in
  let n := length s in
  if Nat.even n
  then ((nth (n / 2 - 1) s 0 + nth (n / 2) s 0) / 2)%Q
  else nth (n / 2) s 0%Q.

(** Fifteen decimal places, rounded down. *)
Definition fix15 (q : Q) : Q :=
  Qred (Qmake (Qfloor (q * 1000000000000000)) 1000000000000000).

(** Truncated series for the elementary functions. *)
Definition approx_cos (x : Q) : Q :=
  let x := fix15 x in
  fix15 (1 - x ^ 2 / 2 + x ^ 4 / 24 - x ^ 6 / 720).

Definition approx_sin (x : Q) : Q :=
  let x := fix15 x in
  fix15 (x - x ^ 3 / 6 + x ^ 5 / 120 - x ^ 7 / 5040).

Definition approx_arctan (t : Q) : Q :=
  let t := fix15 t in
  fix15 (t - t ^ 3 / 3 + t ^ 5 / 5).

Definition approx_pi : Q := 355 # 113.

Definition approx_arctan2 (y x : Q) : Q :=
  if Qltb 0 x then approx_arctan (y / x)
  else if Qltb x 0 then
    if Qltb y 0 then Qred (approx_arctan (y / x) - approx_pi)
    else Qred (approx_arctan (y / x) + approx_pi)
  else if Qltb 0 y then Qred (approx_pi / 2)
  else if Qltb y 0 then Qred (- approx_pi / 2)
  else 0.

(** The integer square root of the argument scaled by [10 ^ 30]. *)
Definition approx_sqrt (x : Q) : Q :=
  if Qle_bool x 0 then 0
  else Qred (Qmake (Z.sqrt (Qfloor (x * 1000000000000000000000000000000)))
                   1000000000000000).

Definition approx_numpy : Numpy := {|
  math_pi := approx_pi;
  np_cos := approx_cos;
  np_sin := approx_sin;
  np_sqrt := approx_sqrt;
  np_arctan2 := approx_arctan2
|}.

(** A cosmology given by [H0] and [omega_m]; the distance is the one of
    Hubble's law, (c / H0) z / (1 + z), in Mpc. *)
Record hubble_cosmo : Type := Cosmo { H0 : Q; omega_m : Q }.

Definition hubble_cosmology : Cosmology := {|
  cosmo := hubble_cosmo;
  Da := fun c zmin zmax =>
          Qred (299792.458 / H0 c * (zmax - zmin) / (1 + zmax))
|}.

(** [cosmo_erin = cosmology_erin.Cosmo(H0=70.0, omega_m=0.30)] *)
Definition cosmo_erin : hubble_cosmo := Cosmo 70 0.30.

(** The catalogs of the pair counter scenario: one object, the same object
    with a second one 10 arcsec to the east, and an object a degree away. *)
Definition obj_a : gmap string Q := {[ "ra" := 10; "dec" := 0; "z" := 0.1 ]}%Q.
Definition obj_b : gmap string Q :=
  {[ "ra" := 10 + 10 / 3600; "dec" := 0; "z" := 0.1 ]}%Q.
Definition obj_far : gmap string Q := {[ "ra" := 11; "dec" := 0; "z" := 0.1 ]}%Q.

(** A plain background estimator: the mean of the pixels that are not
    masked as level and their mean absolute deviation as noise, the same
    at every pixel; as global RMS it reports 1 where that deviation is
    not positive.  A mask of another shape than the image is refused. *)
Definition is_masked (mask : option mask_array) (maskthresh : Q) (k : nat)
    : bool :=
  match mask with
  | None => false
  | Some (BoolMask m) => nth k (flat m) false
  | Some (IntMask m) => Qltb maskthresh (inject_Z (nth k (flat m) 0%Z))
  end.

Definition mean (l : list Q) : Q :=
  match l with
  | [] => 0
  | _ :: _ => Qred (py_sum l / inject_Z (Z.of_nat (length l)))
  end.

Definition unmasked (img : ndarray Q) (mask : option mask_array)
    (maskthresh : Q) : list Q :=
  (filter (fun p => is_masked mask maskthresh p.1 = false)
          (zip (seq 0 (length (flat img))) (flat img))).*2.

Definition mask_shape (mask : mask_array) : nat * nat :=
  match mask with
  | BoolMask m => shape m
  | IntMask m => shape m
  end.

Definition mean_background (img : ndarray Q) (mask : option mask_array)
    (maskthresh : Q) (bw bh fw fh : nat) : result background :=
  match mask with
  | Some m => if shape_eqb (mask_shape m) (shape img) then Return tt
              else Raise ValueError
  | None => Return tt
  end;;
  let sky := unmasked img mask maskthresh in
  let level := mean sky in
  let noise := mean (map (fun x => Qabs (x - level)) sky) in
  Return (Background (arr_map (fun _ => level) img)
                     (arr_map (fun _ => noise) img)
                     level (if Qle_bool noise 0 then 1 else noise)).

(** A plain detector: every pixel above the threshold is an object of its
    own, labelled by its position plus one.  The threshold is relative to
    [err] when it is given; an [err] of another shape than the data is
    refused. *)
Definition threshold_extract (data : ndarray Q) (thresh : Q)
    (err : option (ndarray Q)) (minarea deblend_nthresh : nat)
    (deblend_cont : Q) : result (list (gmap string Q) * ndarray Z) :=
  match err with
  | Some e => if shape_eqb (shape e) (shape data) then Return tt
              else Raise ValueError
  | None => Return tt
  end;;
  let above (k : nat) (x : Q) :=
    match err with
    | None => Qltb thresh x
    | Some e => Qltb (thresh * nth k (flat e) 0) x
    end in
  Return
    (map (fun x => {[ "flux" := x ]})
         (select (imap above (flat data)) (flat data)),
     NDArray (shape data)
       (imap (fun k x => if above k x then Z.of_nat (S k) else 0%Z)
             (flat data))).

Definition plain_sep : Sep := {|
  sep_Background := mean_background;
  sep_extract := threshold_extract
|}.

(** A sampler without randomness worth the name: the deviate of pixel [k]
    is a multiple of 1/100 between -1 and 1 drawn from the state. *)
Definition normal_arg_at (a : normal_arg) (k : nat) : Q :=
  match a with
  | Scalar x => x
  | PerPixel arr => nth k (flat arr) 0
  end.

Definition deviate (g : Z) (k : nat) : Q :=
  Qmake ((g + 37 * Z.of_nat k) mod 201 - 100) 100.

Definition counter_normal (loc scale : normal_arg) (size : nat * nat) (g : Z)
    : ndarray Q * Z :=
  (NDArray size
     (map (fun k => Qred (normal_arg_at loc k
                          + normal_arg_at scale k * deviate g k))
          (seq 0 (size.1 * size.2))),
   (g + Z.of_nat (size.1 * size.2))%Z).

Definition counter_sampler : RandomNormal := {|
  rng_state := Z;
  np_random_normal := counter_normal
|}.

(** No plotting. *)
Definition no_display : Display := {|
  figure := unit;
  plot_kwargs := unit;
  diagnose_image_clean := fun _ _ _ _ => tt
|}.

(** 3 x 3 images on a sky of level zero: one bright pixel in a corner; a
    second bright pixel at the centre; a constant image.  And a sigma map. *)
Definition img_source : ndarray Q :=
  NDArray (3, 3)%nat [50; 0; 1; -1; 0; 1; 0; -1; 0].
Definition img_centred : ndarray Q :=
  NDArray (3, 3)%nat [50; 0; 1; -1; 60; 1; 0; -1; 0].
Definition sig_one : ndarray Q :=
  NDArray (3, 3)%nat [1; 1; 1; 1; 1; 1; 1; 1; 1].

(** The caller's store: the image at location 1, the sigma map at 2. *)
Definition store_of (img : ndarray Q) : @store counter_sampler :=
  @Store counter_sampler {[ 1%positive := img; 2%positive := sig_one ]} 7%Z [].

(** A background that is the same at every pixel of a 3 x 3 image. *)
Definition level_background (level noise global_rms : Q) : background :=
  Background (NDArray (3, 3)%nat (replicate 9 level))
             (NDArray (3, 3)%nat (replicate 9 noise)) level global_rms.

(** What the plain estimator, detector and sampler give, pass by pass, on
    [img_centred] with the sigma map, on [img_flat] with the sigma map and
    on [img_source] without one, in the generator state 7. *)
Definition ev_centred : everything := {|
  ev_img := 1%positive;
  ev_sig := Some 2%positive;
  ev_bkg_1 := level_background (110 # 9) (1540 # 81) (1540 # 81);
  ev_obj_1 := [ {[ "flux" := 340 # 9 ]}; {[ "flux" := 430 # 9 ]} ];
  ev_seg_1 := NDArray (3, 3)%nat [1; 0; 0; 0; 5; 0; 0; 0; 0]%Z;
  ev_bkg_2 := level_background (110 # 9) (1540 # 81) (1540 # 81);
  ev_obj_2 := [ {[ "flux" := 50%Q ]}; {[ "flux" := 60%Q ]} ];
  ev_seg_2 := NDArray (3, 3)%nat [1; 0; 0; 0; 5; 0; 0; 0; 0]%Z;
  ev_bkg_3 := level_background 0 (4 # 7) (4 # 7);
  ev_obj_3 := [];
  ev_seg_3 := NDArray (3, 3)%nat [0; 0; 0; 0; 0; 0; 0; 0; 0]%Z;
  ev_noise := NDArray (3, 3)%nat
                [-93 # 175; -8 # 25; -19 # 175; 18 # 175; 11 # 35;
                 92 # 175; -72 # 175; -1 # 5; 2 # 175]
|}.


Definition ev_source : everything := {|
  ev_img := 1%positive;
  ev_sig := None;
  ev_bkg_1 := level_background (50 # 9) (800 # 81) (800 # 81);
  ev_obj_1 := [ {[ "flux" := 400 # 9 ]} ];
  ev_seg_1 := NDArray (3, 3)%nat [1; 0; 0; 0; 0; 0; 0; 0; 0]%Z;
  ev_bkg_2 := level_background (50 # 9) (800 # 81) (800 # 81);
  ev_obj_2 := [ {[ "flux" := 50%Q ]} ];
  ev_seg_2 := NDArray (3, 3)%nat [1; 0; 0; 0; 0; 0; 0; 0; 0]%Z;
  ev_bkg_3 := level_background 0 (1 # 2) (1 # 2);
  ev_obj_3 := [];
  ev_seg_3 := NDArray (3, 3)%nat [0; 0; 0; 0; 0; 0; 0; 0; 0]%Z;
  ev_noise := NDArray (3, 3)%nat
                [-93 # 200; -7 # 25; -19 # 200; 9 # 100; 11 # 40;
                 23 # 50; -9 # 25; -7 # 40; 1 # 100]
|}.

(** A constructor of generator states that keeps the seed it accepts; a
    list that is no seed array and holds no float is refused with
    [ValueError]. *)
Definition plain_seeding : Seeding := {|
  np_RandomState := fun seed =>
    match seed with
    | PyBool _ => Return (RandomState seed)
    | PyInt _ =>
        if seed_word seed then Return (RandomState seed) else Raise ValueError
    | PyList l =>
        if forallb is_real l && existsb is_float l then Raise TypeError
        else match l with
             | [] => Raise ValueError
             | _ :: _ =>
                 if forallb seed_word l then Return (RandomState seed)
                 else Raise ValueError
             end
    | _ => Raise TypeError
    end
|}.

(** A generator that walks through the tenths 0.0, 0.1, ..., 0.9. *)
Definition tenths_random : PyRandom := {|
  py_rng := nat;
  random_random := fun g => (Z.of_nat (g mod 10) # 10, S g)
|}.

(** The module [math] with the same stand-ins as [numpy]. *)
Definition approx_math : Math := {|
  math_cos := approx_cos;
  math_sin := approx_sin;
  math_sqrt := approx_sqrt;
  math_atan2 := approx_arctan2
|}.

(** A 3 x 3 segmentation map with two objects; object 2 holds the centre. *)
Definition seg_two : ndarray Z :=
  NDArray (3, 3)%nat [1; 1; 0; 0; 2; 2; 0; 0; 2]%Z.

(** * Properties *)

(** ** Comparisons *)

Lemma Qltb_lt (x y : Q) : Qltb x y = true <-> (x < y)%Q.
Proof.
  unfold Qltb. rewrite negb_true_iff, <- not_true_iff_false, Qle_bool_iff.
  split; [apply Qnot_le_lt | apply Qlt_not_le].
Qed.

Lemma Qltb_ge (x y : Q) : Qltb x y = false <-> (y <= x)%Q.
Proof.
  unfold Qltb. rewrite negb_false_iff. apply Qle_bool_iff.
Qed.

Lemma any_gt_false (bound : Q) (l : list Q) :
  any_gt bound l = false <-> Forall (fun w => (w <= bound)%Q) l.
Proof.
  unfold any_gt. induction l as [|w l IH]; simpl.
  - split; [constructor | reflexivity].
  - rewrite orb_false_iff, IH, Qltb_ge, Forall_cons. reflexivity.
Qed.

(** ** normalize_angle *)

(** C6.  The docstring promises a number in [[lower, upper)], unchanged when
    it already lies there.  With the limits (10, 20) the number 25 comes
    back as 25, outside the range; with the limits (-10, 20) the number
    -10, which lies in the range, comes back as 0. *)
Theorem normalize_angle_leaves_range :
  normalize_angle 25 10 20 false = Return 25%Q /\
  ~ (10 <= 25 < 20)%Q /\
  (-10 <= -10 < 20)%Q /\
  normalize_angle (-10) (-10) 20 false = Return 0%Q.
Proof.
  split; [reflexivity|]. split; [|split; [|reflexivity]].
  - intros [_ Hlt]. revert Hlt. apply Qle_not_lt. discriminate.
  - split; [discriminate | reflexivity].
Qed.

Lemma Qeq_bool_false (x y : Q) : Qeq_bool x y = false <-> ~ x == y.
Proof.
  split.
  - intros E Heq. apply Qeq_bool_iff in Heq. congruence.
  - intros Hne. destruct (Qeq_bool x y) eqn:E; [|reflexivity].
    apply Qeq_bool_iff in E. contradiction.
Qed.

Lemma py_mod_bounds (a b : Q) :
  (0 < b)%Q ->
  exists r, py_mod a b = Return r /\ (0 <= r)%Q /\ (r < b)%Q.
Proof.
  intros Hb. unfold py_mod.
  assert (Hne : ~ b == 0) by (intros E; rewrite E in Hb; discriminate).
  rewrite (proj2 (Qeq_bool_false b 0) Hne).
  eexists. split; [reflexivity|].
  pose proof (Qfloor_le (a / b)) as Hlo.
  pose proof (Qlt_floor (a / b)) as Hhi.
  rewrite inject_Z_plus in Hhi.
  set (f := inject_Z (Qfloor (a / b))) in *.
  apply (Qmult_le_l _ _ b Hb) in Hlo.
  apply (Qmult_lt_l _ _ b Hb) in Hhi.
  rewrite Qmult_div_r in Hlo, Hhi by exact Hne.
  assert (E : b * (f + 1) == b * f + b) by ring.
  rewrite E in Hhi. clear E. set (bf := b * f) in *. clearbody bf.
  split; lra.
Qed.

(** Where the limits lie on either side of 0 the sum of their absolute
    values is the length of the range, and the result is in the range. *)
Lemma normalize_angle_in_range (num lower upper : Q) :
  (lower <= 0)%Q -> (0 <= upper)%Q -> (lower < upper)%Q ->
  exists r, normalize_angle num lower upper false = Return r /\
            (lower <= r)%Q /\ (r < upper)%Q.
Proof.
  intros Hl Hu Hlu. unfold normalize_angle. cbn [negb].
  assert (Hguard : Qle_bool upper lower = false).
  { apply not_true_iff_false. rewrite Qle_bool_iff. lra. }
  rewrite Hguard.
  assert (HP : Qabs lower + Qabs upper == upper - lower).
  { rewrite (Qabs_neg lower Hl), (Qabs_pos upper Hu). ring. }
  set (P := Qabs lower + Qabs upper) in *. clearbody P.
  destruct (py_mod_bounds (Qabs (num + upper)) P)
    as (m1 & Hm1 & Hm1lo & Hm1hi); [lra|].
  destruct (py_mod_bounds (Qabs (num - lower)) P)
    as (m2 & Hm2 & Hm2lo & Hm2hi); [lra|].
  destruct (Qltb upper num || Qeq_bool num lower) eqn:C1.
  - rewrite Hm1. unfold mbind, result_bind.
    assert (C2a : Qltb (lower + m1) lower = false) by (apply Qltb_ge; lra).
    assert (C2b : Qeq_bool (lower + m1) upper = false)
      by (apply Qeq_bool_false; lra).
    rewrite C2a, C2b. cbn [orb]. rewrite C2b.
    eexists. split; [reflexivity|]. lra.
  - unfold mbind, result_bind.
    apply orb_false_iff in C1. destruct C1 as [C1a C1b].
    apply Qltb_ge in C1a. apply Qeq_bool_false in C1b.
    destruct (Qltb num lower || Qeq_bool num upper) eqn:C2.
    + rewrite Hm2. cbv beta iota.
      destruct (Qeq_bool (upper - m2) upper) eqn:C3;
        (eexists; split; [reflexivity|]); [lra|].
      apply Qeq_bool_false in C3. lra.
    + apply orb_false_iff in C2. destruct C2 as [C2a C2b].
      rewrite C2b. apply Qltb_ge in C2a. apply Qeq_bool_false in C2b.
      eexists. split; [reflexivity|].
      destruct (Qle_lt_or_eq _ _ C1a) as [Hlt | Heq]; [lra | contradiction].
Qed.

Lemma py_mod_self (a b : Q) :
  a == b -> (0 < b)%Q -> exists r, py_mod a b = Return r /\ r == 0.
Proof.
  intros Hab Hb. unfold py_mod.
  assert (Hne : ~ b == 0) by (intros E; rewrite E in Hb; discriminate).
  rewrite (proj2 (Qeq_bool_false b 0) Hne).
  eexists. split; [reflexivity|].
  assert (Hq : a / b == 1) by (rewrite Hab; field; exact Hne).
  assert (Hf : Qfloor (a / b) = 1%Z) by (rewrite Hq; reflexivity).
  rewrite Hf, Hab. unfold inject_Z. ring.
Qed.

(** A number of the range that is not its lower limit is returned as it
    is; so is the lower limit when it is 0. *)
Lemma normalize_angle_fixed (num lower upper : Q) :
  (lower <= 0)%Q -> (0 <= upper)%Q ->
  (lower < num)%Q \/ (num == lower /\ lower == 0)%Q -> (num < upper)%Q ->
  exists r, normalize_angle num lower upper false = Return r /\ r == num.
Proof.
  intros Hl Hu Hnum Hlt. unfold normalize_angle. cbn [negb].
  assert (Hguard : Qle_bool upper lower = false).
  { apply not_true_iff_false. rewrite Qle_bool_iff. lra. }
  rewrite Hguard.
  assert (C1a : Qltb upper num = false) by (apply Qltb_ge; lra).
  assert (C2a : Qltb num lower = false) by (apply Qltb_ge; lra).
  assert (C2b : Qeq_bool num upper = false) by (apply Qeq_bool_false; lra).
  destruct Hnum as [Hgt | [Heq Hz]].
  - assert (C1b : Qeq_bool num lower = false) by (apply Qeq_bool_false; lra).
    rewrite C1a, C1b. unfold mbind, result_bind. cbn [orb].
    rewrite C2a, C2b. cbn [orb]. rewrite C2b.
    eexists. split; [reflexivity | ring].
  - assert (C1b : Qeq_bool num lower = true) by (apply Qeq_bool_iff, Heq).
    rewrite C1a, C1b. cbn [orb].
    destruct (py_mod_self (Qabs (num + upper)) (Qabs lower + Qabs upper))
      as (m & Hm & Hm0).
    { rewrite (Qabs_neg lower Hl), (Qabs_pos upper Hu), Qabs_pos by lra. lra. }
    { rewrite (Qabs_neg lower Hl), (Qabs_pos upper Hu). lra. }
    rewrite Hm. unfold mbind, result_bind.
    assert (C3a : Qltb (lower + m) lower = false) by (apply Qltb_ge; lra).
    assert (C3b : Qeq_bool (lower + m) upper = false)
      by (apply Qeq_bool_false; lra).
    rewrite C3a, C3b. cbn [orb]. rewrite C3b.
    eexists. split; [reflexivity | lra].
Qed.

(** C7.  The limits (360, 0), for which [lower >= upper], are refused by
    the plain mode with [ValueError]; the [b] mode does not check them
    and returns the number -710 for the number 10, although no number
    lies in the range asked for. *)
Theorem normalize_angle_b_mode_unchecked :
  (0 <= 360)%Q /\
  normalize_angle 10 360 0 false = Raise ValueError /\
  normalize_angle 10 360 0 true = Return (-710)%Q.
Proof. split; [discriminate|]. split; reflexivity. Qed.

(** With [lower >= upper] the plain mode raises [ValueError] whatever the
    number; the [b] mode never raises it. *)
Lemma normalize_angle_invalid_range (num lower upper : Q) :
  (upper <= lower)%Q ->
  normalize_angle num lower upper false = Raise ValueError /\
  normalize_angle num lower upper true <> Raise ValueError.
Proof.
  intros Hle. split.
  - unfold normalize_angle. simpl.
    apply Qle_bool_iff in Hle. rewrite Hle. reflexivity.
  - unfold normalize_angle, py_div. simpl.
    repeat match goal with
           | |- context [if ?c then _ else _] => destruct c; simpl
           end; discriminate.
Qed.

(** ** weighted_median *)

Lemma weighted_median_falls_through (np_median : list Q -> Q)
    (data weights : list Q) :
  any_gt ((1 # 2) * py_sum weights) weights = false ->
  any_gt 0 weights = false ->
  weighted_median np_median data (Some weights) = Return None.
Proof.
  intros Hmid Hpos. unfold weighted_median. rewrite Hmid, Hpos. reflexivity.
Qed.

(** C10.  With the weights [0, -1] no weight is positive, yet
    [weighted_median] returns the datum 5: the weight 0 exceeds half of
    the sum, -0.5, and the test for a dominant weight comes before the
    test [any(j > 0)] that guards the rest of the function.
    [numpy_weighted_median], which tests [any(weights > 0)] first, returns
    nothing on the same input. *)
Theorem weighted_median_nonpositive_weights_value :
  Forall (fun w => (w <= 0)%Q) [0; -1]%Q /\
  weighted_median median [5; 7]%Q (Some [0; -1]%Q) = Return (Some 5%Q) /\
  numpy_weighted_median median mean [5; 7]%Q (Some [0; -1]%Q) = Return None.
Proof.
  split; [|split; reflexivity].
  repeat constructor; discriminate.
Qed.

(** When no weight is positive and no weight exceeds half of the sum of
    the weights, nothing is returned ([None]). *)
Lemma weighted_median_none (np_median : list Q -> Q)
    (data weights : list Q) :
  Forall (fun w => (w <= 0)%Q) weights ->
  Forall (fun w => (w <= (1 # 2) * py_sum weights)%Q) weights ->
  weighted_median np_median data (Some weights) = Return None.
Proof.
  intros Hpos Hmid.
  apply weighted_median_falls_through; apply any_gt_false; assumption.
Qed.

(** All weights zero is the plain instance of it. *)
Lemma weighted_median_zero_weights (np_median : list Q -> Q)
    (data weights : list Q) :
  Forall (fun w => w = 0%Q) weights ->
  weighted_median np_median data (Some weights) = Return None.
Proof.
  intros Hz.
  assert (Hsum : forall acc, fold_left Qplus weights acc == acc).
  { induction Hz as [|w l Hw _ IH]; intros acc; simpl; [reflexivity|].
    rewrite IH, Hw. ring. }
  apply weighted_median_falls_through; apply any_gt_false;
    (eapply Forall_impl; [exact Hz|]); intros w ->; simpl.
  - unfold py_sum. rewrite Hsum. discriminate.
  - discriminate.
Qed.

(** ** check_random_state *)

Lemma plain_seeding_laws : @SeedingLaws plain_seeding.
Proof.
  constructor.
  - reflexivity.
  - reflexivity.
  - intros l Hne Hall. cbn [np_RandomState plain_seeding].
    assert (Hreal : forallb is_real l = true).
    { apply forallb_forall. intros v Hv.
      pose proof (proj1 (forallb_forall _ _) Hall v Hv) as Hw.
      destruct v; try discriminate; reflexivity. }
    assert (Hfloat : existsb is_float l = false).
    { apply not_true_iff_false. intros Hex. apply existsb_exists in Hex.
      destruct Hex as (v & Hv & Hf).
      pose proof (proj1 (forallb_forall _ _) Hall v Hv) as Hw.
      destruct v; discriminate. }
    rewrite Hreal, Hfloat, Hall. destruct l; [congruence|reflexivity].
  - intros l Hreal Hfloat. cbn [np_RandomState plain_seeding].
    rewrite Hreal, Hfloat. reflexivity.
Qed.

(** C8, as stated, fails: a non-integer float is not refused, it is cut
    to an integer and used as the seed. *)
Lemma check_random_state_float_seed :
  @check_random_state plain_seeding (PyFloat (Finite 2.5))
  = Return (RandomState (PyInt 2)).
Proof. reflexivity. Qed.

Section CheckRandomState.
Context `{SeedingLaws}.

Lemma check_random_state_list (first : pyobj) (l : list pyobj) :
  check_random_state (PyList (first :: l)) =
  if is_integral first then np_RandomState (PyList (first :: l))
  else Raise ValueError.
Proof. reflexivity. Qed.

Lemma check_random_state_finite (q : Q) :
  check_random_state (PyFloat (Finite q)) =
  if seed_word (PyInt (Qtruncate q))
  then Return (RandomState (PyInt (Qtruncate q)))
  else Raise ValueError.
Proof.
  change (check_random_state (PyFloat (Finite q)))
    with (np_RandomState (PyInt (Qtruncate q))).
  apply seed_int.
Qed.

Lemma check_random_state_int (n : Z) :
  check_random_state (PyInt n) =
  if seed_word (PyInt n) then Return (RandomState (PyInt n))
  else Raise ValueError.
Proof.
  change (check_random_state (PyInt n)) with (np_RandomState (PyInt n)).
  apply seed_int.
Qed.

(** C8, amended.  A generator state is returned exactly for [None], the
    module [numpy.random], a generator state, an integer of
    [0 .. 2**32 - 1], a finite float that lies there once cut to an
    integer, and a list that starts with an integer and that
    [np.random.RandomState] accepts, as it does a non-empty list of such
    integers.  An integer or a finite float outside the range, a NaN, a
    string, a tuple and a list that starts with something else raise
    [ValueError]; a list of numbers that starts with an integer and holds
    a float raises [TypeError]. *)
Theorem check_random_state_accepted :
  (forall seed, returns (check_random_state seed) <-> accepted_seed seed) /\
  (forall n, seed_word (PyInt n) = false ->
             check_random_state (PyInt n) = Raise ValueError) /\
  (forall q, seed_word (PyInt (Qtruncate q)) = false ->
             check_random_state (PyFloat (Finite q)) = Raise ValueError) /\
  (forall s, check_random_state (PyStr s) = Raise ValueError) /\
  (forall l, check_random_state (PyTuple l) = Raise ValueError) /\
  check_random_state (PyFloat NaN) = Raise ValueError /\
  (forall first l,
     check_random_state (PyList (first :: l)) =
       if is_integral first then np_RandomState (PyList (first :: l))
       else Raise ValueError) /\
  (forall first l,
     is_integral first = true -> forallb seed_word (first :: l) = true ->
     check_random_state (PyList (first :: l))
     = Return (RandomState (PyList (first :: l)))) /\
  (forall first l,
     is_integral first = true -> forallb is_real l = true ->
     existsb is_float l = true ->
     check_random_state (PyList (first :: l)) = Raise TypeError).
Proof.
  split; [|split; [|split; [|split; [|split; [|split; [|split; [|split]]]]]]].
  - intros seed. split.
    + intros [g Hg]. destruct seed as [| |b|n|[q|neg|]|s|[|first l]|l|g'];
        try discriminate Hg; try constructor.
      * rewrite check_random_state_int in Hg.
        destruct (seed_word (PyInt n)); [reflexivity|discriminate].
      * rewrite check_random_state_finite in Hg.
        destruct (seed_word (PyInt (Qtruncate q))); [reflexivity|discriminate].
      * rewrite check_random_state_list in Hg.
        destruct (is_integral first); [reflexivity|discriminate].
      * rewrite check_random_state_list in Hg.
        destruct (is_integral first); [exists g; exact Hg|discriminate].
    + intros Hacc.
      destruct Hacc as [| |b|n Hn|q Hq|g|first l Hfirst [g Hg]].
      * eexists; reflexivity.
      * eexists; reflexivity.
      * exists (RandomState (PyBool b)).
        change (check_random_state (PyBool b)) with (np_RandomState (PyBool b)).
        apply seed_bool.
      * rewrite check_random_state_int, Hn. eexists; reflexivity.
      * rewrite check_random_state_finite, Hq. eexists; reflexivity.
      * eexists; reflexivity.
      * rewrite check_random_state_list, Hfirst. exists g. exact Hg.
  - intros n Hn. rewrite check_random_state_int, Hn. reflexivity.
  - intros q Hq. rewrite check_random_state_finite, Hq. reflexivity.
  - reflexivity.
  - reflexivity.
  - reflexivity.
  - apply check_random_state_list.
  - intros first l Hfirst Hall. rewrite check_random_state_list, Hfirst.
    apply seed_ints; [discriminate|exact Hall].
  - intros first l Hfirst Hreal Hfloat. rewrite check_random_state_list, Hfirst.
    apply seed_floats.
    + cbn [forallb]. rewrite Hreal.
      destruct first; try discriminate Hfirst; reflexivity.
    + cbn [existsb]. rewrite Hfloat. apply orb_true_r.
Qed.
End CheckRandomState.

Lemma check_random_state_accepted_witness :
  (forall seed, returns (@check_random_state plain_seeding seed) <->
                @accepted_seed plain_seeding seed) /\
  (forall n, seed_word (PyInt n) = false ->
             @check_random_state plain_seeding (PyInt n) = Raise ValueError) /\
  (forall q, seed_word (PyInt (Qtruncate q)) = false ->
             @check_random_state plain_seeding (PyFloat (Finite q))
             = Raise ValueError) /\
  (forall s, @check_random_state plain_seeding (PyStr s) = Raise ValueError) /\
  (forall l, @check_random_state plain_seeding (PyTuple l) = Raise ValueError) /\
  @check_random_state plain_seeding (PyFloat NaN) = Raise ValueError /\
  (forall first l,
     @check_random_state plain_seeding (PyList (first :: l)) =
       if is_integral first
       then @np_RandomState plain_seeding (PyList (first :: l))
       else Raise ValueError) /\
  (forall first l,
     is_integral first = true -> forallb seed_word (first :: l) = true ->
     @check_random_state plain_seeding (PyList (first :: l))
     = Return (RandomState (PyList (first :: l)))) /\
  (forall first l,
     is_integral first = true -> forallb is_real l = true ->
     existsb is_float l = true ->
     @check_random_state plain_seeding (PyList (first :: l)) = Raise TypeError).
Proof.
  apply (@check_random_state_accepted plain_seeding plain_seeding_laws).
Defined.

(** ** The pair counter *)

Lemma np_where_from_lookup (mask : list bool) (i j : nat) :
  j ∈ np_where_from i mask <->
  (i <= j)%nat /\ mask !! (j - i)%nat = Some true.
Proof.
  revert i. induction mask as [|b mask IH]; intros i; simpl.
  - rewrite elem_of_nil. split; [tauto | intros [_ Hk]; discriminate].
  - assert (Hstep : j ∈ np_where_from (S i) mask <->
                    (i < j)%nat /\ (b :: mask) !! (j - i)%nat = Some true).
    { rewrite IH. split.
      - intros [Hle Hk]. split; [lia|].
        replace (j - i)%nat with (S (j - S i)) by lia. exact Hk.
      - intros [Hlt Hk]. split; [lia|].
        replace (j - i)%nat with (S (j - S i)) in Hk by lia. exact Hk. }
    destruct b.
    + rewrite elem_of_cons, Hstep. split.
      * intros [-> | [Hlt Hk]]; [|split; [lia | exact Hk]].
        split; [lia|]. rewrite Nat.sub_diag. reflexivity.
      * intros [Hle Hk]. destruct (decide (j = i)) as [->|Hne]; [left; reflexivity|].
        right. split; [lia | exact Hk].
    + rewrite Hstep. split.
      * intros [Hlt Hk]. split; [lia | exact Hk].
      * intros [Hle Hk]. split; [|exact Hk].
        destruct (decide (j = i)) as [->|Hne]; [|lia].
        rewrite Nat.sub_diag in Hk. discriminate.
Qed.

Lemma np_where_from_lower (mask : list bool) (i j : nat) :
  j ∈ np_where_from i mask -> (i <= j)%nat.
Proof. rewrite np_where_from_lookup. tauto. Qed.

Lemma np_where_from_NoDup (mask : list bool) (i : nat) :
  NoDup (np_where_from i mask).
Proof.
  revert i. induction mask as [|b mask IH]; intros i; simpl; [constructor|].
  destruct b; [|apply IH].
  constructor; [|apply IH].
  intros Hin. apply np_where_from_lower in Hin. lia.
Qed.

Lemma np_sum_bool_from (mask : list bool) (i : nat) (n : Z) :
  fold_left (fun n (b : bool) => if b then (n + 1)%Z else n) mask n =
  (n + Z.of_nat (length (np_where_from i mask)))%Z.
Proof.
  revert i n. induction mask as [|b mask IH]; intros i n; simpl; [lia|].
  rewrite (IH (S i)). destruct b; simpl length; lia.
Qed.

Lemma np_sum_bool_where (mask : list bool) :
  np_sum_bool mask = Z.of_nat (length (np_where mask)).
Proof. unfold np_sum_bool, np_where. rewrite (np_sum_bool_from mask 0). lia. Qed.

Lemma np_where_lookup (mask : list bool) (j : nat) :
  j ∈ np_where mask <-> mask !! j = Some true.
Proof.
  unfold np_where. rewrite np_where_from_lookup, Nat.sub_0_r.
  split; [tauto | intros Hk; split; [lia | exact Hk]].
Qed.

Lemma column_returns (cat : list (gmap string Q)) (col : string) :
  Forall (fun row => is_Some (row !! col)) cat ->
  exists vs, column cat col = Return vs /\ length vs = length cat.
Proof.
  unfold column. induction 1 as [|row cat [v Hv] _ [vs [IH Hlen]]]; simpl.
  - exists []. split; reflexivity.
  - exists (v :: vs). rewrite IH. unfold getitem. rewrite Hv. simpl.
    split; [reflexivity | congruence].
Qed.

Section PairMatchFacts.
Context `{Numpy} `{Cosmology}.

Lemma angular_distance_length (ra_1 dec_1 : Q) (ra_arr_2 dec_arr_2 : list Q) :
  length ra_arr_2 = length dec_arr_2 ->
  length (angular_distance ra_1 dec_1 ra_arr_2 dec_arr_2) = length ra_arr_2.
Proof.
  intros Hlen. unfold angular_distance.
  rewrite !length_map, length_zip_with. lia.
Qed.

Lemma projected_sep_returns (c : cosmo) (z_col ra_col dec_col : string)
    (obj1 : gmap string Q) (cat2 : list (gmap string Q)) :
  has_columns [z_col; ra_col; dec_col] obj1 ->
  Forall (has_columns [ra_col; dec_col]) cat2 ->
  exists sep, projected_sep c z_col ra_col dec_col obj1 cat2 = Return sep /\
              length sep = length cat2.
Proof.
  intros Hobj Hcat. unfold has_columns in Hobj.
  rewrite !Forall_cons in Hobj. destruct Hobj as ([z Hz] & [ra Hra] & [de Hde] & _).
  destruct (column_returns cat2 ra_col) as (ras & Hras & Hlr).
  { eapply Forall_impl; [exact Hcat|]. intros row Hrow.
    unfold has_columns in Hrow. rewrite !Forall_cons in Hrow. tauto. }
  destruct (column_returns cat2 dec_col) as (des & Hdes & Hld).
  { eapply Forall_impl; [exact Hcat|]. intros row Hrow.
    unfold has_columns in Hrow. rewrite !Forall_cons in Hrow. tauto. }
  eexists. unfold projected_sep, getitem. rewrite Hz, Hra, Hde. simpl.
  rewrite Hras, Hdes. simpl. split; [reflexivity|].
  rewrite length_map, angular_distance_length; congruence.
Qed.

(** The loop, one catalog-1 object after the other: each object appends
    its count and its index list. *)
Lemma pair_match_loop (cat1 cat2 : list (gmap string Q)) (z_col : string)
    (r_kpc : Q) (c : cosmo) (ra_col dec_col : string) (include : bool)
    (seps : list (list Q)) :
  Forall2 (fun obj1 sep =>
             projected_sep c z_col ra_col dec_col obj1 cat2 = Return sep)
          cat1 seps ->
  forall num_pair index_pair,
  for_each (pair_match_body cat2 z_col r_kpc c ra_col dec_col include)
           cat1 (num_pair, index_pair) =
  Return (num_pair ++
            map (fun sep =>
                   let n := np_sum_bool (map (fun d => Qltb d r_kpc) sep) in
                   if include then (n - 1)%Z else n) seps,
          index_pair ++
            map (fun sep => np_where (map (fun d => Qltb d r_kpc) sep)) seps).
Proof.
  induction 1 as [|obj1 sep cat1 seps Hsep _ IH]; intros num_pair index_pair.
  - simpl. rewrite !app_nil_r. reflexivity.
  - simpl. rewrite Hsep. simpl.
    destruct include; rewrite IH, <- !app_assoc; reflexivity.
Qed.
End PairMatchFacts.

Lemma lookup_map {A B : Type} (f : A -> B) (l : list A) (i : nat) :
  map f l !! i = f <$> (l !! i).
Proof.
  revert i. induction l as [|x l IH]; intros [|i]; simpl; auto.
Qed.

Lemma within_lookup (r_kpc : Q) (sep : list Q) (j : nat) :
  map (fun d => Qltb d r_kpc) sep !! j = Some true <->
  exists d, sep !! j = Some d /\ (d < r_kpc)%Q.
Proof.
  rewrite lookup_map. destruct (sep !! j) as [d|]; simpl.
  - split.
    + intros [= Hlt]. exists d. split; [reflexivity | apply Qltb_lt, Hlt].
    + intros (d' & [= <-] & Hlt). f_equal. apply Qltb_lt, Hlt.
  - split; [discriminate | intros (d & Hd & _); discriminate].
Qed.

Section PairMatchTheorems.
Context `{Numpy} `{Cosmology}.

Lemma projected_sep_all (c : cosmo) (z_col ra_col dec_col : string)
    (cat1 cat2 : list (gmap string Q)) :
  Forall (has_columns [z_col; ra_col; dec_col]) cat1 ->
  Forall (has_columns [ra_col; dec_col]) cat2 ->
  exists seps,
    Forall2 (fun obj1 sep =>
               projected_sep c z_col ra_col dec_col obj1 cat2 = Return sep)
            cat1 seps /\
    Forall (fun sep => length sep = length cat2) seps.
Proof.
  intros Hcat1 Hcat2. induction Hcat1 as [|obj1 cat1 Hobj _ (seps & IH & Hlen)].
  - exists []. split; constructor.
  - destruct (projected_sep_returns c z_col ra_col dec_col obj1 cat2 Hobj Hcat2)
      as (sep & Hsep & Hl).
    exists (sep :: seps). split; constructor; assumption.
Qed.

(** C1, amended.  When the catalogs have the columns asked for, the call
    returns one count and one index list per catalog-1 object.  The index
    list of an object holds, once each, exactly the catalog-2 positions
    whose projected distance is below [r_kpc] (a self-match included); the
    count is the number of these positions, less one precisely when
    [include] is true. *)
Theorem pair_count_convention (cat1 cat2 : list (gmap string Q))
    (z_col : string) (r_kpc : Q) (c : cosmo) (ra_col dec_col : string)
    (include : bool) :
  Forall (has_columns [z_col; ra_col; dec_col]) cat1 ->
  Forall (has_columns [ra_col; dec_col]) cat2 ->
  exists num_pair index_pair,
    table_pair_match_physical cat1 cat2 z_col r_kpc c ra_col dec_col include
      = Return (num_pair, index_pair) /\
    length num_pair = length cat1 /\
    length index_pair = length cat1 /\
    forall i obj1, cat1 !! i = Some obj1 ->
      exists sep idx,
        projected_sep c z_col ra_col dec_col obj1 cat2 = Return sep /\
        length sep = length cat2 /\
        index_pair !! i = Some idx /\
        NoDup idx /\
        (forall j, j ∈ idx <-> exists d, sep !! j = Some d /\ (d < r_kpc)%Q) /\
        num_pair !! i =
          Some (if include then Z.of_nat (length idx) - 1
                else Z.of_nat (length idx))%Z.
Proof.
  intros Hcat1 Hcat2.
  destruct (projected_sep_all c z_col ra_col dec_col cat1 cat2 Hcat1 Hcat2)
    as (seps & Hseps & Hlens).
  eexists _, _. split; [|split; [|split]].
  - unfold table_pair_match_physical.
    rewrite (pair_match_loop _ _ _ _ _ _ _ _ seps Hseps). reflexivity.
  - simpl. rewrite length_map. symmetry. eapply Forall2_length, Hseps.
  - simpl. rewrite length_map. symmetry. eapply Forall2_length, Hseps.
  - intros i obj1 Hi.
    destruct (Forall2_lookup_l _ _ _ _ _ Hseps Hi) as (sep & Hsi & Hsep).
    exists sep, (np_where (map (fun d => Qltb d r_kpc) sep)).
    split; [exact Hsep|]. split.
    { rewrite Forall_forall in Hlens. apply Hlens.
      apply list_elem_of_lookup. eauto. }
    simpl. rewrite !lookup_map, Hsi. simpl.
    split; [reflexivity|]. split; [apply np_where_from_NoDup|]. split.
    + intros j. rewrite np_where_lookup. apply within_lookup.
    + rewrite np_sum_bool_where. destruct include; reflexivity.
Qed.
End PairMatchTheorems.

(** C1, as stated, fails: it has the flag the wrong way round.  For one
    object matched against its own catalog there is one position within the
    radius (the object itself); with [include] false the count is 1, the
    number of positions as it is, and with [include] true it is 0. *)
Lemma pair_count_include_polarity :
  @table_pair_match_physical approx_numpy hubble_cosmology
     [obj_a] [obj_a] "z" 1000 cosmo_erin "ra" "dec" false
    = Return ([1%Z], [[0%nat]]) /\
  @table_pair_match_physical approx_numpy hubble_cosmology
     [obj_a] [obj_a] "z" 1000 cosmo_erin "ra" "dec" true
    = Return ([0%Z], [[0%nat]]).
Proof. split; vm_compute; reflexivity. Qed.

Lemma scenario_columns :
  Forall (has_columns ["z"; "ra"; "dec"]) [obj_a; obj_b] /\
  Forall (has_columns ["ra"; "dec"]) [obj_a; obj_b].
Proof. split; repeat constructor; eexists; reflexivity. Defined.

Lemma pair_count_convention_witness :
  exists num_pair index_pair,
    @table_pair_match_physical approx_numpy hubble_cosmology
       [obj_a; obj_b] [obj_a; obj_b] "z" 1000 cosmo_erin "ra" "dec" true
      = Return (num_pair, index_pair) /\
    length num_pair = 2%nat /\
    length index_pair = 2%nat /\
    forall i obj1, [obj_a; obj_b] !! i = Some obj1 ->
      exists sep idx,
        @projected_sep approx_numpy hubble_cosmology
           cosmo_erin "z" "ra" "dec" obj1 [obj_a; obj_b] = Return sep /\
        length sep = 2%nat /\
        index_pair !! i = Some idx /\
        NoDup idx /\
        (forall j, j ∈ idx <-> exists d, sep !! j = Some d /\ (d < 1000)%Q) /\
        num_pair !! i = Some (Z.of_nat (length idx) - 1)%Z.
Proof.
  apply (@pair_count_convention approx_numpy hubble_cosmology
           [obj_a; obj_b] [obj_a; obj_b] "z" 1000 cosmo_erin "ra" "dec" true
           (proj1 scenario_columns) (proj2 scenario_columns)).
Defined.

Section PairMatchScenarios.
Context `{Numpy} `{Cosmology}.

Lemma within_all (r_kpc : Q) (sep : list Q) :
  Forall (fun d => (d < r_kpc)%Q) sep ->
  map (fun d => Qltb d r_kpc) sep = map (fun _ => true) sep.
Proof.
  induction 1 as [|d sep Hd _ IH]; simpl; [reflexivity|].
  apply Qltb_lt in Hd. rewrite Hd, IH. reflexivity.
Qed.

Lemma within_none (r_kpc : Q) (sep : list Q) :
  Forall (fun d => (r_kpc <= d)%Q) sep ->
  map (fun d => Qltb d r_kpc) sep = map (fun _ => false) sep.
Proof.
  induction 1 as [|d sep Hd _ IH]; simpl; [reflexivity|].
  apply Qltb_ge in Hd. rewrite Hd, IH. reflexivity.
Qed.

(** C2.  Catalog 1 holds the object (ra 10, dec 0, z 0.1); catalog 2 holds
    it and a second object 10 arcsec away, both within [r_kpc] of it.  The
    count is 2 without the flag and 1 with [include]; it is 1 as well, with
    [include], when catalog 2 is passed in the place of catalog 1. *)
Theorem pair_counter_scenario (c : cosmo) (r_kpc : Q) :
  (forall sep,
     projected_sep c "z" "ra" "dec" obj_a [obj_a; obj_b] = Return sep ->
     Forall (fun d => (d < r_kpc)%Q) sep) ->
  table_pair_match_physical [obj_a] [obj_a; obj_b] "z" r_kpc c "ra" "dec" false
    = Return ([2%Z], [[0; 1]%nat]) /\
  table_pair_match_physical [obj_a] [obj_a; obj_b] "z" r_kpc c "ra" "dec" true
    = Return ([1%Z], [[0; 1]%nat]) /\
  exists n_b idx_b,
    table_pair_match_physical [obj_a; obj_b] [obj_a; obj_b] "z" r_kpc c
                              "ra" "dec" true
      = Return ([1%Z; n_b], [[0; 1]%nat; idx_b]).
Proof.
  intros Hwithin.
  destruct (projected_sep_all c "z" "ra" "dec" [obj_a; obj_b] [obj_a; obj_b]
              (proj1 scenario_columns) (proj2 scenario_columns))
    as (seps & Hseps & Hlens).
  inversion Hseps as [|? sep_a ? seps' Ha Hseps' E1 E2]; subst.
  inversion Hseps' as [|? sep_b ? seps'' Hb Hnil E1 E2]; subst.
  inversion Hnil; subst. clear Hseps' Hnil.
  rewrite !Forall_cons in Hlens. destruct Hlens as (La & _).
  assert (Wa : map (fun d => Qltb d r_kpc) sep_a = [true; true]).
  { rewrite (within_all r_kpc sep_a (Hwithin sep_a Ha)).
    destruct sep_a as [|? [|? [|]]]; try discriminate La. reflexivity. }
  unfold table_pair_match_physical.
  assert (Ha1 : Forall2 (fun obj1 sep =>
             projected_sep c "z" "ra" "dec" obj1 [obj_a; obj_b] = Return sep)
             [obj_a] [sep_a]) by (repeat constructor; exact Ha).
  rewrite !(pair_match_loop _ _ _ _ _ _ _ _ [sep_a] Ha1).
  rewrite (pair_match_loop _ _ _ _ _ _ _ _ [sep_a; sep_b] Hseps).
  simpl. rewrite Wa. split; [reflexivity|]. split; [reflexivity|].
  eexists _, _. reflexivity.
Qed.

(** C9.  With [include] set, an object of catalog 1 that has no object of
    catalog 2 within [r_kpc] gets the count -1 (and an empty index list). *)
Theorem pair_count_minus_one (cat1 cat2 : list (gmap string Q))
    (z_col : string) (r_kpc : Q) (c : cosmo) (ra_col dec_col : string)
    (i : nat) (obj1 : gmap string Q) :
  Forall (has_columns [z_col; ra_col; dec_col]) cat1 ->
  Forall (has_columns [ra_col; dec_col]) cat2 ->
  cat1 !! i = Some obj1 ->
  (forall sep, projected_sep c z_col ra_col dec_col obj1 cat2 = Return sep ->
     Forall (fun d => (r_kpc <= d)%Q) sep) ->
  exists num_pair index_pair,
    table_pair_match_physical cat1 cat2 z_col r_kpc c ra_col dec_col true
      = Return (num_pair, index_pair) /\
    num_pair !! i = Some (-1)%Z /\
    index_pair !! i = Some [].
Proof.
  intros Hcat1 Hcat2 Hi Hfar.
  destruct (projected_sep_all c z_col ra_col dec_col cat1 cat2 Hcat1 Hcat2)
    as (seps & Hseps & _).
  destruct (Forall2_lookup_l _ _ _ _ _ Hseps Hi) as (sep & Hsi & Hsep).
  eexists _, _. split.
  - unfold table_pair_match_physical.
    rewrite (pair_match_loop _ _ _ _ _ _ _ _ seps Hseps). reflexivity.
  - simpl. rewrite !lookup_map, Hsi. simpl.
    rewrite (within_none r_kpc sep (Hfar sep Hsep)).
    assert (Hnone : forall (l : list Q) k,
              np_where_from k (map (fun _ => false) l) = []).
    { induction l as [|x l IH]; intros k; simpl; auto. }
    rewrite np_sum_bool_where. unfold np_where. rewrite Hnone.
    split; reflexivity.
Qed.
End PairMatchScenarios.

Lemma pair_counter_scenario_witness :
  @table_pair_match_physical approx_numpy hubble_cosmology
     [obj_a] [obj_a; obj_b] "z" 1000 cosmo_erin "ra" "dec" false
    = Return ([2%Z], [[0; 1]%nat]) /\
  @table_pair_match_physical approx_numpy hubble_cosmology
     [obj_a] [obj_a; obj_b] "z" 1000 cosmo_erin "ra" "dec" true
    = Return ([1%Z], [[0; 1]%nat]) /\
  exists n_b idx_b,
    @table_pair_match_physical approx_numpy hubble_cosmology
       [obj_a; obj_b] [obj_a; obj_b] "z" 1000 cosmo_erin "ra" "dec" true
      = Return ([1%Z; n_b], [[0; 1]%nat; idx_b]).
Proof.
  apply (@pair_counter_scenario approx_numpy hubble_cosmology cosmo_erin 1000).
  intros sep Hsep. vm_compute in Hsep. injection Hsep as <-.
  repeat constructor; vm_compute; reflexivity.
Defined.

Lemma pair_count_minus_one_witness :
  exists num_pair index_pair,
    @table_pair_match_physical approx_numpy hubble_cosmology
       [obj_a] [obj_far] "z" 1000 cosmo_erin "ra" "dec" true
      = Return (num_pair, index_pair) /\
    num_pair !! 0%nat = Some (-1)%Z /\
    index_pair !! 0%nat = Some [].
Proof.
  apply (@pair_count_minus_one approx_numpy hubble_cosmology
           [obj_a] [obj_far] "z" 1000 cosmo_erin "ra" "dec" 0%nat obj_a).
  - repeat constructor; eexists; reflexivity.
  - repeat constructor; eexists; reflexivity.
  - reflexivity.
  - intros sep Hsep. vm_compute in Hsep. injection Hsep as <-.
    repeat constructor. discriminate.
Defined.

(** ** Masked reads and writes of arrays *)

Lemma Return_inj {A : Type} (a b : A) : Return a = Return b -> a = b.
Proof. intros [= E]. exact E. Qed.

Lemma zip_with_map_r {A B C : Type} (f : A -> B -> C) (g : A -> B) (l : list A) :
  zip_with f l (map g l) = map (fun x => f x (g x)) l.
Proof. induction l as [|x l IH]; simpl; [reflexivity|]. rewrite IH. reflexivity. Qed.

Lemma shape_eqb_eq (s t : nat * nat) : shape_eqb s t = true <-> s = t.
Proof.
  unfold shape_eqb. destruct s as [a b], t as [c d]. simpl.
  rewrite andb_true_iff, !Nat.eqb_eq. split; [intros [-> ->] | intros [= -> ->]]; auto.
Qed.

Lemma shape_eqb_refl (s : nat * nat) : shape_eqb s s = true.
Proof. apply shape_eqb_eq. reflexivity. Qed.

Lemma count_true_cons (b : bool) (mask : list bool) :
  count_true (b :: mask) = ((if b then 1 else 0) + count_true mask)%nat.
Proof.
  unfold count_true. destruct b.
  - rewrite filter_cons_True by exact I. reflexivity.
  - rewrite filter_cons_False by (intros []). reflexivity.
Qed.

Lemma length_select {A : Type} (mask : list bool) (l : list A) :
  length l = length mask -> length (select mask l) = count_true mask.
Proof.
  revert l. induction mask as [|b mask IH]; intros [|x l] Hlen;
    try discriminate Hlen; [reflexivity|].
  rewrite count_true_cons. simpl. injection Hlen as Hlen.
  destruct b; simpl; rewrite IH by exact Hlen; reflexivity.
Qed.

Lemma length_scatter {A : Type} (l : list A) (mask : list bool) (vals : list A) :
  length (scatter l mask vals) = length l.
Proof.
  revert mask vals. induction l as [|x l IH]; intros [|b mask] vals;
    try reflexivity.
  simpl. destruct b; [destruct vals|]; simpl; rewrite IH; reflexivity.
Qed.

(** Writing back, through a mask, the values read through the same mask
    takes a pixel from [v] where the mask holds and leaves it elsewhere. *)
Lemma scatter_select_lookup {A : Type} (l v : list A) (mask : list bool)
    (k : nat) (x y : A) (b : bool) :
  length v = length l ->
  l !! k = Some x -> v !! k = Some y -> mask !! k = Some b ->
  scatter l mask (select mask v) !! k = Some (if b then y else x).
Proof.
  revert v mask k. induction l as [|x0 l IH]; intros [|y0 v] [|b0 mask] k Hlen Hx Hy Hb;
    try discriminate.
  injection Hlen as Hlen. destruct k as [|k]; simpl in *.
  - injection Hx as ->. injection Hy as ->. injection Hb as ->.
    destruct b; reflexivity.
  - destruct b0; simpl; eapply IH; eassumption.
Qed.

Lemma arr_zip_with_run {A B C : Type} (f : A -> B -> C)
    (a : ndarray A) (b : ndarray B) :
  shape a = shape b ->
  arr_zip_with f a b = Return (NDArray (shape a) (zip_with f (flat a) (flat b))).
Proof. intros E. unfold arr_zip_with. rewrite E, shape_eqb_refl. reflexivity. Qed.

Lemma mask_get_run {A : Type} (a : ndarray A) (mask : ndarray bool) :
  shape a = shape mask ->
  mask_get a mask = Return (select (flat mask) (flat a)).
Proof. intros E. unfold mask_get. rewrite E, shape_eqb_refl. reflexivity. Qed.

Lemma mask_fill_run {A : Type} (a : ndarray A) (mask : ndarray bool) (v : A) :
  shape a = shape mask ->
  mask_fill a mask v =
    Return (NDArray (shape a)
              (zip_with (fun x (b : bool) => if b then v else x)
                        (flat a) (flat mask))).
Proof. intros E. unfold mask_fill. rewrite E, shape_eqb_refl. reflexivity. Qed.

Lemma mask_set_run {A : Type} (a : ndarray A) (mask : ndarray bool)
    (vals : list A) :
  shape a = shape mask ->
  length vals = count_true (flat mask) ->
  mask_set a mask vals =
    Return (NDArray (shape a) (scatter (flat a) (flat mask) vals)).
Proof.
  intros E Hlen. unfold mask_set.
  rewrite E, shape_eqb_refl, Hlen, Nat.eqb_refl. reflexivity.
Qed.

(** A pixel of a well formed array, by row and column. *)
Lemma getitem2_flat {A : Type} (a : ndarray A) (r c : nat) (x : A) :
  getitem2 a r c = Return x <->
  (r < (shape a).1)%nat /\ (c < (shape a).2)%nat /\
  flat a !! (r * (shape a).2 + c)%nat = Some x.
Proof.
  unfold getitem2.
  destruct (Nat.ltb_spec r (shape a).1), (Nat.ltb_spec c (shape a).2); simpl;
    try (split; [discriminate | intros (? & ? & _); lia]).
  destruct (flat a !! _) as [y|].
  - split; [intros [= ->]; auto | intros (_ & _ & [= ->]); reflexivity].
  - split; [discriminate | intros (_ & _ & ?); discriminate].
Qed.

Lemma pixel_in_range (rows cols r c : nat) :
  (r < rows)%nat -> (c < cols)%nat -> (r * cols + c < rows * cols)%nat.
Proof. intros Hr Hc. nia. Qed.

Lemma getitem2_returns {A : Type} (a : ndarray A) (r c : nat) :
  wf_array a -> (r < (shape a).1)%nat -> (c < (shape a).2)%nat ->
  exists x, getitem2 a r c = Return x.
Proof.
  intros Hwf Hr Hc.
  destruct (lookup_lt_is_Some_2 (flat a) (r * (shape a).2 + c)) as [x Hx].
  { rewrite Hwf. apply pixel_in_range; assumption. }
  exists x. apply getitem2_flat. auto.
Qed.

(** ** The store *)

Section StoreFacts.
Context `{RandomNormal}.

Lemma bind_run {A B : Type} (m : M A) (f : A -> M B) (s s' : store) (a : A) :
  m s = Return (a, s') -> (m ≫= f) s = f a s'.
Proof. intros E. unfold mbind, M_bind. rewrite E. reflexivity. Qed.

Lemma load_run (h : gmap loc (ndarray Q)) (g : rng_state) (out : list message)
    (l : loc) (a : ndarray Q) :
  h !! l = Some a -> load l (Store h g out) = Return (a, Store h g out).
Proof. intros E. unfold load. simpl. rewrite E. reflexivity. Qed.

Lemma load_opt_run (h : gmap loc (ndarray Q)) (g : rng_state)
    (out : list message) (sig : option loc) :
  (forall l, sig = Some l -> is_Some (h !! l)) ->
  load_opt sig (Store h g out) = Return (sig ≫= (h !!.), Store h g out).
Proof.
  intros Hsig. destruct sig as [l|]; simpl; [|reflexivity].
  destruct (Hsig l eq_refl) as [a Ha].
  rewrite (bind_run _ _ _ _ _ (load_run h g out l a Ha)), Ha. reflexivity.
Qed.

Lemma lift_run {A : Type} (r : result A) (a : A) (s : store) :
  r = Return a -> lift r s = Return (a, s).
Proof. intros ->. reflexivity. Qed.

Lemma print_if_run (h : gmap loc (ndarray Q)) (g : rng_state)
    (out : list message) (verbose : bool) (msg : message) :
  print_if verbose msg (Store h g out) =
  Return (tt, Store h g (out ++ if verbose then [msg] else [])).
Proof. destruct verbose; simpl; [|rewrite app_nil_r]; reflexivity. Qed.

Lemma deepcopy_run (h : gmap loc (ndarray Q)) (g : rng_state)
    (out : list message) (l : loc) (a : ndarray Q) :
  h !! l = Some a ->
  deepcopy l (Store h g out) =
  Return (fresh (dom h), Store (<[fresh (dom h) := a]> h) g out).
Proof.
  intros E. unfold deepcopy.
  rewrite (bind_run _ _ _ _ _ (load_run h g out l a E)). reflexivity.
Qed.

Lemma setitem_mask_run (h : gmap loc (ndarray Q)) (g : rng_state)
    (out : list message) (l : loc) (a a' : ndarray Q) (mask : ndarray bool)
    (vals : list Q) :
  h !! l = Some a -> mask_set a mask vals = Return a' ->
  setitem_mask l mask vals (Store h g out) =
  Return (tt, Store (<[l := a']> h) g out).
Proof. intros E1 E2. unfold setitem_mask. simpl. rewrite E1, E2. reflexivity. Qed.

Lemma random_normal_run (h : gmap loc (ndarray Q)) (g : rng_state)
    (out : list message) (loc scale : normal_arg) (size : nat * nat) :
  random_normal loc scale size (Store h g out) =
  Return ((np_random_normal loc scale size g).1,
          Store h (np_random_normal loc scale size g).2 out).
Proof.
  unfold random_normal. simpl.
  destruct (np_random_normal loc scale size g). reflexivity.
Qed.

Lemma fresh_loc_unused (h : gmap loc (ndarray Q)) : h !! fresh (dom h) = None.
Proof. apply not_elem_of_dom, is_fresh. Qed.
End StoreFacts.

(** ** The image cleaner *)

Section ImageCleanUpFacts.
Context `{Sep} `{!SepLaws} `{RandomNormal} `{!RandomNormalLaws} `{Display}.

(** The flags [visual] and [diagnose] only choose what is handed back: a
    call is the call that returns the image with its bundle, followed by
    the packing of the answer. *)
Lemma image_clean_up_modes (img : positive) (sig : option positive)
    (bad : option (ndarray bool))
    (p1 : bkg_param) (d1 : det_param) (p2 : bkg_param) (d2 : det_param)
    (p3 : bkg_param) (d3 : det_param) (verbose visual diagnose : bool)
    (kwargs : plot_kwargs) (s : store) :
  image_clean_up img sig bad p1 d1 p2 d2 p3 d3 verbose visual diagnose kwargs s =
  match image_clean_up img sig bad p1 d1 p2 d2 p3 d3 verbose false true kwargs s
  with
  | Return (CleanDiagnose l ev, s') =>
      if diagnose then
        if visual then
          Return (CleanDiagnoseVisual l ev
                    (diagnose_image_clean (heap s') l ev kwargs), s')
        else Return (CleanDiagnose l ev, s')
      else Return (Clean l, s')
  | Return (r, s') => Return (r, s')
  | Raise e => Raise e
  end.
Proof.
  unfold image_clean_up, mbind, M_bind.
  repeat case_match; unfold mret, M_ret, render in *; simplify_eq/=;
    reflexivity.
Qed.

Lemma wf_zip_with {A B C : Type} (f : A -> B -> C) (a : ndarray A) (b : ndarray B) :
  wf_array a -> wf_array b -> shape a = shape b ->
  wf_array (NDArray (shape a) (zip_with f (flat a) (flat b))).
Proof.
  unfold wf_array. intros Ha Hb E. simpl. rewrite length_zip_with, Ha, Hb, E. lia.
Qed.

Lemma wf_arr_map {A B : Type} (f : A -> B) (a : ndarray A) :
  wf_array a -> wf_array (arr_map f a).
Proof. unfold wf_array, arr_map. simpl. rewrite length_map. auto. Qed.

Lemma wf_same_length {A B : Type} (a : ndarray A) (b : ndarray B) :
  wf_array a -> wf_array b -> shape a = shape b ->
  length (flat a) = length (flat b).
Proof. unfold wf_array. intros -> -> ->. reflexivity. Qed.

(** The assignment [sky_sig[sky_sig <= 0] = 1E-8]. *)
Lemma floor_rms_run (sky_sig : ndarray Q) :
  mask_fill sky_sig (arr_map (fun x => Qle_bool x 0) sky_sig) (1 # 100000000)
  = Return (floor_rms sky_sig).
Proof.
  rewrite mask_fill_run by reflexivity.
  unfold floor_rms, arr_map. cbn [flat shape]. rewrite zip_with_map_r.
  reflexivity.
Qed.

(** The run of the call that returns the bundle, along the calls to
    [sep] that [ev] records. *)
Lemma image_clean_up_diagnose_run (h : gmap positive (ndarray Q))
    (g : rng_state) (out : list message)
    (img : positive) (sig : option positive) (bad : option (ndarray bool))
    (p1 : bkg_param) (d1 : det_param) (p2 : bkg_param) (d2 : det_param)
    (p3 : bkg_param) (d3 : det_param) (verbose : bool) (kwargs : plot_kwargs)
    (img_v : ndarray Q) (ev : everything) :
  h !! img = Some img_v -> wf_array img_v ->
  (0 < (shape img_v).1)%nat -> (0 < (shape img_v).2)%nat ->
  (forall l, sig = Some l -> is_Some (h !! l)) ->
  sep_passes img img_v sig (sig ≫= (h !!.)) bad p1 d1 p2 d2 p3 d3 g ev ->
  exists l_clean h' g' out' clean cen,
    image_clean_up img sig bad p1 d1 p2 d2 p3 d3 verbose false true kwargs
      (Store h g out) = Return (CleanDiagnose l_clean ev, Store h' g' out') /\
    clean_run h g img sig img_v verbose l_clean ev h' g' out' clean cen.
Proof.
  intros Himg Hwf Hrows Hcols Hsig Hpass.
  destruct ev as [ei es bkg_1 obj_1 seg_1 bkg_2 obj_2 seg_2 bkg_3 obj_3 seg_3
                    noise].
  destruct Hpass as [[Hei Hes] Hb1 (img_sub & Hsub & Hd1) Hb2 Hd2 Hb3 Hnoise Hd3].
  cbn [ev_img ev_sig ev_bkg_1 ev_obj_1 ev_seg_1 ev_bkg_2 ev_obj_2 ev_seg_2
       ev_bkg_3 ev_obj_3 ev_seg_3 ev_noise] in *.
  subst ei es.
  remember (image_clean_up img sig bad p1 d1 p2 d2 p3 d3 verbose false true
              kwargs (Store h g out)) as R eqn:Hrun.
  unfold image_clean_up in Hrun.
  rewrite (bind_run _ _ _ _ _ (load_run h g out img img_v Himg)) in Hrun.
  rewrite (bind_run _ _ _ _ _ (load_opt_run h g out sig Hsig)) in Hrun.
  set (sig_v := sig ≫= (h !!.)) in *.
  (* pass 1 *)
  rewrite (bind_run _ _ _ _ _ (lift_run _ _ _ Hb1)) in Hrun.
  destruct (back_shape _ _ _ _ _ _ _ _ Hwf Hb1) as [Sb1 Wb1].
  rewrite (bind_run _ _ _ _ _ (print_if_run _ _ _ _ _)) in Hrun.
  rewrite (bind_run _ _ _ _ _ (lift_run _ _ _ Hsub)) in Hrun.
  assert (Wsub : wf_array img_sub /\ shape img_sub = shape img_v).
  { rewrite (arr_zip_with_run Qminus img_v _ (eq_sym Sb1)) in Hsub.
    apply Return_inj in Hsub. subst img_sub.
    split; [apply wf_zip_with; [assumption|assumption|congruence]|reflexivity]. }
  destruct Wsub as [Wsub Ssub].
  rewrite (bind_run _ _ _ _ _ (lift_run _ _ _ Hd1)) in Hrun.
  cbv beta iota in Hrun.
  destruct (segmap_shape _ _ _ _ _ _ _ _ Wsub Hd1) as [S1 W1].
  rewrite Ssub in S1.
  rewrite (bind_run _ _ _ _ _ (print_if_run _ _ _ _ _)) in Hrun.
  (* pass 2 *)
  rewrite (bind_run _ _ _ _ _ (lift_run _ _ _ Hb2)) in Hrun.
  rewrite (bind_run _ _ _ _ _ (lift_run _ _ _ Hd2)) in Hrun.
  cbv beta iota in Hrun.
  destruct (segmap_shape _ _ _ _ _ _ _ _ Hwf Hd2) as [S2 W2].
  rewrite (bind_run _ _ _ _ _ (print_if_run _ _ _ _ _)) in Hrun.
  rewrite (bind_run _ _ _ _ _ (lift_run _ _ _ Hb3)) in Hrun.
  rewrite (bind_run _ _ _ _ _ (print_if_run _ _ _ _ _)) in Hrun.
  match type of Hrun with context [Store h g ?o] => set (out1 := o) in Hrun end.
  (* the noise image *)
  destruct (rms_shape _ _ _ _ _ _ _ _ Hwf Hb3) as [Sr3 Wr3].
  set (noise_g := draw_noise sig bkg_3 (shape img_v) g) in *.
  rewrite (bind_run _ _ _ (Store h noise_g.2 out1) noise_g.1) in Hrun.
  2:{ unfold noise_g, draw_noise. destruct sig as [l|].
      - rewrite (bind_run _ _ _ _ _ (lift_run _ _ _ (floor_rms_run (rms bkg_3)))).
        apply random_normal_run.
      - apply random_normal_run. }
  assert (Sn : shape noise_g.1 = shape img_v /\ wf_array noise_g.1).
  { unfold noise_g, draw_noise. destruct sig; apply normal_shape. }
  destruct Sn as [Sn Wn]. rewrite <- Hnoise in Hrun, Sn, Wn.
  (* the image with the detections of pass 2 replaced *)
  rewrite (bind_run _ _ _ _ _ (deepcopy_run h _ out1 img img_v Himg)) in Hrun.
  set (l_nr := fresh (dom h)) in *.
  assert (Fnr : h !! l_nr = None) by apply fresh_loc_unused.
  set (detected_2 := arr_map (fun v => Z.ltb 0 v) seg_2) in *.
  assert (Sd2 : shape noise = shape detected_2) by (rewrite Sn, <- S2; reflexivity).
  rewrite (bind_run _ _ _ _ _ (lift_run _ _ _ (mask_get_run noise detected_2 Sd2)))
    in Hrun.
  assert (Ln : length (flat noise) = length (flat img_v))
    by (apply wf_same_length; assumption).
  assert (L2 : length (flat seg_2) = length (flat img_v))
    by (apply wf_same_length; assumption).
  assert (L1 : length (flat seg_1) = length (flat img_v))
    by (apply wf_same_length; assumption).
  assert (Hset2 : mask_set img_v detected_2 (select (flat detected_2) (flat noise))
                  = Return (noise_replaced img_v seg_2 noise)).
  { apply mask_set_run; [rewrite <- S2; reflexivity|].
    apply length_select. unfold detected_2. simpl. rewrite length_map. lia. }
  rewrite (bind_run _ _ _ _ _
             (setitem_mask_run _ _ out1 l_nr _ _ _ _ (lookup_insert_eq _ _ _) Hset2))
    in Hrun.
  set (img_nr := noise_replaced img_v seg_2 noise) in *.
  rewrite insert_insert_eq in Hrun.
  rewrite (bind_run _ _ _ _ _ (load_run _ _ out1 l_nr img_nr (lookup_insert_eq _ _ _)))
    in Hrun.
  assert (Wnr : wf_array img_nr).
  { unfold wf_array, img_nr, noise_replaced. simpl.
    rewrite length_scatter. exact Hwf. }
  (* pass 3 *)
  rewrite (bind_run _ _ _ _ _ (lift_run _ _ _ Hd3)) in Hrun.
  cbv beta iota in Hrun.
  destruct (segmap_shape _ _ _ _ _ _ _ _ Wnr Hd3) as [S3 W3].
  change (shape img_nr) with (shape img_v) in S3.
  rewrite (bind_run _ _ _ _ _ (print_if_run _ _ _ _ _)) in Hrun.
  match type of Hrun with context [Store _ _ ?o] => set (out2 := o) in Hrun end.
  assert (L3 : length (flat seg_3) = length (flat img_v))
    by (apply wf_same_length; assumption).
  (* the combined map and the central object *)
  assert (S23 : shape seg_2 = shape seg_3) by congruence.
  rewrite (bind_run _ _ _ _ _ (lift_run _ _ _ (arr_zip_with_run add_int32 _ _ S23)))
    in Hrun.
  set (seg_comb := NDArray (shape seg_2)
                     (zip_with add_int32 (flat seg_2) (flat seg_3))) in *.
  destruct (getitem2_returns seg_1 (centre seg_1).1 (centre seg_1).2 W1)
    as [cen Hcen].
  { unfold centre. cbn [fst snd]. rewrite S1. apply Nat.div_lt; lia. }
  { unfold centre. cbn [fst snd]. rewrite S1. apply Nat.div_lt; lia. }
  set (cen_mask := arr_map (fun v => Z.eqb v cen) seg_1).
  set (obj_cen_mask := if Z.eqb cen 0 then None else Some cen_mask).
  assert (Hcm : seg_index_cen_obj seg_1 = Return obj_cen_mask).
  { unfold seg_index_cen_obj. rewrite Hcen. simpl.
    unfold obj_cen_mask. destruct (Z.eqb cen 0); reflexivity. }
  rewrite (bind_run _ _ _ _ _ (lift_run _ _ _ Hcm)) in Hrun.
  assert (Hpr : forall hh gg oo,
            match obj_cen_mask with
            | Some mask =>
                print_if verbose (MsgCentralObject (count_true (flat mask)))
            | None => print_if verbose MsgCentralNotDetected
            end (Store hh gg oo) =
            Return (tt, Store hh gg
                          (oo ++ if verbose then [central_message seg_1 cen]
                                 else []))).
  { intros hh gg oo. unfold obj_cen_mask, central_message.
    destruct (Z.eqb cen 0); apply print_if_run. }
  rewrite (bind_run _ _ _ _ _ (Hpr _ _ _)) in Hrun.
  set (seg_final :=
         match obj_cen_mask with
         | Some mask => NDArray (shape seg_comb)
                          (zip_with (fun x (b : bool) => if b then 0%Z else x)
                             (flat seg_comb) (flat mask))
         | None => seg_comb
         end).
  assert (Hsf : forall st,
            match obj_cen_mask with
            | Some mask => lift (mask_fill seg_comb mask 0%Z)
            | None => mret seg_comb
            end st = Return (seg_final, st)).
  { intros st. unfold seg_final, obj_cen_mask.
    destruct (Z.eqb cen 0); [reflexivity|].
    apply lift_run, mask_fill_run. simpl. congruence. }
  rewrite (bind_run _ _ _ _ _ (Hsf _)) in Hrun.
  assert (Ssf : shape seg_final = shape img_v).
  { unfold seg_final, obj_cen_mask. destruct (Z.eqb cen 0); exact S2. }
  assert (Lsf : length (flat seg_final) = length (flat img_v)).
  { unfold seg_final, obj_cen_mask.
    destruct (Z.eqb cen 0); simpl; rewrite ?length_zip_with, ?length_map; lia. }
  (* the cleaned image *)
  assert (Himg1 : <[l_nr := img_nr]> h !! img = Some img_v).
  { rewrite lookup_insert_ne; [exact Himg | congruence]. }
  rewrite (bind_run _ _ _ _ _ (deepcopy_run _ _ _ img img_v Himg1)) in Hrun.
  set (l_clean := fresh (dom (<[l_nr := img_nr]> h))) in *.
  assert (Fcl : <[l_nr := img_nr]> h !! l_clean = None) by apply fresh_loc_unused.
  set (flagged := arr_map (fun v => Z.ltb 0 v) seg_final) in *.
  assert (Sfl : shape noise = shape flagged) by (rewrite Sn, <- Ssf; reflexivity).
  rewrite (bind_run _ _ _ _ _ (lift_run _ _ _ (mask_get_run noise flagged Sfl)))
    in Hrun.
  assert (Hset : mask_set img_v flagged (select (flat flagged) (flat noise))
                 = Return (NDArray (shape img_v)
                             (scatter (flat img_v) (flat flagged)
                                (select (flat flagged) (flat noise))))).
  { apply mask_set_run; [rewrite <- Ssf; reflexivity|].
    apply length_select. unfold flagged. simpl. rewrite length_map. lia. }
  rewrite (bind_run _ _ _ _ _
             (setitem_mask_run _ _ _ l_clean _ _ _ _ (lookup_insert_eq _ _ _) Hset))
    in Hrun.
  match type of Hset with _ = Return ?a => set (clean := a) in * end.
  rewrite insert_insert_eq in Hrun.
  assert (Nnr : l_clean <> l_nr).
  { intros E. rewrite E, lookup_insert_eq in Fcl. discriminate. }
  assert (Fcl' : h !! l_clean = None).
  { rewrite lookup_insert_ne in Fcl by congruence. exact Fcl. }
  subst R. eexists l_clean, _, _, _, clean, cen.
  split; [reflexivity|]. constructor; cbn [ev_seg_1 ev_seg_2
    ev_seg_3 ev_bkg_3 ev_noise].
  - intros l a Hl. rewrite !lookup_insert_ne by congruence. exact Hl.
  - exact Fcl'.
  - apply lookup_insert_eq.
  - split; [reflexivity|]. unfold wf_array, clean. simpl.
    rewrite length_scatter. exact Hwf.
  - repeat split; assumption.
  - reflexivity.
  - exact Hcen.
  - exists out2. reflexivity.
  - intros k x Hx. pose proof (lookup_lt_Some _ _ _ Hx) as Hk.
    destruct (lookup_lt_is_Some_2 (flat noise) k) as [n Hn]; [lia|].
    destruct (lookup_lt_is_Some_2 (flat seg_1) k) as [v1 Hv1]; [lia|].
    destruct (lookup_lt_is_Some_2 (flat seg_2) k) as [v2 Hv2]; [lia|].
    destruct (lookup_lt_is_Some_2 (flat seg_3) k) as [v3 Hv3]; [lia|].
    exists n, v1, v2, v3. repeat (split; [assumption|]).
    unfold clean. simpl.
    apply scatter_select_lookup; [exact Ln | exact Hx | exact Hn |].
    unfold flagged, seg_final, obj_cen_mask, flagged_pixel, seg_comb, cen_mask.
    destruct (Z.eqb cen 0); simpl;
      rewrite lookup_map, ?lookup_zip_with, ?lookup_map, Hv2, Hv3, ?Hv1; simpl.
    + rewrite andb_true_r. reflexivity.
    + destruct (Z.eqb v1 cen); simpl;
        [rewrite andb_false_r | rewrite andb_true_r]; reflexivity.
Qed.

(** A sigma map of another shape than the image stops the run at the
    first detection, once the first background is there. *)
Lemma image_clean_up_sigma_shape (h : gmap positive (ndarray Q))
    (g : rng_state) (out : list message)
    (img l_sig : positive) (bad : option (ndarray bool))
    (p1 : bkg_param) (d1 : det_param) (p2 : bkg_param) (d2 : det_param)
    (p3 : bkg_param) (d3 : det_param) (verbose visual diagnose : bool)
    (kwargs : plot_kwargs) (img_v sig_v : ndarray Q) (bkg_1 : background) :
  h !! img = Some img_v -> wf_array img_v ->
  h !! l_sig = Some sig_v -> shape sig_v <> shape img_v ->
  sep_Background img_v (BoolMask <$> bad) 0 (bw p1) (bh p1) (fw p1) (fh p1)
    = Return bkg_1 ->
  image_clean_up img (Some l_sig) bad p1 d1 p2 d2 p3 d3 verbose visual diagnose
    kwargs (Store h g out) = Raise ValueError.
Proof.
  intros Himg Hwf Hsig Hshape Hb1.
  unfold image_clean_up.
  rewrite (bind_run _ _ _ _ _ (load_run h g out img img_v Himg)).
  rewrite (bind_run _ _ _ (Store h g out) (Some sig_v)).
  2:{ cbn [load_opt].
      rewrite (bind_run _ _ _ _ _ (load_run h g out l_sig sig_v Hsig)).
      reflexivity. }
  rewrite (bind_run _ _ _ _ _ (lift_run _ _ _ Hb1)).
  destruct (back_shape _ _ _ _ _ _ _ _ Hwf Hb1) as [Sb1 Wb1].
  rewrite (bind_run _ _ _ _ _ (print_if_run _ _ _ _ _)).
  rewrite (bind_run _ _ _ _ _
             (lift_run _ _ _ (arr_zip_with_run Qminus img_v _ (eq_sym Sb1)))).
  unfold mbind at 1, M_bind at 1. unfold lift at 1.
  rewrite err_shape by exact Hshape. reflexivity.
Qed.
End ImageCleanUpFacts.

Section ImageCleanUpTheorems.
Context `{Sep} `{!SepLaws} `{RandomNormal} `{!RandomNormalLaws} `{Display}.

(** Whatever the flags, the image returned and the final store are those
    of the call that also returns the bundle. *)
Lemma image_clean_up_returns (h : gmap positive (ndarray Q)) (g : rng_state)
    (out : list message) (img : positive) (sig : option positive)
    (bad : option (ndarray bool))
    (p1 : bkg_param) (d1 : det_param) (p2 : bkg_param) (d2 : det_param)
    (p3 : bkg_param) (d3 : det_param) (verbose visual diagnose : bool)
    (kwargs : plot_kwargs) (img_v : ndarray Q) (ev : everything) :
  h !! img = Some img_v -> wf_array img_v ->
  (0 < (shape img_v).1)%nat -> (0 < (shape img_v).2)%nat ->
  (forall l, sig = Some l -> is_Some (h !! l)) ->
  sep_passes img img_v sig (sig ≫= (h !!.)) bad p1 d1 p2 d2 p3 d3 g ev ->
  exists r h' g' out' clean cen,
    image_clean_up img sig bad p1 d1 p2 d2 p3 d3 verbose visual diagnose
      kwargs (Store h g out) = Return (r, Store h' g' out') /\
    (diagnose = true -> diagnostics_of r = Some ev) /\
    clean_run h g img sig img_v verbose (img_clean_of r) ev h' g' out' clean cen.
Proof.
  intros Himg Hwf Hrows Hcols Hsig Hpass.
  destruct (image_clean_up_diagnose_run h g out img sig bad p1 d1 p2 d2 p3 d3
              verbose kwargs img_v ev Himg Hwf Hrows Hcols Hsig Hpass)
    as (l & h' & g' & out' & clean & cen & Hrun & Hfacts).
  destruct diagnose, visual; eexists _, h', g', out', clean, cen;
    (split; [rewrite image_clean_up_modes, Hrun; reflexivity|]);
    (split; [|exact Hfacts]); first [reflexivity | discriminate].
Qed.

(** Pixels by row and column, from pixels by position. *)
Lemma getitem2_same_shape {A B : Type} (a : ndarray A) (b : ndarray B)
    (i j : nat) (x : A) (y : B) :
  shape b = shape a ->
  getitem2 a i j = Return x ->
  flat b !! (i * (shape a).2 + j)%nat = Some y ->
  getitem2 b i j = Return y.
Proof.
  intros E Ha Hb. apply getitem2_flat in Ha. destruct Ha as (Hi & Hj & _).
  apply getitem2_flat. rewrite E. auto.
Qed.

(** C3.  Let the calls to [sep] of the run return what [ev] holds (the
    maps [seg_1], [seg_2], [seg_3] of the three passes among it) and let
    the noise image of [ev] be the one drawn.  Then the call returns, with
    [ev] as its bundle when it is asked for, and the image returned is a
    new array of the shape of the input.  A pixel of it holds the noise
    value of that pixel when the pixel is flagged in the combined
    segmentation map ([seg_2 + seg_3] positive) and does not belong to the
    central object of pass 1, and the value of the input otherwise.  The
    input array, like every array of the caller, is as it was. *)
Theorem image_clean_up_replaces_flagged (h : gmap positive (ndarray Q))
    (g : rng_state) (out : list message) (img : positive)
    (sig : option positive) (bad : option (ndarray bool))
    (p1 : bkg_param) (d1 : det_param) (p2 : bkg_param) (d2 : det_param)
    (p3 : bkg_param) (d3 : det_param) (verbose visual diagnose : bool)
    (kwargs : plot_kwargs) (img_v : ndarray Q) (ev : everything) :
  h !! img = Some img_v -> wf_array img_v ->
  (0 < (shape img_v).1)%nat -> (0 < (shape img_v).2)%nat ->
  (forall l, sig = Some l -> is_Some (h !! l)) ->
  sep_passes img img_v sig (sig ≫= (h !!.)) bad p1 d1 p2 d2 p3 d3 g ev ->
  exists r h' g' out' clean cen,
    image_clean_up img sig bad p1 d1 p2 d2 p3 d3 verbose visual diagnose
      kwargs (Store h g out) = Return (r, Store h' g' out') /\
    (diagnose = true -> diagnostics_of r = Some ev) /\
    (forall l a, h !! l = Some a -> h' !! l = Some a) /\
    h' !! img = Some img_v /\
    h !! img_clean_of r = None /\
    h' !! img_clean_of r = Some clean /\
    shape clean = shape img_v /\
    getitem2 (ev_seg_1 ev) (centre (ev_seg_1 ev)).1 (centre (ev_seg_1 ev)).2
      = Return cen /\
    forall i j x, getitem2 img_v i j = Return x ->
      exists n v1 v2 v3,
        getitem2 (ev_noise ev) i j = Return n /\
        getitem2 (ev_seg_1 ev) i j = Return v1 /\
        getitem2 (ev_seg_2 ev) i j = Return v2 /\
        getitem2 (ev_seg_3 ev) i j = Return v3 /\
        getitem2 clean i j =
          Return (if flagged_pixel cen v1 v2 v3 then n else x).
Proof.
  intros Himg Hwf Hrows Hcols Hsig Hpass.
  destruct (image_clean_up_returns h g out img sig bad p1 d1 p2 d2 p3 d3
              verbose visual diagnose kwargs img_v ev Himg Hwf Hrows Hcols
              Hsig Hpass)
    as (r & h' & g' & out' & clean & cen & Hrun & Hev & Hfacts).
  destruct Hfacts as [Hframe Hfresh Hclean [Hshape _] (S1 & S2 & S3 & Sn)
                        _ Hcen _ Hpix].
  exists r, h', g', out', clean, cen.
  repeat (split; [first [assumption | apply Hframe; assumption]|]).
  intros i j x Hx.
  pose proof Hx as Hflat. apply getitem2_flat in Hflat.
  destruct Hflat as (_ & _ & Hflat).
  destruct (Hpix _ _ Hflat) as (n & v1 & v2 & v3 & Hn & H1' & H2' & H3' & Hc).
  exists n, v1, v2, v3.
  repeat split; eapply getitem2_same_shape; eassumption.
Qed.
End ImageCleanUpTheorems.

Section ImageCleanUpNoise.
Context `{Sep} `{!SepLaws} `{RandomNormal} `{!RandomNormalLaws} `{Display}.


(** C5.  Let the calls to [sep] of the run return what [ev] holds.  Then
    the call returns; the lookup of the central object gives [None]
    exactly when pass 1 has the label 0 at the centre pixel, and the line
    printed last says what it gave.  When the label is 0 the combined map
    is used as it is: every pixel with [seg_2 + seg_3] positive, the
    centre pixel included, takes its noise value and every other pixel
    keeps the value of the input. *)
Theorem image_clean_up_no_central_object (h : gmap positive (ndarray Q))
    (g : rng_state) (out : list message) (img : positive)
    (sig : option positive) (bad : option (ndarray bool))
    (p1 : bkg_param) (d1 : det_param) (p2 : bkg_param) (d2 : det_param)
    (p3 : bkg_param) (d3 : det_param) (verbose visual diagnose : bool)
    (kwargs : plot_kwargs) (img_v : ndarray Q) (ev : everything) :
  h !! img = Some img_v -> wf_array img_v ->
  (0 < (shape img_v).1)%nat -> (0 < (shape img_v).2)%nat ->
  (forall l, sig = Some l -> is_Some (h !! l)) ->
  sep_passes img img_v sig (sig ≫= (h !!.)) bad p1 d1 p2 d2 p3 d3 g ev ->
  exists r h' g' out' clean cen,
    image_clean_up img sig bad p1 d1 p2 d2 p3 d3 verbose visual diagnose
      kwargs (Store h g out) = Return (r, Store h' g' out') /\
    (diagnose = true -> diagnostics_of r = Some ev) /\
    h' !! img_clean_of r = Some clean /\
    getitem2 (ev_seg_1 ev) ((shape img_v).1 / 2) ((shape img_v).2 / 2)
      = Return cen /\
    seg_index_cen_obj (ev_seg_1 ev) =
      Return (if Z.eqb cen 0 then None
              else Some (arr_map (fun v => Z.eqb v cen) (ev_seg_1 ev))) /\
    (verbose = true ->
     last out' = Some (if Z.eqb cen 0 then MsgCentralNotDetected
                       else MsgCentralObject
                              (count_true
                                 (flat (arr_map (fun v => Z.eqb v cen)
                                                (ev_seg_1 ev)))))) /\
    (cen = 0%Z ->
     forall i j x, getitem2 img_v i j = Return x ->
       exists n v2 v3,
         getitem2 (ev_noise ev) i j = Return n /\
         getitem2 (ev_seg_2 ev) i j = Return v2 /\
         getitem2 (ev_seg_3 ev) i j = Return v3 /\
         getitem2 clean i j =
           Return (if Z.ltb 0 (add_int32 v2 v3) then n else x)).
Proof.
  intros Himg Hwf Hrows Hcols Hsig Hpass.
  destruct (image_clean_up_returns h g out img sig bad p1 d1 p2 d2 p3 d3
              verbose visual diagnose kwargs img_v ev Himg Hwf Hrows Hcols
              Hsig Hpass)
    as (r & h' & g' & out' & clean & cen & Hrun & Hev & Hfacts).
  destruct Hfacts as [_ _ Hclean [Hshape _] (S1 & S2 & S3 & Sn)
                        _ Hcen [pre Hout] Hpix].
  exists r, h', g', out', clean, cen.
  split; [exact Hrun|]. split; [exact Hev|]. split; [exact Hclean|].
  pose proof Hcen as Hcen'. unfold centre in Hcen'. rewrite S1 in Hcen'.
  cbn [fst snd] in Hcen'.
  split; [exact Hcen'|]. split; [|split].
  - unfold seg_index_cen_obj. rewrite Hcen.
    cbn [mbind result_bind]. unfold mbind, result_bind.
    destruct (Z.eqb cen 0); reflexivity.
  - intros ->. rewrite Hout. rewrite last_snoc. reflexivity.
  - intros -> i j x Hx.
    pose proof Hx as Hflat. apply getitem2_flat in Hflat.
    destruct Hflat as (_ & _ & Hflat).
    destruct (Hpix _ _ Hflat) as (n & v1 & v2 & v3 & Hn & H1' & H2' & H3' & Hc).
    exists n, v2, v3.
    unfold flagged_pixel in Hc. simpl in Hc. rewrite andb_true_r in Hc.
    repeat split; eapply getitem2_same_shape; eassumption.
Qed.
End ImageCleanUpNoise.

(** ** The concrete collaborators keep the laws *)

#[local] Instance plain_sep_laws : @SepLaws plain_sep.
Proof.
  assert (Hbkg : forall img mask mt bw bh fw fh b,
            mean_background img mask mt bw bh fw fh = Return b ->
            shape (back b) = shape img /\ shape (rms b) = shape img /\
            length (flat (back b)) = length (flat img) /\
            length (flat (rms b)) = length (flat img) /\
            (0 < globalrms b)%Q).
  { intros img mask mt bw bh fw fh b Hb. unfold mean_background in Hb.
    destruct (match mask with
              | Some m => if shape_eqb (mask_shape m) (shape img)
                          then Return tt else Raise ValueError
              | None => Return tt
              end) as [[]|e]; [|discriminate].
    cbn [mbind result_bind] in Hb. unfold mbind, result_bind in Hb.
    cbv zeta in Hb. apply Return_inj in Hb. subst b.
    cbn [back rms globalrms arr_map shape flat]. rewrite !length_map.
    repeat split.
    match goal with |- (0 < if Qle_bool ?n 0 then _ else _)%Q =>
      destruct (Qle_bool n 0) eqn:E; [reflexivity|];
      apply Qnot_le_lt; intros Hle; apply Qle_bool_iff in Hle; congruence
    end. }
  split.
  - intros img mask mt bw bh fw fh b Hwf Hb.
    destruct (Hbkg img mask mt bw bh fw fh b Hb) as (S1 & _ & L1 & _).
    split; [exact S1|]. unfold wf_array. rewrite L1, S1. exact Hwf.
  - intros img mask mt bw bh fw fh b Hwf Hb.
    destruct (Hbkg img mask mt bw bh fw fh b Hb) as (_ & S1 & _ & L1 & _).
    split; [exact S1|]. unfold wf_array. rewrite L1, S1. exact Hwf.
  - intros img mask mt bw bh fw fh b Hb.
    apply (Hbkg img mask mt bw bh fw fh b Hb).
  - intros data thresh err minarea dn dc objs seg Hwf Hd.
    cbn [sep_extract plain_sep] in Hd. unfold threshold_extract in Hd.
    destruct (match err with
              | Some e => if shape_eqb (shape e) (shape data)
                          then Return tt else Raise ValueError
              | None => Return tt
              end) as [[]|e]; [|discriminate].
    cbn [mbind result_bind] in Hd. unfold mbind, result_bind in Hd.
    cbv zeta in Hd. apply Return_inj in Hd. injection Hd as _ <-.
    split; [reflexivity|].
    unfold wf_array. simpl. rewrite length_imap. exact Hwf.
  - intros data thresh e minarea dn dc Hshape.
    cbn [sep_extract plain_sep]. unfold threshold_extract.
    destruct (shape_eqb (shape e) (shape data)) eqn:E; [|reflexivity].
    apply shape_eqb_eq in E. congruence.
Qed.

#[local] Instance counter_sampler_laws : @RandomNormalLaws counter_sampler.
Proof.
  split. intros loc scale size g. split; [reflexivity|].
  unfold wf_array. simpl. rewrite length_map, length_seq. reflexivity.
Qed.

(** ** The image cleaner on the 3 x 3 images *)

Lemma caller_store (img_v : ndarray Q) :
  ({[ 1%positive := img_v; 2%positive := sig_one ]} : gmap positive (ndarray Q))
    !! 1%positive = Some img_v /\
  forall l, Some 2%positive = Some l ->
    is_Some (({[ 1%positive := img_v; 2%positive := sig_one ]}
                : gmap positive (ndarray Q)) !! l).
Proof.
  split; [reflexivity|]. intros l [= <-]. exists sig_one. reflexivity.
Defined.

Lemma passes_centred :
  @sep_passes plain_sep counter_sampler
     1%positive img_centred (Some 2%positive) (Some sig_one) None
     bkg_param_1_default det_param_1_default
     bkg_param_2_default det_param_2_default
     bkg_param_3_default det_param_3_default 7%Z ev_centred.
Proof.
  constructor.
  - split; reflexivity.
  - vm_compute. reflexivity.
  - eexists. split; [vm_compute; reflexivity|]. vm_compute. reflexivity.
  - vm_compute. reflexivity.
  - vm_compute. reflexivity.
  - vm_compute. reflexivity.
  - vm_compute. reflexivity.
  - vm_compute. reflexivity.
Defined.


Lemma passes_source :
  @sep_passes plain_sep counter_sampler
     1%positive img_source None None None
     bkg_param_1_default det_param_1_default
     bkg_param_2_default det_param_2_default
     bkg_param_3_default det_param_3_default 7%Z ev_source.
Proof.
  constructor.
  - split; reflexivity.
  - vm_compute. reflexivity.
  - eexists. split; [vm_compute; reflexivity|]. vm_compute. reflexivity.
  - vm_compute. reflexivity.
  - vm_compute. reflexivity.
  - vm_compute. reflexivity.
  - vm_compute. reflexivity.
  - vm_compute. reflexivity.
Defined.

Lemma image_clean_up_replaces_flagged_witness :
  @sep_passes plain_sep counter_sampler
     1%positive img_centred (Some 2%positive) (Some sig_one) None
     bkg_param_1_default det_param_1_default
     bkg_param_2_default det_param_2_default
     bkg_param_3_default det_param_3_default 7%Z ev_centred /\
  exists r h' g' out' clean cen,
    @image_clean_up plain_sep counter_sampler no_display
       1%positive (Some 2%positive) None
       bkg_param_1_default det_param_1_default
       bkg_param_2_default det_param_2_default
       bkg_param_3_default det_param_3_default
       true false true tt (store_of img_centred)
      = Return (r, Store h' g' out') /\
    (true = true -> diagnostics_of r = Some ev_centred) /\
    (forall l a, heap (store_of img_centred) !! l = Some a ->
                 h' !! l = Some a) /\
    h' !! 1%positive = Some img_centred /\
    heap (store_of img_centred) !! img_clean_of r = None /\
    h' !! img_clean_of r = Some clean /\
    shape clean = (3, 3)%nat /\
    getitem2 (ev_seg_1 ev_centred) 1 1 = Return cen /\
    forall i j x, getitem2 img_centred i j = Return x ->
      exists n v1 v2 v3,
        getitem2 (ev_noise ev_centred) i j = Return n /\
        getitem2 (ev_seg_1 ev_centred) i j = Return v1 /\
        getitem2 (ev_seg_2 ev_centred) i j = Return v2 /\
        getitem2 (ev_seg_3 ev_centred) i j = Return v3 /\
        getitem2 clean i j =
          Return (if flagged_pixel cen v1 v2 v3 then n else x).
Proof.
  split; [exact passes_centred|].
  apply (@image_clean_up_replaces_flagged
           plain_sep plain_sep_laws counter_sampler counter_sampler_laws
           no_display
           {[ 1%positive := img_centred; 2%positive := sig_one ]} 7%Z []
           1%positive (Some 2%positive) None
           bkg_param_1_default det_param_1_default
           bkg_param_2_default det_param_2_default
           bkg_param_3_default det_param_3_default
           true false true tt img_centred ev_centred).
  - exact (proj1 (caller_store img_centred)).
  - reflexivity.
  - simpl. lia.
  - simpl. lia.
  - exact (proj2 (caller_store img_centred)).
  - exact passes_centred.
Defined.


Lemma image_clean_up_no_central_object_witness :
  @sep_passes plain_sep counter_sampler
     1%positive img_source None None None
     bkg_param_1_default det_param_1_default
     bkg_param_2_default det_param_2_default
     bkg_param_3_default det_param_3_default 7%Z ev_source /\
  exists r h' g' out' clean cen,
    @image_clean_up plain_sep counter_sampler no_display
       1%positive None None
       bkg_param_1_default det_param_1_default
       bkg_param_2_default det_param_2_default
       bkg_param_3_default det_param_3_default
       true false false tt (store_of img_source)
      = Return (r, Store h' g' out') /\
    (false = true -> diagnostics_of r = Some ev_source) /\
    h' !! img_clean_of r = Some clean /\
    getitem2 (ev_seg_1 ev_source) 1 1 = Return cen /\
    seg_index_cen_obj (ev_seg_1 ev_source) =
      Return (if Z.eqb cen 0 then None
              else Some (arr_map (fun v => Z.eqb v cen) (ev_seg_1 ev_source))) /\
    (true = true ->
     last out' = Some (if Z.eqb cen 0 then MsgCentralNotDetected
                       else MsgCentralObject
                              (count_true
                                 (flat (arr_map (fun v => Z.eqb v cen)
                                                (ev_seg_1 ev_source)))))) /\
    (cen = 0%Z ->
     forall i j x, getitem2 img_source i j = Return x ->
       exists n v2 v3,
         getitem2 (ev_noise ev_source) i j = Return n /\
         getitem2 (ev_seg_2 ev_source) i j = Return v2 /\
         getitem2 (ev_seg_3 ev_source) i j = Return v3 /\
         getitem2 clean i j =
           Return (if Z.ltb 0 (add_int32 v2 v3) then n else x)).
Proof.
  split; [exact passes_source|].
  apply (@image_clean_up_no_central_object
           plain_sep plain_sep_laws counter_sampler counter_sampler_laws
           no_display
           {[ 1%positive := img_source; 2%positive := sig_one ]} 7%Z []
           1%positive None None
           bkg_param_1_default det_param_1_default
           bkg_param_2_default det_param_2_default
           bkg_param_3_default det_param_3_default
           true false false tt img_source ev_source).
  - exact (proj1 (caller_store img_source)).
  - reflexivity.
  - simpl. lia.
  - simpl. lia.
  - intros l Hl. discriminate Hl.
  - exact passes_source.
Defined.

(** * Further properties *)

(** ** normalize_angle, further *)

Lemma Qabs_sum_pos (lower upper : Q) :
  (lower < upper)%Q -> (0 < Qabs lower + Qabs upper)%Q.
Proof.
  intros Hlt. pose proof (Qabs_nonneg lower) as Hl.
  pose proof (Qabs_nonneg upper) as Hu.
  destruct (Qlt_le_dec 0 (Qabs lower + Qabs upper)) as [|Hz]; [assumption|].
  assert (Hl0 : Qabs lower == 0) by lra.
  assert (Hu0 : Qabs upper == 0) by lra.
  pose proof (Qle_Qabs lower). pose proof (Qle_Qabs (- lower)).
  pose proof (Qle_Qabs upper). pose proof (Qle_Qabs (- upper)).
  rewrite Qabs_opp in *. lra.
Qed.

(** The limits are checked before anything else. *)
Lemma normalize_angle_limits_checked (num lower upper r : Q) :
  normalize_angle num lower upper false = Return r -> (lower < upper)%Q.
Proof.
  intros Hr. unfold normalize_angle in Hr. cbn [negb] in Hr.
  destruct (Qle_bool upper lower) eqn:E; [discriminate|].
  apply Qnot_le_lt. intros Hle. apply Qle_bool_iff in Hle. congruence.
Qed.

(** X1.  In the plain mode the call returns exactly when [lower < upper]:
    the limits are refused otherwise, and with valid limits the divisor of
    the two remainders is never zero. *)
Theorem normalize_angle_returns (num lower upper : Q) :
  returns (normalize_angle num lower upper false) <-> (lower < upper)%Q.
Proof.
  split.
  - intros [r Hr]. apply (normalize_angle_limits_checked num lower upper r Hr).
  - intros Hlt. unfold normalize_angle. cbn [negb].
    assert (Hguard : Qle_bool upper lower = false).
    { apply not_true_iff_false. rewrite Qle_bool_iff. lra. }
    rewrite Hguard.
    pose proof (Qabs_sum_pos lower upper Hlt) as HP.
    set (P := Qabs lower + Qabs upper) in *. clearbody P.
    destruct (py_mod_bounds (Qabs (num + upper)) P HP) as (m1 & Hm1 & _).
    destruct (Qltb upper num || Qeq_bool num lower).
    + rewrite Hm1. unfold mbind, result_bind.
      destruct (py_mod_bounds (Qabs (lower + m1 - lower)) P HP) as (m2 & Hm2 & _).
      destruct (Qltb (lower + m1) lower || Qeq_bool (lower + m1) upper).
      * rewrite Hm2. eexists. reflexivity.
      * eexists. reflexivity.
    + unfold mbind, result_bind.
      destruct (py_mod_bounds (Qabs (num - lower)) P HP) as (m2 & Hm2 & _).
      destruct (Qltb num lower || Qeq_bool num upper).
      * rewrite Hm2. eexists. reflexivity.
      * eexists. reflexivity.
Qed.

Lemma py_mod_form (a b : Q) :
  ~ b == 0 -> py_mod a b = Return (a - b * inject_Z (Qfloor (a / b)))%Q.
Proof.
  intros Hne. unfold py_mod. rewrite (proj2 (Qeq_bool_false b 0) Hne).
  reflexivity.
Qed.

(** Two numbers of [[0, b)] that differ by a multiple of [b] are equal. *)
Lemma remainder_unique (b r1 r2 : Q) (k : Z) :
  (0 < b)%Q -> (0 <= r1)%Q -> (r1 < b)%Q -> (0 <= r2)%Q -> (r2 < b)%Q ->
  r1 - r2 == b * inject_Z k -> r1 == r2.
Proof.
  intros Hb H1 H1' H2 H2' Hk.
  assert (Hlo : b * inject_Z (-1) < b * inject_Z k).
  { rewrite <- Hk. change (inject_Z (-1)) with (-1 # 1). lra. }
  assert (Hhi : b * inject_Z k < b * inject_Z 1).
  { rewrite <- Hk. change (inject_Z 1) with 1. lra. }
  apply Qmult_lt_l in Hlo; [|exact Hb]. apply Qmult_lt_l in Hhi; [|exact Hb].
  rewrite <- Zlt_Qlt in Hlo, Hhi.
  assert (k = 0%Z) by lia. subst k.
  change (inject_Z 0) with 0 in Hk. lra.
Qed.

Lemma normalize_angle_congruent (num upper : Q) :
  (0 < upper)%Q ->
  exists r k, normalize_angle num 0 upper false = Return r /\
              r == num + upper * inject_Z k.
Proof.
  intros Hu. unfold normalize_angle. cbn [negb].
  assert (Hguard : Qle_bool upper 0 = false).
  { apply not_true_iff_false. rewrite Qle_bool_iff. lra. }
  rewrite Hguard.
  assert (HP : Qabs 0 + Qabs upper == upper).
  { rewrite (Qabs_pos upper) by lra. change (Qabs 0) with 0. lra. }
  assert (HP0 : 0 < Qabs 0 + Qabs upper) by lra.
  assert (HPne : ~ Qabs 0 + Qabs upper == 0) by lra.
  set (P := Qabs 0 + Qabs upper) in *. clearbody P.
  destruct (Qltb upper num || Qeq_bool num 0) eqn:C1.
  - assert (Hnum : 0 <= num).
    { apply orb_true_iff in C1. destruct C1 as [C|C].
      - apply Qltb_lt in C. lra.
      - apply Qeq_bool_iff in C. lra. }
    destruct (py_mod_bounds (Qabs (num + upper)) P HP0) as (m1 & Hm1 & Hlo & Hhi).
    pose proof Hm1 as Hform. rewrite (py_mod_form _ _ HPne) in Hform.
    apply Return_inj in Hform.
    rewrite Hm1. unfold mbind, result_bind.
    assert (C2a : Qltb (0 + m1) 0 = false) by (apply Qltb_ge; lra).
    assert (C2b : Qeq_bool (0 + m1) upper = false)
      by (apply Qeq_bool_false; lra).
    rewrite C2a, C2b. cbn [orb]. rewrite C2b.
    set (f := Qfloor (Qabs (num + upper) / P)) in *.
    exists ((0 + m1) * 1), (1 - f)%Z. split; [reflexivity|].
    rewrite <- Hform, (Qabs_pos (num + upper)) by lra.
    unfold Z.sub at 1. rewrite inject_Z_plus, inject_Z_opp.
    change (inject_Z 1) with 1.
    assert (E : P * inject_Z f == upper * inject_Z f) by (rewrite HP; reflexivity).
    set (Pf := P * inject_Z f) in *. clearbody Pf.
    assert (E2 : upper * (1 + - inject_Z f) == upper - upper * inject_Z f) by ring.
    rewrite E2. set (uf := upper * inject_Z f) in *. clearbody uf. lra.
  - unfold mbind, result_bind.
    apply orb_false_iff in C1. destruct C1 as [C1a C1b].
    apply Qltb_ge in C1a. apply Qeq_bool_false in C1b.
    destruct (Qltb num 0 || Qeq_bool num upper) eqn:C2.
    + destruct (py_mod_bounds (Qabs (num - 0)) P HP0) as (m2 & Hm2 & Hlo & Hhi).
      pose proof Hm2 as Hform. rewrite (py_mod_form _ _ HPne) in Hform.
      apply Return_inj in Hform.
      rewrite Hm2. cbv beta iota.
      set (f := Qfloor (Qabs (num - 0) / P)) in *.
      assert (E : P * inject_Z f == upper * inject_Z f) by (rewrite HP; reflexivity).
      assert (Habs : Qabs (num - 0) == - num \/ Qabs (num - 0) == num /\ num == upper).
      { apply orb_true_iff in C2. destruct C2 as [C|C].
        - apply Qltb_lt in C. left. rewrite Qabs_neg by lra. ring.
        - apply Qeq_bool_iff in C. right. split; [|exact C].
          rewrite Qabs_pos by lra. ring. }
      destruct (Qeq_bool (upper - m2) upper) eqn:C3.
      * apply Qeq_bool_iff in C3.
        destruct Habs as [Ha | [Ha Hup]].
        -- exists (0 * 1), f. split; [reflexivity|].
           rewrite <- Hform, Ha in C3.
           set (Pf := P * inject_Z f) in *. clearbody Pf.
           set (uf := upper * inject_Z f) in *. clearbody uf. lra.
        -- exists (0 * 1), (f - 2)%Z. split; [reflexivity|].
           rewrite <- Hform, Ha in C3.
           unfold Z.sub. rewrite inject_Z_plus.
           change (inject_Z (- (2))) with (- 2 # 1).
           assert (E2 : upper * (inject_Z f + (-2 # 1))
                        == upper * inject_Z f - 2 * upper) by ring.
           rewrite E2.
           set (Pf := P * inject_Z f) in *. clearbody Pf.
           set (uf := upper * inject_Z f) in *. clearbody uf. lra.
      * destruct Habs as [Ha | [Ha Hup]].
        -- exists ((upper - m2) * 1), (1 + f)%Z. split; [reflexivity|].
           rewrite <- Hform, Ha, inject_Z_plus.
           change (inject_Z 1) with 1.
           assert (E2 : upper * (1 + inject_Z f)
                        == upper + upper * inject_Z f) by ring.
           rewrite E2.
           set (Pf := P * inject_Z f) in *. clearbody Pf.
           set (uf := upper * inject_Z f) in *. clearbody uf. lra.
        -- exists ((upper - m2) * 1), (f - 1)%Z. split; [reflexivity|].
           rewrite <- Hform, Ha. unfold Z.sub. rewrite inject_Z_plus.
           change (inject_Z (- (1))) with (- 1 # 1).
           assert (E2 : upper * (inject_Z f + (-1 # 1))
                        == upper * inject_Z f - upper) by ring.
           rewrite E2.
           set (Pf := P * inject_Z f) in *. clearbody Pf.
           set (uf := upper * inject_Z f) in *. clearbody uf. lra.
    + apply orb_false_iff in C2. destruct C2 as [C2a C2b].
      rewrite C2b. exists (num * 1), 0%Z. split; [reflexivity|].
      change (inject_Z 0) with 0. ring.
Qed.

(** For a range [[0, upper)] the plain mode is the exact remainder. *)
Lemma normalize_angle_remainder (num upper : Q) :
  (0 < upper)%Q ->
  exists r m, normalize_angle num 0 upper false = Return r /\
              py_mod num upper = Return m /\ r == m.
Proof.
  intros Hu.
  destruct (normalize_angle_congruent num upper Hu) as (r & k & Hr & Hk).
  destruct (normalize_angle_in_range num 0 upper) as (r' & Hr' & Hlo & Hhi);
    [lra | lra | lra |].
  rewrite Hr in Hr'. injection Hr' as <-.
  destruct (py_mod_bounds num upper Hu) as (m & Hm & Hmlo & Hmhi).
  exists r, m. split; [exact Hr|]. split; [exact Hm|].
  pose proof Hm as Hform. rewrite py_mod_form in Hform by lra.
  apply Return_inj in Hform.
  apply (remainder_unique upper r m (k + Qfloor (num / upper))); try assumption.
  rewrite <- Hform, Hk, inject_Z_plus. ring.
Qed.

Lemma Qfloor_quotient (n u : Z) :
  (0 < u)%Z -> Qfloor (inject_Z n / inject_Z u) = (n / u)%Z.
Proof.
  intros Hu.
  assert (E : inject_Z n / inject_Z u == n # Z.to_pos u).
  { unfold Qeq, Qdiv, Qmult, Qinv, inject_Z. cbn [Qnum Qden].
    destruct u as [|p|p]; try lia. cbn [Qnum Qden Z.to_pos]. lia. }
  rewrite (Qfloor_comp _ _ E). unfold Qfloor.
  rewrite Z2Pos.id by exact Hu. reflexivity.
Qed.

(** X3.  For integers, whose arithmetic is exact in the program, and a
    range [[0, upper)] (with [upper] an integer of at most 2**53, so that
    the result is a float without rounding), the plain mode is the
    remainder of Python: [normalize_angle(num, 0, upper)] is
    [num % upper]. *)
Theorem normalize_angle_zero_based (num upper : Z) :
  (0 < upper)%Z -> (upper <= 2 ^ 53)%Z ->
  exists r, normalize_angle (inject_Z num) 0 (inject_Z upper) false = Return r /\
            r == inject_Z (num mod upper).
Proof.
  intros Hu _.
  assert (HuQ : 0 < inject_Z upper).
  { change 0 with (inject_Z 0). rewrite <- Zlt_Qlt. exact Hu. }
  destruct (normalize_angle_remainder (inject_Z num) (inject_Z upper) HuQ)
    as (r & m & Hr & Hm & Hrm).
  exists r. split; [exact Hr|]. rewrite Hrm.
  rewrite py_mod_form in Hm by lra. apply Return_inj in Hm. rewrite <- Hm.
  rewrite (Qfloor_quotient num upper Hu), (Z.mod_eq num upper) by lia.
  unfold Z.sub. rewrite inject_Z_plus, inject_Z_opp, inject_Z_mult. ring.
Qed.

Lemma normalize_angle_zero_based_witness :
  exists r, normalize_angle (inject_Z (-30)) 0 (inject_Z 360) false = Return r /\
            r == inject_Z ((-30) mod 360).
Proof.
  apply (normalize_angle_zero_based (-30) 360); [reflexivity|discriminate].
Defined.

(** X4.  For a range [[0, upper)] the plain mode is idempotent: what it
    returns, it returns unchanged. *)
Theorem normalize_angle_idempotent (num upper r : Q) :
  normalize_angle num 0 upper false = Return r ->
  exists r', normalize_angle r 0 upper false = Return r' /\ r' == r.
Proof.
  intros Hr.
  assert (Hu : (0 < upper)%Q).
  { apply (normalize_angle_limits_checked num 0 upper r Hr). }
  destruct (normalize_angle_in_range num 0 upper) as (r0 & Hr0 & Hlo & Hhi);
    [lra | lra | lra |].
  rewrite Hr in Hr0. injection Hr0 as <-.
  apply normalize_angle_fixed; [lra | lra | | exact Hhi].
  destruct (Qle_lt_or_eq _ _ Hlo) as [Hpos | Hz]; [left; exact Hpos|].
  right. split; [symmetry; exact Hz | reflexivity].
Qed.

Lemma normalize_angle_idempotent_witness :
  exists r', normalize_angle 10 0 360 false = Return r' /\ r' == 10.
Proof. apply (normalize_angle_idempotent 370 360 10). reflexivity. Defined.

(** X2.  When the limits lie on either side of 0 ([lower <= 0 <= upper],
    [lower < upper]) the plain mode returns a value of the range
    [[lower, upper)]. *)
Theorem normalize_angle_straddling_range (num lower upper : Q) :
  (lower <= 0)%Q -> (0 <= upper)%Q -> (lower < upper)%Q ->
  exists r, normalize_angle num lower upper false = Return r /\
            (lower <= r)%Q /\ (r < upper)%Q.
Proof. apply normalize_angle_in_range. Qed.

Lemma normalize_angle_straddling_range_witness :
  exists r, normalize_angle 200 (-180) 180 false = Return r /\
            (-180 <= r)%Q /\ (r < 180)%Q.
Proof.
  apply (normalize_angle_straddling_range 200 (-180) 180);
    [discriminate | discriminate | reflexivity].
Defined.

Lemma Qabs_sum_zero (lower upper : Q) :
  Qabs lower + Qabs upper == 0 <-> lower == 0 /\ upper == 0.
Proof.
  pose proof (Qabs_nonneg lower) as Hl. pose proof (Qabs_nonneg upper) as Hu.
  split.
  - intros Hz.
    pose proof (Qle_Qabs lower). pose proof (Qle_Qabs (- lower)).
    pose proof (Qle_Qabs upper). pose proof (Qle_Qabs (- upper)).
    rewrite Qabs_opp in *. split; lra.
  - intros [-> ->]. reflexivity.
Qed.

Lemma py_div_zero (a b : Q) : b == 0 -> py_div a b = Raise ZeroDivisionError.
Proof. intros E. unfold py_div. apply Qeq_bool_iff in E. rewrite E. reflexivity. Qed.

Lemma py_div_form (a b : Q) : ~ b == 0 -> py_div a b = Return (a / b)%Q.
Proof.
  intros E. unfold py_div. rewrite (proj2 (Qeq_bool_false b 0) E). reflexivity.
Qed.

(** The [b] mode with limits that are not both 0, as a formula. *)
Lemma normalize_angle_b_form (num lower upper : Q) :
  ~ Qabs lower + Qabs upper == 0 ->
  normalize_angle num lower upper true =
  Return
    (let T := Qabs lower + Qabs upper in
     let n1 := if Qltb num (- T)
               then num + inject_Z (Qceiling (num / (-2 * T))) * 2 * T
               else num in
     let n2 := if Qltb T n1
               then n1 - inject_Z (Qfloor (n1 / (2 * T))) * 2 * T
               else n1 in
     let n3 := if Qltb upper n2 then T - n2 else n2 in
     let n4 := if Qltb n3 lower then - T - n3 else n3 in
     n4 * 1)%Q.
Proof.
  intros HT.
  assert (H1 : ~ -2 * (Qabs lower + Qabs upper) == 0) by lra.
  assert (H2 : ~ 2 * (Qabs lower + Qabs upper) == 0) by lra.
  unfold normalize_angle, mbind, result_bind. cbv beta iota zeta. cbn [negb].
  destruct (Qltb num (- (Qabs lower + Qabs upper)));
    rewrite ?(py_div_form _ _ H1); cbv beta iota;
    (match goal with
     | |- context [Qltb (Qabs lower + Qabs upper) ?n] =>
         destruct (Qltb (Qabs lower + Qabs upper) n)
     end);
    rewrite ?(py_div_form _ _ H2); reflexivity.
Qed.

(** X5.  The [b] mode raises nothing but [ZeroDivisionError], and raises
    it exactly when both limits are 0 and the number is not. *)
Theorem normalize_angle_b_mode_errors (num lower upper : Q) :
  (normalize_angle num lower upper true = Raise ZeroDivisionError <->
   lower == 0 /\ upper == 0 /\ ~ num == 0) /\
  (forall e, normalize_angle num lower upper true = Raise e ->
             e = ZeroDivisionError).
Proof.
  pose proof (Qabs_sum_zero lower upper) as Hzero.
  destruct (Qeq_dec (Qabs lower + Qabs upper) 0) as [HT | HT].
  - pose proof (proj1 Hzero HT) as [Hl Hu].
    assert (H1 : -2 * (Qabs lower + Qabs upper) == 0) by lra.
    assert (H2 : 2 * (Qabs lower + Qabs upper) == 0) by lra.
    unfold normalize_angle, mbind, result_bind. cbv beta iota zeta. cbn [negb].
    destruct (Qltb num (- (Qabs lower + Qabs upper))) eqn:C1.
    + rewrite (py_div_zero num _ H1).
      split; [|intros e He; inversion He; reflexivity].
      apply Qltb_lt in C1. split; [intros _|reflexivity].
      repeat split; try assumption. lra.
    + apply Qltb_ge in C1.
      destruct (Qltb (Qabs lower + Qabs upper) num) eqn:C2.
      * rewrite (py_div_zero num _ H2).
        split; [|intros e He; inversion He; reflexivity].
        apply Qltb_lt in C2. split; [intros _|reflexivity].
        repeat split; try assumption. lra.
      * apply Qltb_ge in C2.
        split; [|discriminate].
        split; [discriminate|]. intros (_ & _ & Hn). exfalso. apply Hn. lra.
  - rewrite (normalize_angle_b_form num lower upper HT).
    split; [|discriminate]. split; [discriminate|].
    intros (Hl & Hu & _). exfalso. apply HT, Hzero. auto.
Qed.

Lemma floor_step (x t : Q) :
  (0 < t)%Q ->
  (0 <= x - inject_Z (Qfloor (x / t)) * t)%Q /\
  (x - inject_Z (Qfloor (x / t)) * t < t)%Q.
Proof.
  intros Ht.
  assert (Hne : ~ t == 0) by lra.
  pose proof (Qfloor_le (x / t)) as Hlo.
  pose proof (Qlt_floor (x / t)) as Hhi.
  rewrite inject_Z_plus in Hhi.
  set (f := inject_Z (Qfloor (x / t))) in *. clearbody f.
  apply (Qmult_le_l _ _ t Ht) in Hlo.
  apply (Qmult_lt_l _ _ t Ht) in Hhi.
  rewrite Qmult_div_r in Hlo, Hhi by exact Hne.
  assert (E1 : t * (f + inject_Z 1) == f * t + t)
    by (change (inject_Z 1) with 1; ring).
  assert (E2 : t * f == f * t) by ring.
  rewrite E1 in Hhi. rewrite E2 in Hlo.
  set (ft := f * t) in *. clearbody ft. split; lra.
Qed.

Lemma ceiling_step (x t : Q) :
  (0 < t)%Q ->
  (0 <= x + inject_Z (Qceiling (x / - t)) * t)%Q /\
  (x + inject_Z (Qceiling (x / - t)) * t < t)%Q.
Proof.
  intros Ht.
  assert (Hne : ~ t == 0) by lra.
  pose proof (Qle_ceiling (x / - t)) as Hlo.
  pose proof (Qceiling_lt (x / - t)) as Hhi.
  unfold Z.sub in Hhi. rewrite inject_Z_plus in Hhi.
  set (c := inject_Z (Qceiling (x / - t))) in *. clearbody c.
  apply (Qmult_le_l _ _ t Ht) in Hlo.
  apply (Qmult_lt_l _ _ t Ht) in Hhi.
  assert (E : t * (x / - t) == - x) by (field; exact Hne).
  rewrite E in Hlo, Hhi.
  assert (E1 : t * (c + inject_Z (-1)) == c * t - t)
    by (change (inject_Z (-1)) with (-1 # 1); ring).
  assert (E2 : t * c == c * t) by ring.
  rewrite E1 in Hhi. rewrite E2 in Hlo.
  set (ct := c * t) in *. clearbody ct. split; lra.
Qed.

(** X6.  In the [b] mode limits [-u] and [u] keep their promise: the
    result lies in [[-u, u]]. *)
Theorem normalize_angle_b_symmetric (num u : Q) :
  (0 < u)%Q ->
  exists r, normalize_angle num (- u) u true = Return r /\
            (- u <= r)%Q /\ (r <= u)%Q.
Proof.
  intros Hu.
  assert (HT : Qabs (- u) + Qabs u == 2 * u).
  { rewrite Qabs_opp, Qabs_pos by lra. ring. }
  rewrite normalize_angle_b_form by lra.
  eexists. split; [reflexivity|]. cbv zeta.
  set (T := Qabs (- u) + Qabs u) in *. clearbody T.
  assert (HT2 : 0 < 2 * T) by lra.
  set (n1 := if Qltb num (- T)
             then num + inject_Z (Qceiling (num / (-2 * T))) * 2 * T
             else num).
  assert (B1 : - T <= n1).
  { unfold n1. destruct (Qltb num (- T)) eqn:C.
    - pose proof (ceiling_step num (2 * T) HT2) as [Hlo Hhi].
      assert (E : num / (-2 * T) == num / - (2 * T))
        by (apply Qdiv_comp; [reflexivity | ring]).
      rewrite <- E in Hlo, Hhi.
      assert (E' : inject_Z (Qceiling (num / (-2 * T))) * 2 * T ==
                   inject_Z (Qceiling (num / (-2 * T))) * (2 * T)) by ring.
      rewrite E'.
      set (ct := inject_Z (Qceiling (num / (-2 * T))) * (2 * T)) in *.
      clearbody ct. clear E E'. lra.
    - apply Qltb_ge in C. exact C. }
  clearbody n1.
  set (n2 := if Qltb T n1
             then n1 - inject_Z (Qfloor (n1 / (2 * T))) * 2 * T
             else n1).
  assert (B2 : - T <= n2 /\ n2 < 2 * T).
  { unfold n2. destruct (Qltb T n1) eqn:C.
    - pose proof (floor_step n1 (2 * T) HT2) as [Hlo Hhi].
      assert (E' : inject_Z (Qfloor (n1 / (2 * T))) * 2 * T ==
                   inject_Z (Qfloor (n1 / (2 * T))) * (2 * T)) by ring.
      rewrite E'.
      set (ft := inject_Z (Qfloor (n1 / (2 * T))) * (2 * T)) in *.
      clearbody ft. clear E'. split; lra.
    - apply Qltb_ge in C. split; lra. }
  clearbody n2. clear B1.
  set (n3 := if Qltb u n2 then T - n2 else n2).
  assert (B3 : - T <= n3 /\ n3 <= u).
  { unfold n3. destruct (Qltb u n2) eqn:C.
    - apply Qltb_lt in C. split; lra.
    - apply Qltb_ge in C. split; lra. }
  clearbody n3. clear B2.
  destruct (Qltb n3 (- u)) eqn:C.
  - apply Qltb_lt in C. split; lra.
  - apply Qltb_ge in C. split; lra.
Qed.

Lemma normalize_angle_b_symmetric_witness :
  exists r, normalize_angle (-400) (- 90) 90 true = Return r /\
            (- 90 <= r)%Q /\ (r <= 90)%Q.
Proof. apply (normalize_angle_b_symmetric (-400) 90). reflexivity. Defined.

(** ** weighted_mean *)

Lemma fold_left_Qplus (l : list Q) (a : Q) :
  fold_left Qplus l a == a + py_sum l.
Proof.
  unfold py_sum. revert a. induction l as [|x l IH]; intros a; simpl.
  - ring.
  - rewrite (IH (a + x)), (IH (0 + x)). ring.
Qed.

Lemma py_sum_cons (x : Q) (l : list Q) : py_sum (x :: l) == x + py_sum l.
Proof. unfold py_sum at 1. simpl. rewrite fold_left_Qplus. ring. Qed.

Lemma py_index_nat {A : Type} (l : list A) (i : nat) :
  py_index l (Z.of_nat i) =
  match l !! i with Some x => Return x | None => Raise IndexError end.
Proof.
  unfold py_index.
  destruct (Z.ltb_spec (Z.of_nat i) 0) as [Hneg|_]; [lia|].
  destruct (Z.ltb_spec (Z.of_nat i) 0) as [Hneg|_]; [lia|].
  rewrite Nat2Z.id. reflexivity.
Qed.

Lemma mapM_py_div (total : Q) (weights : list Q) :
  ~ total == 0 ->
  mapM (fun weight => py_div weight total) weights =
  Return (map (fun weight => weight / total) weights).
Proof.
  intros Hne. induction weights as [|w ws IH]; simpl; [reflexivity|].
  rewrite IH, (py_div_form w total Hne). reflexivity.
Qed.

Lemma mapM_py_div_zero (total w : Q) (ws : list Q) :
  total == 0 ->
  mapM (fun weight => py_div weight total) (w :: ws) = Raise ZeroDivisionError.
Proof.
  intros Hz. simpl. rewrite (py_div_zero w total Hz). reflexivity.
Qed.

(** The loop [for i, weight in enumerate(weights)], started at position
    [i0] with the sum [acc]. *)
Lemma weighted_sum_loop (data ws : list Q) (i0 : nat) (acc : Q) :
  (i0 + length ws <= length data)%nat ->
  exists r,
    for_each (fun w_mean (iw : nat * Q) =>
                x ← py_index data (Z.of_nat iw.1);
                Return (w_mean + iw.2 * x)%Q)
             (zip (seq i0 (length ws)) ws) acc = Return r /\
    r == acc + py_sum (zip_with Qmult ws (drop i0 data)).
Proof.
  revert i0 acc. induction ws as [|w ws IH]; intros i0 acc Hlen.
  - exists acc. split; [reflexivity|]. simpl. unfold py_sum. simpl. ring.
  - simpl in Hlen.
    destruct (lookup_lt_is_Some_2 data i0) as [x Hx]; [lia|].
    destruct (IH (S i0) (acc + w * x)) as (r & Hr & Heq); [lia|].
    exists r. split.
    + cbn [length seq zip zip_with for_each fst snd].
      rewrite py_index_nat, Hx. exact Hr.
    + rewrite Heq. rewrite (drop_S data x i0 Hx).
      cbn [zip_with]. rewrite py_sum_cons. ring.
Qed.

Lemma weighted_sum_scaled (t : Q) (ws ds : list Q) :
  py_sum (zip_with Qmult (map (fun w => w / t) ws) ds)
  == py_sum (zip_with Qmult ws ds) / t.
Proof.
  revert ds. induction ws as [|w ws IH]; intros [|d ds]; simpl;
    try (unfold py_sum; simpl; unfold Qdiv; ring).
  rewrite !py_sum_cons, IH. unfold Qdiv. ring.
Qed.

Lemma weighted_mean_run (np_mean : list Q -> Q) (data weights : list Q) :
  ~ py_sum weights == 0 ->
  (length weights <= length data)%nat ->
  exists r, weighted_mean np_mean data (Some weights) = Return r /\
            r == py_sum (zip_with Qmult weights data) / py_sum weights.
Proof.
  intros Hne Hlen. unfold weighted_mean. cbv zeta.
  rewrite (mapM_py_div _ _ Hne). unfold mbind at 1, result_bind at 1.
  unfold enumerate.
  destruct (weighted_sum_loop data
              (map (fun w => w / py_sum weights) weights) 0 0)
    as (r & Hr & Heq).
  { rewrite length_map. lia. }
  exists r. split; [exact Hr|].
  rewrite Heq, drop_0, weighted_sum_scaled. ring.
Qed.

(** X7.  With weights whose sum is not zero and data at least as long as
    the weights, [weighted_mean] returns the sum of the products
    [weight * datum] divided by the sum of the weights. *)
Theorem weighted_mean_formula (np_mean : list Q -> Q) (data weights : list Q) :
  ~ py_sum weights == 0 ->
  (length weights <= length data)%nat ->
  exists r, weighted_mean np_mean data (Some weights) = Return r /\
            r == py_sum (zip_with Qmult weights data) / py_sum weights.
Proof. apply weighted_mean_run. Qed.

Lemma weighted_mean_formula_witness :
  exists r, weighted_mean median [1; 2; 6] (Some [1; 1; 2]) = Return r /\
            r == py_sum (zip_with Qmult [1; 1; 2] [1; 2; 6]) / py_sum [1; 1; 2].
Proof.
  apply (weighted_mean_formula median [1; 2; 6] [1; 1; 2]).
  - discriminate.
  - simpl. lia.
Defined.

Lemma weighted_sum_loop_short (data ws : list Q) (i0 : nat) (acc : Q) :
  (i0 <= length data)%nat ->
  (length data < i0 + length ws)%nat ->
  for_each (fun w_mean (iw : nat * Q) =>
              x ← py_index data (Z.of_nat iw.1);
              Return (w_mean + iw.2 * x)%Q)
           (zip (seq i0 (length ws)) ws) acc = Raise IndexError.
Proof.
  revert i0 acc. induction ws as [|w ws IH]; intros i0 acc Hle Hlt.
  - simpl in Hlt. lia.
  - cbn [length seq zip zip_with for_each fst snd].
    rewrite py_index_nat.
    destruct (data !! i0) as [x|] eqn:Hx; [|reflexivity].
    apply lookup_lt_Some in Hx.
    cbn [mbind result_bind]. unfold mbind, result_bind.
    apply IH; simpl in Hlt; lia.
Qed.

Lemma weighted_mean_cases (np_mean : list Q -> Q) (data weights : list Q) :
  (weights = [] /\ weighted_mean np_mean data (Some weights) = Return 0) \/
  (weights <> [] /\ py_sum weights == 0 /\
   weighted_mean np_mean data (Some weights) = Raise ZeroDivisionError) \/
  (~ py_sum weights == 0 /\ (length data < length weights)%nat /\
   weighted_mean np_mean data (Some weights) = Raise IndexError) \/
  (~ py_sum weights == 0 /\ (length weights <= length data)%nat /\
   returns (weighted_mean np_mean data (Some weights))).
Proof.
  destruct weights as [|w ws]; [left; split; reflexivity|]. right.
  destruct (Qeq_dec (py_sum (w :: ws)) 0) as [Hz|Hne].
  - left. split; [discriminate|]. split; [exact Hz|].
    unfold weighted_mean. cbv zeta. rewrite (mapM_py_div_zero _ _ _ Hz).
    reflexivity.
  - right. destruct (le_lt_dec (length (w :: ws)) (length data)) as [Hle|Hlt].
    + right. split; [exact Hne|]. split; [exact Hle|].
      destruct (weighted_mean_run np_mean data (w :: ws) Hne Hle)
        as (r & Hr & _).
      rewrite Hr. exists r. reflexivity.
    + left. split; [exact Hne|]. split; [exact Hlt|].
      unfold weighted_mean. cbv zeta. rewrite (mapM_py_div _ _ Hne).
      unfold mbind at 1, result_bind at 1. unfold enumerate.
      apply weighted_sum_loop_short; [lia|]. rewrite length_map. simpl in *. lia.
Qed.

(** X8.  [weighted_mean] with a list of weights fails in two ways only:
    with ZeroDivisionError exactly when the weights are not empty and sum
    to zero, and with IndexError exactly when their sum is not zero and
    the data are shorter than the weights.  With no weight at all it
    returns 0, whatever the data. *)
Theorem weighted_mean_errors (np_mean : list Q -> Q) (data weights : list Q) :
  (weighted_mean np_mean data (Some weights) = Raise ZeroDivisionError <->
   weights <> [] /\ py_sum weights == 0) /\
  (weighted_mean np_mean data (Some weights) = Raise IndexError <->
   ~ py_sum weights == 0 /\ (length data < length weights)%nat) /\
  (forall e, weighted_mean np_mean data (Some weights) = Raise e ->
             e = ZeroDivisionError \/ e = IndexError) /\
  (weights = [] -> weighted_mean np_mean data (Some weights) = Return 0).
Proof.
  destruct (weighted_mean_cases np_mean data weights)
    as [[Hnil Hr]|[(Hnn & Hz & Hr)|[(Hne & Hlt & Hr)|(Hne & Hle & [r Hr])]]];
    rewrite Hr; (split; [|split; [|split]]).
  all: try (split; [discriminate|]).
  all: try (intros e He; inversion He; tauto).
  all: try (intros _; reflexivity).
  all: try (intros [? ?]; solve [tauto | lia]).
  all: try (intros ->; tauto).
  all: try (split; [intros _|intros _; reflexivity]; tauto).
  - subst weights. intros [Hne _]. exfalso. apply Hne. reflexivity.
  - intros ->. simpl in Hlt. lia.
  - intros ->. symmetry. exact Hr.
Qed.

Lemma inject_nat_succ (n : nat) :
  inject_Z (Z.of_nat (S n)) == 1 + inject_Z (Z.of_nat n).
Proof. rewrite Nat2Z.inj_succ, <- Z.add_1_l, inject_Z_plus. reflexivity. Qed.

Lemma py_sum_uniform (c : Q) (ws : list Q) :
  Forall (fun w => w == c) ws ->
  py_sum ws == inject_Z (Z.of_nat (length ws)) * c.
Proof.
  induction 1 as [|w ws Hw _ IH].
  - unfold py_sum. simpl. ring.
  - rewrite py_sum_cons, IH, Hw. cbn [length]. rewrite inject_nat_succ. ring.
Qed.

Lemma weighted_sum_uniform (c : Q) (ws ds : list Q) :
  Forall (fun w => w == c) ws -> length ws = length ds ->
  py_sum (zip_with Qmult ws ds) == c * py_sum ds.
Proof.
  intros Hall. revert ds. induction Hall as [|w ws Hw _ IH]; intros [|d ds] Hlen;
    try discriminate.
  - unfold py_sum. simpl. ring.
  - cbn [zip_with]. rewrite !py_sum_cons, IH, Hw by (simpl in Hlen; lia). ring.
Qed.

(** X9.  When all the weights are equal to one number other than zero,
    one weight for each datum, [weighted_mean] returns the arithmetic
    mean of the data. *)
Theorem weighted_mean_uniform (np_mean : list Q -> Q) (data weights : list Q)
    (c : Q) :
  ~ c == 0 -> data <> [] -> length weights = length data ->
  Forall (fun w => w == c) weights ->
  exists r, weighted_mean np_mean data (Some weights) = Return r /\
            r == py_sum data / inject_Z (Z.of_nat (length data)).
Proof.
  intros Hc Hdata Hlen Hall.
  assert (Hn : ~ inject_Z (Z.of_nat (length data)) == 0).
  { destruct data as [|d ds]; [congruence|]. cbn [length].
    rewrite inject_nat_succ. intros Hz.
    assert (0 <= inject_Z (Z.of_nat (length ds))).
    { change 0 with (inject_Z 0). rewrite <- Zle_Qle. lia. }
    lra. }
  assert (Hsum : py_sum weights == inject_Z (Z.of_nat (length data)) * c).
  { rewrite <- Hlen. apply py_sum_uniform, Hall. }
  destruct (weighted_mean_run np_mean data weights) as (r & Hr & Heq).
  - rewrite Hsum. intros Hz. apply Qmult_integral in Hz. tauto.
  - lia.
  - exists r. split; [exact Hr|].
    rewrite Heq, Hsum, (weighted_sum_uniform c) by assumption.
    field. split; assumption.
Qed.

Lemma weighted_mean_uniform_witness :
  exists r, weighted_mean median [1; 2; 6] (Some [2; 2; 2]) = Return r /\
            r == py_sum [1; 2; 6] / inject_Z (Z.of_nat (length [1; 2; 6])).
Proof.
  apply (weighted_mean_uniform median [1; 2; 6] [2; 2; 2] 2).
  - discriminate.
  - discriminate.
  - reflexivity.
  - repeat constructor.
Defined.

(** ** weighted_median, further *)

Lemma py_sum_nonneg (l : list Q) : Forall (fun v => 0 <= v) l -> 0 <= py_sum l.
Proof.
  induction 1 as [|v l Hv _ IH].
  - unfold py_sum. simpl. lra.
  - rewrite py_sum_cons. lra.
Qed.

Lemma py_sum_ge_one (l : list Q) (i : nat) (a : Q) :
  Forall (fun v => 0 <= v) l -> l !! i = Some a -> a <= py_sum l.
Proof.
  intros Hall. revert i. induction Hall as [|v l Hv Hl IH]; intros [|i] Hi;
    try discriminate.
  - injection Hi as ->. rewrite py_sum_cons.
    pose proof (py_sum_nonneg l Hl). lra.
  - rewrite py_sum_cons. specialize (IH i Hi). lra.
Qed.

Lemma py_sum_ge_two (l : list Q) (i j : nat) (a b : Q) :
  Forall (fun v => 0 <= v) l -> i <> j ->
  l !! i = Some a -> l !! j = Some b -> a + b <= py_sum l.
Proof.
  intros Hall. revert i j.
  induction Hall as [|v l Hv Hl IH]; intros [|i] [|j] Hij Hi Hj;
    try discriminate; try congruence; rewrite py_sum_cons.
  - injection Hi as ->. pose proof (py_sum_ge_one l j b Hl Hj). lra.
  - injection Hj as ->. pose proof (py_sum_ge_one l i a Hl Hi). lra.
  - assert (a + b <= py_sum l) by (apply (IH i j); [congruence|assumption..]).
    lra.
Qed.

(** [max] returns an element of the list that no element exceeds. *)
Lemma max_fold (l : list Q) (x : Q) :
  let m := fold_left (fun m y => if Qltb m y then y else m) l x in
  (exists k, (x :: l) !! k = Some m) /\
  forall k y, (x :: l) !! k = Some y -> y <= m.
Proof.
  revert x. induction l as [|z l IH]; intros x; cbn [fold_left].
  - split; [exists 0%nat; reflexivity|].
    intros [|k] y Hy; [injection Hy as ->; lra|discriminate].
  - set (x' := if Qltb x z then z else x).
    destruct (IH x') as [[k Hk] Hmax]. cbv zeta in *.
    set (m := fold_left _ l x') in *. clearbody m.
    assert (Hx' : x <= x' /\ z <= x' /\ (x' = x \/ x' = z)).
    { unfold x'. destruct (Qltb x z) eqn:Hlt.
      - apply Qltb_lt in Hlt. repeat split; [lra|lra|tauto].
      - apply Qltb_ge in Hlt. repeat split; [lra|lra|tauto]. }
    destruct Hx' as (Hx1 & Hx2 & Hx3). clearbody x'.
    assert (Hx'm : x' <= m) by (apply (Hmax 0%nat); reflexivity).
    split.
    + destruct k as [|k].
      * injection Hk as <-. destruct Hx3 as [->| ->];
          [exists 0%nat|exists 1%nat]; reflexivity.
      * exists (S (S k)). exact Hk.
    + intros [|[|j]] y Hy.
      * injection Hy as ->. lra.
      * injection Hy as ->. lra.
      * apply (Hmax (S j)). exact Hy.
Qed.

Lemma list_index_first (l : list Q) (i : nat) (w : Q) :
  l !! i = Some w ->
  (forall j y, (j < i)%nat -> l !! j = Some y -> ~ y == w) ->
  list_index w l = Return (Z.of_nat i).
Proof.
  revert i. induction l as [|y l IH]; intros [|i] Hi Hbefore; try discriminate.
  - injection Hi as ->. cbn [list_index].
    rewrite (proj2 (Qeq_bool_iff w w)) by reflexivity. reflexivity.
  - cbn [list_index].
    destruct (Qeq_bool y w) eqn:Heq.
    + apply Qeq_bool_iff in Heq. exfalso.
      apply (Hbefore 0%nat y); [lia|reflexivity|exact Heq].
    + rewrite (IH i Hi).
      * cbn [mbind result_bind]. unfold mbind, result_bind. f_equal. lia.
      * intros j z Hj Hz. apply (Hbefore (S j) z); [lia|exact Hz].
Qed.

(** X10.  Among weights none of which is negative, a weight above half
    of their sum decides the result: [weighted_median] returns the datum
    at the position of that weight. *)
Theorem weighted_median_dominant (np_median : list Q -> Q)
    (data weights : list Q) (i : nat) (w x : Q) :
  Forall (fun v => 0 <= v) weights ->
  weights !! i = Some w -> data !! i = Some x ->
  (1 # 2) * py_sum weights < w ->
  weighted_median np_median data (Some weights) = Return (Some x).
Proof.
  intros Hall Hw Hx Hdom.
  assert (Hothers : forall j y, j <> i -> weights !! j = Some y -> y < w).
  { intros j y Hji Hy.
    pose proof (py_sum_ge_two weights j i y w Hall Hji Hy Hw). lra. }
  unfold weighted_median. cbv zeta.
  assert (Hany : any_gt ((1 # 2) * py_sum weights) weights = true).
  { unfold any_gt. apply existsb_exists. exists w. split.
    - apply list_elem_of_In, (list_elem_of_lookup_2 _ i), Hw.
    - unfold Qltb. destruct (Qle_bool w _) eqn:Hle; [|reflexivity].
      apply Qle_bool_iff in Hle. lra. }
  rewrite Hany.
  destruct weights as [|v ws]; [discriminate|].
  cbn [py_max].
  destruct (max_fold ws v) as [[k Hk] Hmax]. cbv zeta in *.
  set (m := fold_left _ ws v) in *. clearbody m.
  assert (Hm : m = w).
  { destruct (Nat.eq_dec k i) as [->|Hki]; [congruence|].
    pose proof (Hothers k m Hki Hk). pose proof (Hmax i w Hw). lra. }
  subst m. cbn [mbind result_bind]. unfold mbind at 1, result_bind at 1.
  rewrite (list_index_first (v :: ws) i w Hw).
  - unfold mbind at 1, result_bind at 1. rewrite py_index_nat, Hx. reflexivity.
  - intros j y Hji Hy Heq.
    assert (y < w) by (apply (Hothers j); [lia|exact Hy]). lra.
Qed.

Lemma weighted_median_dominant_witness :
  weighted_median median [10; 20; 30] (Some [1; 5; 2]) = Return (Some 20).
Proof.
  apply (weighted_median_dominant median [10; 20; 30] [1; 5; 2] 1 5 20).
  - repeat constructor; discriminate.
  - reflexivity.
  - reflexivity.
  - reflexivity.
Defined.

Lemma insert_sorted_perm (p : Q * Q) (l : list (Q * Q)) :
  insert_sorted p l ≡ₚ p :: l.
Proof.
  induction l as [|q l IH]; cbn [insert_sorted]; [reflexivity|].
  destruct (pair_ltb q p); [|reflexivity].
  rewrite IH. apply Permutation_swap.
Qed.

Lemma py_sorted_perm (l : list (Q * Q)) : py_sorted l ≡ₚ l.
Proof.
  unfold py_sorted. induction l as [|p l IH]; cbn [fold_right]; [reflexivity|].
  rewrite insert_sorted_perm, IH. reflexivity.
Qed.

Lemma py_sum_perm (l l' : list Q) : l ≡ₚ l' -> py_sum l == py_sum l'.
Proof.
  induction 1 as [|x l l' _ IH|x y l|l l' l'' _ IH1 _ IH2].
  - reflexivity.
  - rewrite !py_sum_cons, IH. reflexivity.
  - rewrite !py_sum_cons. ring.
  - rewrite IH1. exact IH2.
Qed.

Lemma list_index_found (l : list Q) (k : nat) (m : Q) :
  l !! k = Some m ->
  exists j, (j <= k)%nat /\ list_index m l = Return (Z.of_nat j).
Proof.
  revert k. induction l as [|y l IH]; intros [|k] Hk; try discriminate.
  - injection Hk as ->. exists 0%nat. split; [lia|]. cbn [list_index].
    rewrite (proj2 (Qeq_bool_iff m m)) by reflexivity. reflexivity.
  - cbn [list_index]. destruct (Qeq_bool y m).
    + exists 0%nat. split; [lia|reflexivity].
    + destruct (IH k Hk) as (j & Hj & ->). exists (S j). split; [lia|].
      cbn [mbind result_bind]. unfold mbind, result_bind. f_equal. lia.
Qed.

(** The [while] loop stops inside the list when the weights not yet
    visited bring the sum above the midpoint. *)
Lemma accumulate_weights_stops (midpoint : Q) (rest : list Q) (cum : Q) (idx : Z) :
  midpoint < cum + py_sum rest ->
  exists c' k,
    accumulate_weights midpoint rest cum idx = Return (c', (idx + Z.of_nat k)%Z) /\
    (k <= length rest)%nat /\
    midpoint < c' /\
    c' == cum + py_sum (take k rest) /\
    forall j, (j < k)%nat -> cum + py_sum (take j rest) <= midpoint.
Proof.
  revert cum idx. induction rest as [|w rest IH]; intros cum idx Hsum.
  - cbn [accumulate_weights].
    destruct (Qle_bool cum midpoint) eqn:Hle.
    + apply Qle_bool_iff in Hle. unfold py_sum in Hsum. simpl in Hsum. lra.
    + exists cum, 0%nat. rewrite Z.add_0_r. split; [reflexivity|].
      split; [simpl; lia|]. unfold py_sum in *. simpl in *.
      split; [lra|]. split; [ring|]. intros j Hj. lia.
  - cbn [accumulate_weights].
    destruct (Qle_bool cum midpoint) eqn:Hle.
    + apply Qle_bool_iff in Hle.
      destruct (IH (cum + w) (idx + 1)%Z) as (c' & k & Hrun & Hk & Hc & Heq & Hbelow).
      { rewrite py_sum_cons in Hsum. lra. }
      exists c', (S k). split.
      { rewrite Hrun. do 2 f_equal. lia. }
      split; [simpl; lia|]. split; [exact Hc|]. split.
      * rewrite Heq. cbn [take]. rewrite py_sum_cons. ring.
      * intros [|j] Hj.
        -- cbn [take]. unfold py_sum. simpl. lra.
        -- cbn [take]. rewrite py_sum_cons.
           assert (cum + w + py_sum (take j rest) <= midpoint)
             by (apply Hbelow; lia).
           lra.
    + assert (Hlt : midpoint < cum).
      { unfold Qle_bool in Hle. apply Qnot_le_lt. intros Hc.
        apply Qle_bool_iff in Hc. unfold Qle_bool in Hc. congruence. }
      exists cum, 0%nat. rewrite Z.add_0_r. split; [reflexivity|].
      split; [simpl; lia|]. split; [exact Hlt|].
      split; [cbn [take]; unfold py_sum; simpl; ring|]. intros j Hj. lia.
Qed.

Lemma any_gt_true (bound : Q) (l : list Q) :
  any_gt bound l = true -> exists k w, l !! k = Some w /\ bound < w.
Proof.
  unfold any_gt. intros Hany. apply existsb_exists in Hany.
  destruct Hany as (w & Hin & Hlt). apply Qltb_lt in Hlt.
  apply list_elem_of_In, list_elem_of_lookup in Hin. destruct Hin as [k Hk].
  exists k, w. split; assumption.
Qed.

Lemma any_gt_le (bound : Q) (l : list Q) :
  any_gt bound l = false -> Forall (fun w => w <= bound) l.
Proof.
  unfold any_gt. induction l as [|w l IH]; cbn [existsb]; intros Hany;
    [constructor|].
  apply orb_false_iff in Hany. destruct Hany as [Hw Hl].
  constructor; [apply Qltb_ge, Hw|apply IH, Hl].
Qed.

(** X11.  With as many weights as data, [weighted_median] raises no
    error: it returns a value, or nothing ([None]). *)
Theorem weighted_median_returns (np_median : list Q -> Q)
    (data weights : list Q) :
  length data = length weights ->
  returns (weighted_median np_median data (Some weights)).
Proof.
  intros Hlen. unfold weighted_median, returns. cbv zeta.
  set (midpoint := (1 # 2) * py_sum weights).
  destruct (any_gt midpoint weights) eqn:Hmid.
  - (* a weight above the midpoint *)
    destruct weights as [|v ws]; [discriminate|]. cbn [py_max].
    destruct (max_fold ws v) as [[k Hk] _]. cbv zeta in Hk.
    set (m := fold_left _ ws v) in *. clearbody m.
    destruct (list_index_found _ _ _ Hk) as (j & Hj & Hidx).
    cbn [mbind result_bind]. unfold mbind at 1, result_bind at 1.
    rewrite Hidx. unfold mbind at 1, result_bind at 1.
    rewrite py_index_nat.
    apply lookup_lt_Some in Hk.
    destruct (lookup_lt_is_Some_2 data j) as [x ->]; [lia|].
    eexists. reflexivity.
  - destruct (any_gt 0 weights) eqn:Hpos; [|eexists; reflexivity].
    apply any_gt_le in Hmid. apply any_gt_true in Hpos.
    destruct Hpos as (k0 & w0 & Hk0 & Hw0).
    assert (Hmidpos : 0 < midpoint).
    { rewrite Forall_lookup in Hmid. specialize (Hmid k0 w0 Hk0).
      cbv beta in Hmid. lra. }
    pose proof (py_sorted_perm (zip data weights)) as Hperm.
    set (pairs := py_sorted (zip data weights)) in *. clearbody pairs.
    assert (Hw : pairs.*2 ≡ₚ weights).
    { rewrite Hperm. rewrite snd_zip by lia. reflexivity. }
    assert (Hn : length pairs = length weights).
    { rewrite <- (length_fmap snd pairs). apply Permutation_length, Hw. }
    destruct pairs as [|p0 pairs'].
    { apply lookup_lt_Some in Hk0. simpl in Hn. lia. }
    set (pairs := p0 :: pairs') in *. clearbody pairs. clear p0 pairs'.
    assert (Hsum : py_sum pairs.*2 == 2 * midpoint).
    { rewrite (py_sum_perm _ _ Hw). unfold midpoint. ring. }
    assert (Hall : Forall (fun w => w <= midpoint) pairs.*2).
    { rewrite Hw. exact Hmid. }
    destruct (accumulate_weights_stops midpoint pairs.*2 0 0)
      as (c' & k & Hrun & Hk & Hc & Heq & Hbelow); [lra|].
    rewrite Hrun. clear Hrun. rewrite Z.add_0_l.
    cbn [mbind result_bind]. unfold mbind at 1, result_bind at 1.
    cbv beta iota.
    assert (Hk2 : (2 <= k)%nat).
    { destruct k as [|[|k]]; [| |lia].
      - cbn [take] in Heq. unfold py_sum in Heq. simpl in Heq. lra.
      - destruct (pairs.*2) as [|w1 ws] eqn:Hws; [simpl in Hk; lia|].
        cbn [take] in Heq. rewrite py_sum_cons in Heq.
        unfold py_sum at 1 in Heq. simpl in Heq.
        apply Forall_cons in Hall. destruct Hall as [Hw1 _]. lra. }
    rewrite length_fmap in Hk.
    replace (Z.of_nat k - 1)%Z with (Z.of_nat (k - 1)) by lia.
    rewrite !py_index_nat.
    destruct (lookup_lt_is_Some_2 pairs.*2 (k - 1)) as [w ->];
      [rewrite length_fmap; lia|].
    cbv beta iota.
    destruct (Qltb (c' - w - midpoint) float_epsilon).
    + set (bounds := py_slice pairs.*1 (Z.of_nat k - 2) (Z.of_nat k)).
      assert (Hb : length bounds = 2%nat).
      { unfold bounds, py_slice, py_slice_bound. rewrite length_fmap.
        destruct (Z.ltb_spec (Z.of_nat k - 2) 0); [lia|].
        destruct (Z.ltb_spec (Z.of_nat k) 0); [lia|].
        rewrite length_take, length_drop, length_fmap. lia. }
      rewrite Hb. unfold py_div. cbn [Qeq_bool]. simpl Qeq_bool.
      eexists. reflexivity.
    + destruct (lookup_lt_is_Some_2 pairs.*1 (k - 1)) as [x ->];
        [rewrite length_fmap; lia|].
      eexists. reflexivity.
Qed.

Lemma weighted_median_returns_witness :
  returns (weighted_median median [10; 20; 30] (Some [1; 1; 1])).
Proof.
  apply (weighted_median_returns median [10; 20; 30] [1; 1; 1]).
  reflexivity.
Defined.

(** ** check_random_state, further *)

Lemma Qltb_comp (x x' y y' : Q) : x == x' -> y == y' -> Qltb x y = Qltb x' y'.
Proof.
  intros Hx Hy. unfold Qltb. f_equal.
  destruct (Qle_bool y x) eqn:H1, (Qle_bool y' x') eqn:H2; try reflexivity.
  - apply Qle_bool_iff in H1. rewrite Hx, Hy in H1.
    apply Qle_bool_iff in H1. congruence.
  - apply Qle_bool_iff in H2. rewrite <- Hx, <- Hy in H2.
    apply Qle_bool_iff in H2. congruence.
Qed.

Lemma Qtruncate_comp (q q' : Q) : q == q' -> Qtruncate q = Qtruncate q'.
Proof.
  intros Heq. unfold Qtruncate.
  rewrite (Qltb_comp q q' 0 0 Heq) by reflexivity.
  rewrite (Qfloor_comp q q' Heq), (Qceiling_comp q q' Heq). reflexivity.
Qed.

Lemma Qtruncate_Z (n : Z) : Qtruncate (inject_Z n) = n.
Proof.
  unfold Qtruncate. rewrite Qfloor_Z, Qceiling_Z. destruct (Qltb _ _); reflexivity.
Qed.

(** [int] cuts towards zero. *)
Lemma Qtruncate_spec (q : Q) :
  (0 <= q -> inject_Z (Qtruncate q) <= q /\ q < inject_Z (Qtruncate q) + 1) /\
  (q <= 0 -> inject_Z (Qtruncate q) - 1 < q /\ q <= inject_Z (Qtruncate q)).
Proof.
  unfold Qtruncate. destruct (Qltb q 0) eqn:Hlt.
  - apply Qltb_lt in Hlt. split; [intros Hq; lra|]. intros _.
    pose proof (Qle_ceiling q) as Hc1. pose proof (Qceiling_lt q) as Hc2.
    unfold Z.sub in Hc2. rewrite inject_Z_plus in Hc2.
    change (inject_Z (- (1))) with (- (1))%Q in Hc2.
    set (c := inject_Z (Qceiling q)) in *. clearbody c. split; lra.
  - apply Qltb_ge in Hlt.
    pose proof (Qfloor_le q) as Hf1. pose proof (Qlt_floor q) as Hf2.
    rewrite inject_Z_plus in Hf2. change (inject_Z 1) with 1 in Hf2.
    split; intros Hq.
    + set (f := inject_Z (Qfloor q)) in *. clearbody f. split; lra.
    + assert (Hq0 : q == 0) by lra.
      rewrite (Qfloor_comp q 0 Hq0). change (inject_Z (Qfloor 0)) with 0.
      split; lra.
Qed.

Section CheckRandomStateErrors.
Context `{SeedingLaws}.


(** X13.  A finite float seed is cut towards zero to an integer [n] and
    then treated as [n] is: the state seeded with [n] when [n] lies in
    [0 .. 2**32 - 1], a ValueError otherwise.  A float that is an integer
    does what the integer does. *)
Theorem check_random_state_float (q : Q) :
  exists n,
    (0 <= q -> inject_Z n <= q /\ q < inject_Z n + 1) /\
    (q <= 0 -> inject_Z n - 1 < q /\ q <= inject_Z n) /\
    check_random_state (PyFloat (Finite q)) = check_random_state (PyInt n) /\
    check_random_state (PyFloat (Finite q)) =
      (if (0 <=? n)%Z && (n <=? 4294967295)%Z
       then Return (RandomState (PyInt n)) else Raise ValueError) /\
    (forall m, q == inject_Z m ->
               check_random_state (PyFloat (Finite q)) =
               check_random_state (PyInt m)).
Proof.
  exists (Qtruncate q).
  split; [apply Qtruncate_spec|]. split; [apply Qtruncate_spec|].
  split; [reflexivity|]. split; [apply check_random_state_finite|].
  intros m Hm.
  change (check_random_state (PyFloat (Finite q)))
    with (check_random_state (PyInt (Qtruncate q))).
  rewrite (Qtruncate_comp q (inject_Z m) Hm), Qtruncate_Z.
  reflexivity.
Qed.
End CheckRandomStateErrors.


Lemma check_random_state_float_witness :
  exists n,
    (0 <= - (5 # 2) -> inject_Z n <= - (5 # 2) /\ - (5 # 2) < inject_Z n + 1) /\
    (- (5 # 2) <= 0 -> inject_Z n - 1 < - (5 # 2) /\ - (5 # 2) <= inject_Z n) /\
    @check_random_state plain_seeding (PyFloat (Finite (- (5 # 2))))
    = @check_random_state plain_seeding (PyInt n) /\
    @check_random_state plain_seeding (PyFloat (Finite (- (5 # 2)))) =
      (if (0 <=? n)%Z && (n <=? 4294967295)%Z
       then Return (RandomState (PyInt n)) else Raise ValueError) /\
    (forall m, - (5 # 2) == inject_Z m ->
               @check_random_state plain_seeding (PyFloat (Finite (- (5 # 2)))) =
               @check_random_state plain_seeding (PyInt m)).
Proof.
  apply (@check_random_state_float plain_seeding plain_seeding_laws (- (5 # 2))).
Defined.

(** ** random_string *)

Lemma tenths_random_laws : @PyRandomLaws tenths_random.
Proof.
  constructor. intros g. cbn [random_random tenths_random fst].
  pose proof (Nat.mod_upper_bound g 10 ltac:(lia)) as Hlt.
  unfold Qle, Qlt. cbn [Qnum Qden]. lia.
Qed.

Section RandomStringFacts.
Context `{PyRandomLaws}.

(** [int(random() * n)] is a position of a sequence of length [n]. *)
Lemma random_position (n : nat) (g : py_rng) :
  (0 < n)%nat ->
  exists k, (k < n)%nat /\
    Qtruncate ((random_random g).1 * inject_Z (Z.of_nat n)) = Z.of_nat k.
Proof.
  intros Hn. destruct (random_unit g) as [Hx0 Hx1].
  set (x := (random_random g).1) in *. clearbody x.
  assert (Hnq : 0 < inject_Z (Z.of_nat n)).
  { change 0 with (inject_Z 0). rewrite <- Zlt_Qlt. lia. }
  set (nq := inject_Z (Z.of_nat n)) in *.
  assert (Hlo : 0 <= x * nq) by (apply Qmult_le_0_compat; lra).
  assert (Hhi : x * nq < nq).
  { rewrite <- (Qmult_1_l nq) at 2. apply Qmult_lt_compat_r; assumption. }
  unfold Qtruncate. rewrite (proj2 (Qltb_ge _ _)) by exact Hlo.
  assert (Hf0 : (0 <= Qfloor (x * nq))%Z).
  { change 0%Z with (Qfloor 0). apply Qfloor_resp_le, Hlo. }
  assert (Hf1 : (Qfloor (x * nq) < Z.of_nat n)%Z).
  { rewrite Zlt_Qlt. eapply Qle_lt_trans; [apply Qfloor_le|exact Hhi]. }
  exists (Z.to_nat (Qfloor (x * nq))). split; lia.
Qed.

Lemma random_choice_returns {A : Type} (seq : list A) (g : py_rng) :
  seq <> [] ->
  exists a, a ∈ seq /\ random_choice seq g = Return (a, (random_random g).2).
Proof.
  intros Hne. unfold random_choice.
  destruct (random_position (length seq) g) as (k & Hk & Hpos).
  { destruct seq; [congruence|simpl; lia]. }
  destruct (random_random g) as [x g'] eqn:Hg. cbn [fst snd] in *.
  rewrite Hpos, py_index_nat.
  destruct (lookup_lt_is_Some_2 seq k Hk) as [a Ha]. rewrite Ha.
  exists a. split; [apply (list_elem_of_lookup_2 _ k), Ha|reflexivity].
Qed.

Lemma random_chars_returns (n : nat) (chars : list Ascii.ascii) (g : py_rng) :
  chars <> [] ->
  exists s,
    random_chars n chars g =
      Return (s, Nat.iter n (fun g => (random_random g).2) g) /\
    length s = n /\ Forall (fun c => c ∈ chars) s.
Proof.
  intros Hne. revert g. induction n as [|n IH]; intros g.
  - exists []. repeat split. constructor.
  - destruct (random_choice_returns chars g Hne) as (c & Hc & Hrun).
    destruct (IH (random_random g).2) as (s & Hs & Hlen & Hall).
    exists (c :: s). cbn [random_chars]. rewrite Hrun.
    cbn [mbind result_bind]. unfold mbind at 1, result_bind at 1.
    rewrite Hs. cbn [mbind result_bind]. unfold mbind, result_bind.
    split; [|split; [simpl; lia|constructor; assumption]].
    do 2 f_equal. rewrite Nat.iter_succ_r. reflexivity.
Qed.

(** X14.  Over a non-empty alphabet, [random_string] returns a string of
    [size] characters (none for a negative [size]), each taken from the
    alphabet, and draws from the generator once per character. *)
Theorem random_string_alphabet (size : Z) (chars : list Ascii.ascii)
    (g : py_rng) :
  chars <> [] ->
  exists s,
    random_string size chars g =
      Return (s, Nat.iter (Z.to_nat size) (fun g => (random_random g).2) g) /\
    Z.of_nat (length s) = Z.max 0 size /\
    Forall (fun c => c ∈ chars) s.
Proof.
  intros Hne. unfold random_string.
  destruct (random_chars_returns (Z.to_nat size) chars g Hne)
    as (s & Hs & Hlen & Hall).
  exists s. split; [exact Hs|]. split; [lia|exact Hall].
Qed.
End RandomStringFacts.

Lemma random_string_alphabet_witness :
  exists s,
    @random_string tenths_random 5 default_chars 3%nat =
      Return (s, Nat.iter (Z.to_nat 5)
                   (fun g => (@random_random tenths_random g).2) 3%nat) /\
    Z.of_nat (length s) = Z.max 0 5 /\
    Forall (fun c => c ∈ default_chars) s.
Proof.
  apply (@random_string_alphabet tenths_random tenths_random_laws
           5 default_chars 3%nat).
  discriminate.
Defined.

(** X15.  With an empty alphabet, [random_string] fails with IndexError
    as soon as one character is asked for; for a [size] of zero or less
    it returns the empty string and leaves the generator alone. *)
Theorem random_string_empty_alphabet `{PyRandom} (size : Z) (g : py_rng) :
  random_string size [] g =
  if (0 <? size)%Z then Raise IndexError else Return ([], g).
Proof.
  unfold random_string.
  destruct (Z.ltb_spec 0 size) as [Hpos|Hneg].
  - destruct (Z.to_nat size) as [|n] eqn:Hn; [lia|].
    cbn [random_chars]. unfold random_choice.
    destruct (random_random g) as [x g'].
    rewrite (Qtruncate_comp _ 0) by (simpl; ring).
    reflexivity.
  - replace (Z.to_nat size) with 0%nat by lia. reflexivity.
Qed.

(** ** Segmentation maps *)

(** The assignment [seg_copy[seg == label] = 0], pixel by pixel. *)
Lemma remove_label_run (seg : ndarray Z) (label : Z) :
  remove_label seg label =
  Return (arr_map (fun v => if Z.eqb v label then 0%Z else v) seg).
Proof.
  unfold remove_label. rewrite mask_fill_run by reflexivity.
  unfold arr_map. cbn [flat shape]. rewrite zip_with_map_r. reflexivity.
Qed.

Lemma getitem2_arr_map {A B : Type} (f : A -> B) (a : ndarray A) (r c : nat)
    (x : A) :
  getitem2 a r c = Return x -> getitem2 (arr_map f a) r c = Return (f x).
Proof.
  rewrite !getitem2_flat. unfold arr_map. cbn [shape flat].
  intros (Hr & Hc & Hx). repeat split; try assumption.
  rewrite lookup_map, Hx. reflexivity.
Qed.

Lemma getitem2_arr_map_inv {A B : Type} (f : A -> B) (a : ndarray A)
    (r c : nat) (y : B) :
  getitem2 (arr_map f a) r c = Return y ->
  exists x, getitem2 a r c = Return x /\ y = f x.
Proof.
  rewrite getitem2_flat. unfold arr_map. cbn [shape flat].
  intros (Hr & Hc & Hy). rewrite lookup_map in Hy.
  destruct (flat a !! _) as [x|] eqn:Hx; [|discriminate].
  injection Hy as <-. exists x. split; [|reflexivity].
  apply getitem2_flat. auto.
Qed.

Lemma arr_map_unchanged {A : Type} (f : A -> A) (a : ndarray A) :
  Forall (fun x => f x = x) (flat a) -> arr_map f a = a.
Proof.
  intros Hall. destruct a as [sh fl]. unfold arr_map. cbn [shape flat] in *.
  f_equal. induction Hall as [|x l Hx _ IH]; simpl; congruence.
Qed.

Lemma remove_zero_label (seg : ndarray Z) :
  arr_map (fun v => if Z.eqb v 0 then 0%Z else v) seg = seg.
Proof.
  apply arr_map_unchanged, Forall_forall. intros v _.
  destruct (Z.eqb_spec v 0); congruence.
Qed.

Lemma remove_label_twice (seg : ndarray Z) (label : Z) :
  arr_map (fun v => if Z.eqb v 0 then 0%Z else v)
    (arr_map (fun v => if Z.eqb v label then 0%Z else v) seg) =
  arr_map (fun v => if Z.eqb v label then 0%Z else v) seg.
Proof. apply remove_zero_label. Qed.

(** X16.  What [seg_remove_cen_obj] returns has the shape of the map it
    is given and differs from it only by the pixels that carry the label
    of the centre pixel, which are zero.  The result has no central
    object left: [seg_index_cen_obj] finds nothing in it, and removing
    the central object once more changes nothing. *)
Theorem seg_remove_cen_obj_removes (seg seg' : ndarray Z) :
  seg_remove_cen_obj seg = Return seg' ->
  exists cen_obj,
    getitem2 seg (centre seg).1 (centre seg).2 = Return cen_obj /\
    shape seg' = shape seg /\
    (forall r c v, getitem2 seg r c = Return v ->
       getitem2 seg' r c = Return (if Z.eqb v cen_obj then 0%Z else v)) /\
    seg_index_cen_obj seg' = Return None /\
    seg_remove_cen_obj seg' = Return seg'.
Proof.
  unfold seg_remove_cen_obj.
  destruct (getitem2 seg (centre seg).1 (centre seg).2) as [cen_obj|e] eqn:Hcen;
    [|discriminate].
  cbn [mbind result_bind]. unfold mbind at 1, result_bind at 1.
  rewrite remove_label_run. intros Hret. apply Return_inj in Hret. subst seg'.
  exists cen_obj. split; [reflexivity|]. split; [reflexivity|].
  split.
  { intros r c v Hv.
    apply (getitem2_arr_map (fun v => if Z.eqb v cen_obj then 0%Z else v)), Hv. }
  pose proof (getitem2_arr_map (fun v => if Z.eqb v cen_obj then 0%Z else v)
                seg _ _ _ Hcen) as Hcen'.
  cbv beta in Hcen'. rewrite Z.eqb_refl in Hcen'.
  unfold seg_index_cen_obj.
  change (centre (arr_map _ seg)) with (centre seg).
  rewrite Hcen'. split; [reflexivity|].
  cbn [mbind result_bind]. unfold mbind, result_bind.
  rewrite remove_label_run, remove_label_twice. reflexivity.
Qed.

Lemma seg_remove_cen_obj_removes_witness :
  exists cen_obj,
    getitem2 seg_two (centre seg_two).1 (centre seg_two).2 = Return cen_obj /\
    shape (NDArray (3, 3)%nat [1; 1; 0; 0; 0; 0; 0; 0; 0]%Z) = shape seg_two /\
    (forall r c v, getitem2 seg_two r c = Return v ->
       getitem2 (NDArray (3, 3)%nat [1; 1; 0; 0; 0; 0; 0; 0; 0]%Z) r c =
       Return (if Z.eqb v cen_obj then 0%Z else v)) /\
    seg_index_cen_obj (NDArray (3, 3)%nat [1; 1; 0; 0; 0; 0; 0; 0; 0]%Z) =
      Return None /\
    seg_remove_cen_obj (NDArray (3, 3)%nat [1; 1; 0; 0; 0; 0; 0; 0; 0]%Z) =
      Return (NDArray (3, 3)%nat [1; 1; 0; 0; 0; 0; 0; 0; 0]%Z).
Proof.
  apply (seg_remove_cen_obj_removes seg_two
           (NDArray (3, 3)%nat [1; 1; 0; 0; 0; 0; 0; 0; 0]%Z)).
  reflexivity.
Defined.

(** X17.  The mask [seg_index_obj] returns for a position marks exactly
    the pixels [seg_remove_obj] sets to zero for that position, the pixel
    of the position among them; when the position carries the label 0,
    [seg_index_obj] returns nothing and [seg_remove_obj] an unchanged
    copy. *)
Theorem seg_remove_obj_mask (seg seg' : ndarray Z) (x y : Q) :
  seg_remove_obj seg x y = Return seg' ->
  exists obj,
    getitem2_int seg (Qtruncate x) (Qtruncate y) = Return obj /\
    shape seg' = shape seg /\
    (forall r c v, getitem2 seg r c = Return v ->
       getitem2 seg' r c = Return (if Z.eqb v obj then 0%Z else v)) /\
    getitem2_int seg' (Qtruncate x) (Qtruncate y) = Return 0%Z /\
    if Z.eqb obj 0
    then seg_index_obj seg x y = Return None /\ seg' = seg
    else exists mask,
           seg_index_obj seg x y = Return (Some mask) /\
           shape mask = shape seg /\
           forall r c v, getitem2 seg r c = Return v ->
             getitem2 mask r c = Return (Z.eqb v obj).
Proof.
  unfold seg_remove_obj, seg_index_obj.
  destruct (getitem2_int seg (Qtruncate x) (Qtruncate y)) as [obj|e] eqn:Hobj;
    [|discriminate].
  unfold mbind, result_bind. cbv beta iota.
  rewrite remove_label_run. intros Hret. apply Return_inj in Hret. subst seg'.
  exists obj. split; [reflexivity|]. split; [reflexivity|].
  split.
  { intros r c v Hv.
    apply (getitem2_arr_map (fun v => if Z.eqb v obj then 0%Z else v)), Hv. }
  split.
  - unfold getitem2_int in *. change (shape (arr_map _ seg)) with (shape seg).
    destruct (axis_index (shape seg).1 (Qtruncate x)) as [r|]; [|discriminate].
    destruct (axis_index (shape seg).2 (Qtruncate y)) as [c|]; [|discriminate].
    cbn [mbind result_bind] in *. unfold mbind, result_bind in *.
    rewrite (getitem2_arr_map (fun v => if Z.eqb v obj then 0%Z else v)
               seg r c obj Hobj).
    cbv beta. rewrite Z.eqb_refl. reflexivity.
  - destruct (Z.eqb_spec obj 0) as [->|Hne].
    + split; [reflexivity|apply remove_zero_label].
    + eexists. split; [reflexivity|]. split; [reflexivity|].
      intros r c v Hv.
      apply (getitem2_arr_map (fun v => Z.eqb v obj)), Hv.
Qed.

Lemma seg_remove_obj_mask_witness :
  exists obj,
    getitem2_int seg_two (Qtruncate 0.5) (Qtruncate (- (2))) = Return obj /\
    shape (NDArray (3, 3)%nat [0; 0; 0; 0; 2; 2; 0; 0; 2]%Z) = shape seg_two /\
    (forall r c v, getitem2 seg_two r c = Return v ->
       getitem2 (NDArray (3, 3)%nat [0; 0; 0; 0; 2; 2; 0; 0; 2]%Z) r c =
       Return (if Z.eqb v obj then 0%Z else v)) /\
    getitem2_int (NDArray (3, 3)%nat [0; 0; 0; 0; 2; 2; 0; 0; 2]%Z)
      (Qtruncate 0.5) (Qtruncate (- (2))) = Return 0%Z /\
    if Z.eqb obj 0
    then seg_index_obj seg_two 0.5 (- (2)) = Return None /\
         NDArray (3, 3)%nat [0; 0; 0; 0; 2; 2; 0; 0; 2]%Z = seg_two
    else exists mask,
           seg_index_obj seg_two 0.5 (- (2)) = Return (Some mask) /\
           shape mask = shape seg_two /\
           forall r c v, getitem2 seg_two r c = Return v ->
             getitem2 mask r c = Return (Z.eqb v obj).
Proof.
  apply (seg_remove_obj_mask seg_two
           (NDArray (3, 3)%nat [0; 0; 0; 0; 2; 2; 0; 0; 2]%Z) 0.5 (- (2))).
  reflexivity.
Defined.

Lemma axis_index_centre (n : nat) :
  axis_index n (Z.of_nat (n / 2)) =
  if Nat.ltb (n / 2) n then Return (n / 2)%nat else Raise IndexError.
Proof.
  unfold axis_index.
  destruct (Z.ltb_spec (Z.of_nat (n / 2)) 0) as [Hneg|_]; [lia|].
  destruct (Z.ltb_spec (Z.of_nat (n / 2)) 0) as [Hneg|_]; [lia|].
  cbn [orb].
  destruct (Z.leb_spec (Z.of_nat n) (Z.of_nat (n / 2))) as [Hle|Hlt],
           (Nat.ltb_spec (n / 2) n) as [Hlt'|Hle']; try lia.
  - reflexivity.
  - rewrite Nat2Z.id. reflexivity.
Qed.

Lemma getitem2_int_centre {A : Type} (a : ndarray A) :
  getitem2_int a (Z.of_nat (centre a).1) (Z.of_nat (centre a).2) =
  getitem2 a (centre a).1 (centre a).2.
Proof.
  unfold getitem2_int, centre. cbn [fst snd].
  rewrite !axis_index_centre. unfold getitem2.
  destruct (Nat.ltb ((shape a).1 / 2) (shape a).1) eqn:E1,
           (Nat.ltb ((shape a).2 / 2) (shape a).2) eqn:E2;
    unfold mbind, result_bind; cbv beta iota; rewrite ?E1, ?E2; reflexivity.
Qed.

(** X18.  The functions for the central object are the functions for a
    position, taken at the centre pixel
    [(shape[0] / 2, shape[1] / 2)] (cut to integers). *)
Theorem seg_cen_obj_is_obj_at_centre (seg : ndarray Z) :
  seg_index_obj seg (inject_Z (Z.of_nat (centre seg).1))
                    (inject_Z (Z.of_nat (centre seg).2)) =
    seg_index_cen_obj seg /\
  seg_remove_obj seg (inject_Z (Z.of_nat (centre seg).1))
                     (inject_Z (Z.of_nat (centre seg).2)) =
    seg_remove_cen_obj seg.
Proof.
  unfold seg_index_obj, seg_remove_obj, seg_index_cen_obj, seg_remove_cen_obj.
  rewrite !Qtruncate_Z, getitem2_int_centre. split; reflexivity.
Qed.

Lemma axis_index_spec (n : nat) (i : Z) :
  if ((- Z.of_nat n <=? i) && (i <? Z.of_nat n))%Z
  then axis_index n i = Return (Z.to_nat (i mod Z.of_nat n))
  else axis_index n i = Raise IndexError.
Proof.
  unfold axis_index.
  destruct (Z.leb_spec (- Z.of_nat n) i) as [Hlo|Hlo],
           (Z.ltb_spec i (Z.of_nat n)) as [Hhi|Hhi]; cbn [andb];
    destruct (Z.ltb_spec i 0) as [Hneg|Hpos].
  - destruct (Z.ltb_spec (i + Z.of_nat n) 0); [lia|].
    destruct (Z.leb_spec (Z.of_nat n) (i + Z.of_nat n)); [lia|]. cbn [orb].
    do 2 f_equal. rewrite <- (Z_mod_plus_full i 1), Z.mod_small; lia.
  - destruct (Z.ltb_spec i 0); [lia|].
    destruct (Z.leb_spec (Z.of_nat n) i); [lia|]. cbn [orb].
    rewrite Z.mod_small by lia. reflexivity.
  - lia.
  - destruct (Z.ltb_spec i 0); [lia|].
    destruct (Z.leb_spec (Z.of_nat n) i); [|lia]. reflexivity.
  - destruct (Z.ltb_spec (i + Z.of_nat n) 0); [|lia]. reflexivity.
  - lia.
  - destruct (Z.ltb_spec (i + Z.of_nat n) 0); [|lia]. reflexivity.
  - lia.
Qed.

(** X19.  [seg_index_obj] and [seg_remove_obj] read the pixel at the
    position cut to integers, a negative coordinate counting from the
    end of its axis; they return when the position addresses a pixel and
    fail with IndexError otherwise. *)
Theorem seg_obj_position (seg : ndarray Z) (x y : Q) :
  wf_array seg ->
  if addresses seg x y then
    exists obj,
      getitem2 seg (Z.to_nat (Qtruncate x mod Z.of_nat (shape seg).1))
                   (Z.to_nat (Qtruncate y mod Z.of_nat (shape seg).2))
        = Return obj /\
      seg_index_obj seg x y =
        Return (if Z.eqb obj 0 then None
                else Some (arr_map (fun v => Z.eqb v obj) seg)) /\
      seg_remove_obj seg x y =
        Return (arr_map (fun v => if Z.eqb v obj then 0%Z else v) seg)
  else seg_index_obj seg x y = Raise IndexError /\
       seg_remove_obj seg x y = Raise IndexError.
Proof.
  intros Hwf. unfold addresses, seg_index_obj, seg_remove_obj, getitem2_int.
  pose proof (axis_index_spec (shape seg).1 (Qtruncate x)) as Hx.
  pose proof (axis_index_spec (shape seg).2 (Qtruncate y)) as Hy.
  set (rows := (shape seg).1) in *. set (cols := (shape seg).2) in *.
  destruct ((- Z.of_nat rows <=? Qtruncate x)%Z &&
            (Qtruncate x <? Z.of_nat rows)%Z) eqn:Ex; cbn [andb].
  - rewrite Hx.
    destruct ((- Z.of_nat cols <=? Qtruncate y)%Z) eqn:Ey1; cbn [andb] in *.
    + destruct ((Qtruncate y <? Z.of_nat cols)%Z) eqn:Ey2.
      * rewrite Hy.
        apply andb_true_iff in Ex. destruct Ex as [Ex1 Ex2].
        apply Z.leb_le in Ex1, Ey1. apply Z.ltb_lt in Ex2, Ey2.
        destruct (getitem2_returns seg
                    (Z.to_nat (Qtruncate x mod Z.of_nat rows))
                    (Z.to_nat (Qtruncate y mod Z.of_nat cols)) Hwf)
          as [obj Hobj].
        { fold rows. pose proof (Z.mod_pos_bound (Qtruncate x) (Z.of_nat rows)).
          lia. }
        { fold cols. pose proof (Z.mod_pos_bound (Qtruncate y) (Z.of_nat cols)).
          lia. }
        exists obj. split; [exact Hobj|].
        unfold mbind, result_bind. cbv beta iota. rewrite Hobj.
        rewrite remove_label_run.
        destruct (Z.eqb obj 0); split; reflexivity.
      * rewrite Hy. split; reflexivity.
    + rewrite Hy. split; reflexivity.
  - rewrite Hx. split; reflexivity.
Qed.

Lemma seg_obj_position_witness :
  if addresses seg_two 0.5 (- (2)) then
    exists obj,
      getitem2 seg_two
        (Z.to_nat (Qtruncate 0.5 mod Z.of_nat (shape seg_two).1))
        (Z.to_nat (Qtruncate (- (2)) mod Z.of_nat (shape seg_two).2))
        = Return obj /\
      seg_index_obj seg_two 0.5 (- (2)) =
        Return (if Z.eqb obj 0 then None
                else Some (arr_map (fun v => Z.eqb v obj) seg_two)) /\
      seg_remove_obj seg_two 0.5 (- (2)) =
        Return (arr_map (fun v => if Z.eqb v obj then 0%Z else v) seg_two)
  else seg_index_obj seg_two 0.5 (- (2)) = Raise IndexError /\
       seg_remove_obj seg_two 0.5 (- (2)) = Raise IndexError.
Proof.
  apply (seg_obj_position seg_two 0.5 (- (2))).
  reflexivity.
Defined.

(** ** Angular distances *)

(** Identities of rational arithmetic that hold on the representation. *)
Lemma Qmult_comm_eq (a b : Q) : (a * b = b * a)%Q.
Proof.
  destruct a as [an ad], b as [bn bd]. unfold Qmult. cbn [Qnum Qden].
  f_equal; [apply Z.mul_comm|apply Pos.mul_comm].
Qed.

Lemma Qminus_swap (a b : Q) : (b - a = - (a - b))%Q.
Proof.
  destruct a as [an ad], b as [bn bd].
  unfold Qminus, Qplus, Qopp. cbn [Qnum Qden].
  f_equal; [ring|apply Pos.mul_comm].
Qed.

Lemma Qsquare_opp (q : Q) : ((- q) ^ 2 = q ^ 2)%Q.
Proof.
  destruct q as [n d]. unfold Qpower, Qpower_positive, pow_pos, Qmult, Qopp.
  cbn [Qnum Qden]. f_equal. ring.
Qed.

Section AngularDistanceFacts.
Context `{Numpy} `{Math}.

Hypothesis cos_agrees : forall x, math_cos x = np_cos x.
Hypothesis sin_agrees : forall x, math_sin x = np_sin x.
Hypothesis sqrt_agrees : forall x, math_sqrt x = np_sqrt x.
Hypothesis atan2_agrees : forall x y, math_atan2 x y = np_arctan2 x y.

Lemma angular_distance_element (ra_1 dec_1 ra_2 dec_2 : Q) :
  (np_arctan2
     (np_sqrt (sum_squares (np_cross (xyz ra_1 dec_1) (xyz ra_2 dec_2))))
     (np_dot (xyz ra_1 dec_1) (xyz ra_2 dec_2)) / deg2rad * 3600)%Q =
  angular_distance_single ra_1 dec_1 ra_2 dec_2.
Proof.
  unfold angular_distance_single, xyz, np_cross, np_dot, sum_squares, deg2rad.
  cbv zeta. rewrite !cos_agrees, !sin_agrees, sqrt_agrees, atan2_agrees.
  set (d1 := (dec_1 * (math_pi / 180))%Q).
  set (r1 := (ra_1 * (math_pi / 180))%Q).
  set (d2 := (dec_2 * (math_pi / 180))%Q).
  set (r2 := (ra_2 * (math_pi / 180))%Q).
  set (x_1 := (np_cos d1 * np_cos r1)%Q). set (y_1 := (np_cos d1 * np_sin r1)%Q).
  set (x_2 := (np_cos d2 * np_cos r2)%Q). set (y_2 := (np_cos d2 * np_sin r2)%Q).
  set (z_1 := np_sin d1). set (z_2 := np_sin d2).
  rewrite (Qminus_swap (x_1 * z_2) (z_1 * x_2)).
  rewrite (Qmult_comm_eq x_2 x_1), (Qmult_comm_eq y_2 y_1),
          (Qmult_comm_eq z_2 z_1).
  reflexivity.
Qed.

(** X20.  When the functions of [math] and those of [numpy] agree on
    numbers, [angular_distance] from a point to an array of points is, at
    each position, [angular_distance_single] from the point to the point
    at that position. *)
Theorem angular_distance_pointwise (ra_1 dec_1 : Q)
    (ra_arr_2 dec_arr_2 : list Q) :
  length ra_arr_2 = length dec_arr_2 ->
  angular_distance ra_1 dec_1 ra_arr_2 dec_arr_2 =
  zip_with (angular_distance_single ra_1 dec_1) ra_arr_2 dec_arr_2.
Proof.
  intros Hlen. unfold angular_distance. cbv zeta.
  revert dec_arr_2 Hlen.
  induction ra_arr_2 as [|ra_2 ras IH]; intros [|dec_2 decs] Hlen;
    try discriminate; [reflexivity|].
  cbn [zip zip_with map fst snd]. f_equal.
  - apply angular_distance_element.
  - apply IH. simpl in Hlen. lia.
Qed.
End AngularDistanceFacts.

Lemma angular_distance_pointwise_witness :
  @angular_distance approx_numpy 10 0 [10; 10] [0; 1 # 360] =
  zip_with (@angular_distance_single approx_numpy approx_math 10 0)
           [10; 10] [0; 1 # 360].
Proof.
  apply (@angular_distance_pointwise approx_numpy approx_math).
  - intros x. reflexivity.
  - intros x. reflexivity.
  - intros x. reflexivity.
  - intros x y. reflexivity.
  - reflexivity.
Defined.

(** X21.  [angular_distance_single] is symmetric: the distance from the
    first point to the second is the distance from the second to the
    first. *)
Theorem angular_distance_single_symmetric `{Numpy} `{Math}
    (ra_1 dec_1 ra_2 dec_2 : Q) :
  angular_distance_single ra_1 dec_1 ra_2 dec_2 =
  angular_distance_single ra_2 dec_2 ra_1 dec_1.
Proof.
  unfold angular_distance_single. cbv zeta.
  set (d1 := (dec_1 * (math_pi / 180))%Q).
  set (r1 := (ra_1 * (math_pi / 180))%Q).
  set (d2 := (dec_2 * (math_pi / 180))%Q).
  set (r2 := (ra_2 * (math_pi / 180))%Q).
  set (x_1 := (math_cos d1 * math_cos r1)%Q).
  set (y_1 := (math_cos d1 * math_sin r1)%Q).
  set (x_2 := (math_cos d2 * math_cos r2)%Q).
  set (y_2 := (math_cos d2 * math_sin r2)%Q).
  set (z_1 := math_sin d1). set (z_2 := math_sin d2).
  rewrite (Qmult_comm_eq x_2 x_1), (Qmult_comm_eq y_2 y_1),
          (Qmult_comm_eq z_2 z_1).
  rewrite (Qmult_comm_eq y_2 z_1), (Qmult_comm_eq z_2 y_1),
          (Qmult_comm_eq x_2 z_1), (Qmult_comm_eq z_2 x_1),
          (Qmult_comm_eq x_2 y_1), (Qmult_comm_eq y_2 x_1).
  rewrite (Qminus_swap (y_1 * z_2) (z_1 * y_2)).
  rewrite (Qminus_swap (x_1 * z_2) (z_1 * x_2)).
  rewrite (Qminus_swap (y_1 * x_2) (x_1 * y_2)).
  rewrite !Qsquare_opp.
  reflexivity.
Qed.

(** ** The pair counter, further *)

Lemma column_cases (cat : list (gmap string Q)) (col : string) :
  (Forall (fun row => is_Some (row !! col)) cat /\ returns (column cat col)) \/
  (~ Forall (fun row => is_Some (row !! col)) cat /\
   column cat col = Raise KeyError).
Proof.
  unfold column. induction cat as [|row cat IH].
  - left. split; [constructor|]. exists []. reflexivity.
  - destruct IH as [[Hall [vs Hvs]]|[Hnot Hraise]]; simpl.
    + rewrite Hvs. unfold getitem.
      destruct (row !! col) as [v|] eqn:Hv.
      * left. split; [constructor; [eexists; exact Hv|exact Hall]|].
        eexists. reflexivity.
      * right. split; [|reflexivity].
        intros Hall'. apply Forall_cons in Hall'.
        destruct Hall' as [[v' Hv'] _]. congruence.
    + rewrite Hraise. right. split.
      * intros Hall. apply Forall_cons in Hall. tauto.
      * unfold getitem. destruct (row !! col); reflexivity.
Qed.

Section PairMatchErrors.
Context `{Numpy} `{Cosmology}.

Lemma projected_sep_cases (c : cosmo) (z_col ra_col dec_col : string)
    (obj1 : gmap string Q) (cat2 : list (gmap string Q)) :
  (has_columns [z_col; ra_col; dec_col] obj1 /\
   Forall (has_columns [ra_col; dec_col]) cat2 /\
   returns (projected_sep c z_col ra_col dec_col obj1 cat2)) \/
  (~ (has_columns [z_col; ra_col; dec_col] obj1 /\
      Forall (has_columns [ra_col; dec_col]) cat2) /\
   projected_sep c z_col ra_col dec_col obj1 cat2 = Raise KeyError).
Proof.
  assert (Hcols : Forall (has_columns [ra_col; dec_col]) cat2 <->
                  Forall (fun row => is_Some (row !! ra_col)) cat2 /\
                  Forall (fun row => is_Some (row !! dec_col)) cat2).
  { unfold has_columns. rewrite !Forall_forall. split.
    - intros Hall. split; intros row Hrow; specialize (Hall row Hrow);
        rewrite !Forall_cons in Hall; tauto.
    - intros [Hra Hdec] row Hrow. rewrite !Forall_cons.
      split; [apply Hra, Hrow|]. split; [apply Hdec, Hrow|constructor]. }
  unfold has_columns at 1 3. rewrite !Forall_cons, Hcols.
  unfold projected_sep, getitem.
  destruct (obj1 !! z_col) as [z|] eqn:Hz;
    [|right; split; [intros [([? ?] & _) _]; discriminate|reflexivity]].
  destruct (obj1 !! ra_col) as [ra|] eqn:Hra;
    [|right; split; [intros [(_ & [? ?] & _) _]; discriminate|reflexivity]].
  destruct (obj1 !! dec_col) as [de|] eqn:Hde;
    [|right; split; [intros [(_ & _ & [? ?] & _) _]; discriminate|reflexivity]].
  cbn [mbind result_bind]. unfold mbind, result_bind. cbv beta iota.
  destruct (column_cases cat2 ra_col) as [[Hr [ras Hras]]|[Hr Hras]]; rewrite Hras;
    [|right; split; [tauto|reflexivity]].
  destruct (column_cases cat2 dec_col) as [[Hd [des Hdes]]|[Hd Hdes]]; rewrite Hdes;
    [|right; split; [tauto|reflexivity]].
  left. split; [|split; [tauto|eexists; reflexivity]].
  repeat split; try (eexists; reflexivity). constructor.
Qed.

Lemma projected_sep_columns (c : cosmo) (z_col ra_col dec_col : string)
    (cat1 cat2 : list (gmap string Q)) (seps : list (list Q)) :
  Forall2 (fun obj1 sep =>
             projected_sep c z_col ra_col dec_col obj1 cat2 = Return sep)
          cat1 seps ->
  Forall (has_columns [z_col; ra_col; dec_col]) cat1 /\
  (cat1 <> [] -> Forall (has_columns [ra_col; dec_col]) cat2).
Proof.
  induction 1 as [|obj1 sep cat1 seps Hsep _ [IH1 IH2]].
  - split; [constructor|congruence].
  - destruct (projected_sep_cases c z_col ra_col dec_col obj1 cat2)
      as [(Hobj & Hcat2 & _)|[_ Hraise]]; [|congruence].
    split; [constructor; assumption|intros _; exact Hcat2].
Qed.

(** The loop returns when every iteration has its columns, and stops with
    KeyError at the first one that has not. *)
Lemma pair_match_loop_cases (cat1 cat2 : list (gmap string Q))
    (z_col : string) (r_kpc : Q) (c : cosmo) (ra_col dec_col : string)
    (include : bool) (acc : list Z * list (list nat)) :
  (exists seps,
     Forall2 (fun obj1 sep =>
                projected_sep c z_col ra_col dec_col obj1 cat2 = Return sep)
             cat1 seps) \/
  (~ (Forall (has_columns [z_col; ra_col; dec_col]) cat1 /\
      Forall (has_columns [ra_col; dec_col]) cat2) /\
   for_each (pair_match_body cat2 z_col r_kpc c ra_col dec_col include)
            cat1 acc = Raise KeyError).
Proof.
  revert acc. induction cat1 as [|obj1 cat1 IH]; intros acc.
  - left. exists []. constructor.
  - destruct acc as [num_pair index_pair].
    destruct (projected_sep_cases c z_col ra_col dec_col obj1 cat2)
      as [(Hobj & Hcat2 & [sep Hsep])|[Hnot Hraise]].
    + destruct (IH ([], [])) as [[seps Hseps]|[Hnot _]].
      * left. exists (sep :: seps). constructor; assumption.
      * right. split.
        { intros [Hall Hc2]. apply Forall_cons in Hall. tauto. }
        simpl. rewrite Hsep. simpl.
        match goal with
        | |- for_each _ _ ?acc' = _ =>
            destruct (IH acc') as [[seps Hseps]|[_ Hraise]]
        end; [|exact Hraise].
        exfalso. apply Hnot. split; [|exact Hcat2].
        apply (projected_sep_columns _ _ _ _ _ _ _ Hseps).
    + right. split.
      * intros [Hall Hc2]. apply Forall_cons in Hall. tauto.
      * simpl. rewrite Hraise. reflexivity.
Qed.

(** X22.  With a catalog 2 that has a row at least,
    [table_pair_match_physical] fails with KeyError only.  It returns
    exactly when catalog 1 is empty, or every object of catalog 1 has the
    redshift and the two coordinate columns and every object of catalog 2
    has the two coordinate columns. *)
Theorem pair_count_key_error (cat1 cat2 : list (gmap string Q))
    (z_col : string) (r_kpc : Q) (c : cosmo) (ra_col dec_col : string)
    (include : bool) :
  cat2 <> [] ->
  (returns (table_pair_match_physical cat1 cat2 z_col r_kpc c ra_col dec_col
              include) <->
   cat1 = [] \/
   (Forall (has_columns [z_col; ra_col; dec_col]) cat1 /\
    Forall (has_columns [ra_col; dec_col]) cat2)) /\
  (forall e,
     table_pair_match_physical cat1 cat2 z_col r_kpc c ra_col dec_col include
       = Raise e -> e = KeyError).
Proof.
  intros _. unfold table_pair_match_physical.
  destruct (pair_match_loop_cases cat1 cat2 z_col r_kpc c ra_col dec_col
              include ([], [])) as [[seps Hseps]|[Hnot Hraise]].
  - rewrite (pair_match_loop _ _ _ _ _ _ _ _ seps Hseps). split.
    + split; [intros _|intros _; eexists; reflexivity].
      destruct (projected_sep_columns _ _ _ _ _ _ _ Hseps) as [H1' H2'].
      destruct cat1 as [|obj1 cat1]; [left; reflexivity|right].
      split; [exact H1'|apply H2'; discriminate].
    + intros e He. discriminate.
  - rewrite Hraise. split.
    + split; [intros [? ?]; discriminate|].
      intros [->|Hall]; [|tauto]. discriminate Hraise.
    + intros e He. inversion He. reflexivity.
Qed.

Lemma pair_match_seps (cat1 cat2 : list (gmap string Q))
    (z_col : string) (r_kpc : Q) (c : cosmo) (ra_col dec_col : string)
    (include : bool) (res : list Z * list (list nat)) :
  table_pair_match_physical cat1 cat2 z_col r_kpc c ra_col dec_col include
    = Return res ->
  exists seps,
    Forall2 (fun obj1 sep =>
               projected_sep c z_col ra_col dec_col obj1 cat2 = Return sep)
            cat1 seps.
Proof.
  unfold table_pair_match_physical. intros Hret.
  destruct (pair_match_loop_cases cat1 cat2 z_col r_kpc c ra_col dec_col
              include ([], [])) as [Hseps|[_ Hraise]]; [exact Hseps|].
  congruence.
Qed.

Lemma np_where_wider (r_kpc r_kpc' : Q) (sep : list Q) :
  (r_kpc <= r_kpc')%Q ->
  np_where (map (fun d => Qltb d r_kpc) sep) ⊆
  np_where (map (fun d => Qltb d r_kpc') sep).
Proof.
  intros Hle j. rewrite !np_where_lookup, !within_lookup.
  intros (d & Hd & Hlt). exists d. split; [exact Hd|lra].
Qed.

Lemma np_sum_bool_wider (r_kpc r_kpc' : Q) (sep : list Q) :
  (r_kpc <= r_kpc')%Q ->
  (np_sum_bool (map (fun d => Qltb d r_kpc) sep) <=
   np_sum_bool (map (fun d => Qltb d r_kpc') sep))%Z.
Proof.
  intros Hle. rewrite !np_sum_bool_where. apply inj_le.
  apply submseteq_length, NoDup_submseteq; [apply np_where_from_NoDup|].
  apply np_where_wider, Hle.
Qed.

(** X23.  A larger radius loses no pair: when the call with [r_kpc]
    returns, the call with a radius at least as large returns too, each
    of its counts is at least the count for [r_kpc], and each of its
    index lists holds the positions listed for [r_kpc]. *)
Theorem pair_count_monotone (cat1 cat2 : list (gmap string Q))
    (z_col : string) (r_kpc r_kpc' : Q) (c : cosmo) (ra_col dec_col : string)
    (include : bool) (num_pair : list Z) (index_pair : list (list nat)) :
  (r_kpc <= r_kpc')%Q ->
  table_pair_match_physical cat1 cat2 z_col r_kpc c ra_col dec_col include
    = Return (num_pair, index_pair) ->
  exists num_pair' index_pair',
    table_pair_match_physical cat1 cat2 z_col r_kpc' c ra_col dec_col include
      = Return (num_pair', index_pair') /\
    Forall2 Z.le num_pair num_pair' /\
    Forall2 (fun idx idx' => idx ⊆ idx') index_pair index_pair'.
Proof.
  intros Hle Hret.
  destruct (pair_match_seps _ _ _ _ _ _ _ _ _ Hret) as [seps Hseps].
  unfold table_pair_match_physical in *.
  rewrite (pair_match_loop _ _ _ _ _ _ _ _ seps Hseps) in Hret.
  rewrite (pair_match_loop _ _ _ _ _ _ _ _ seps Hseps).
  apply Return_inj in Hret. injection Hret as <- <-.
  eexists _, _. split; [reflexivity|]. cbn [app].
  clear Hseps. split.
  - induction seps as [|sep seps IH]; cbn [map]; constructor; [|exact IH].
    pose proof (np_sum_bool_wider r_kpc r_kpc' sep Hle).
    cbv zeta. destruct include; lia.
  - induction seps as [|sep seps IH]; cbn [map]; constructor; [|exact IH].
    apply np_where_wider, Hle.
Qed.

(** X24.  The objects of catalog 1 are counted one by one: the result for
    two catalogs put end to end is the two results put end to end. *)
Theorem pair_count_concatenation (cat1 cat1' cat2 : list (gmap string Q))
    (z_col : string) (r_kpc : Q) (c : cosmo) (ra_col dec_col : string)
    (include : bool) (num_pair num_pair' : list Z)
    (index_pair index_pair' : list (list nat)) :
  table_pair_match_physical cat1 cat2 z_col r_kpc c ra_col dec_col include
    = Return (num_pair, index_pair) ->
  table_pair_match_physical cat1' cat2 z_col r_kpc c ra_col dec_col include
    = Return (num_pair', index_pair') ->
  table_pair_match_physical (cat1 ++ cat1') cat2 z_col r_kpc c ra_col dec_col
                            include
    = Return (num_pair ++ num_pair', index_pair ++ index_pair').
Proof.
  intros Hret Hret'.
  destruct (pair_match_seps _ _ _ _ _ _ _ _ _ Hret) as [seps Hseps].
  destruct (pair_match_seps _ _ _ _ _ _ _ _ _ Hret') as [seps' Hseps'].
  unfold table_pair_match_physical in *.
  rewrite (pair_match_loop _ _ _ _ _ _ _ _ seps Hseps) in Hret.
  rewrite (pair_match_loop _ _ _ _ _ _ _ _ seps' Hseps') in Hret'.
  rewrite (pair_match_loop _ _ _ _ _ _ _ _ (seps ++ seps')
             (Forall2_app Hseps Hseps')).
  apply Return_inj in Hret, Hret'.
  injection Hret as <- <-. injection Hret' as <- <-.
  cbn [app]. rewrite !map_app. reflexivity.
Qed.
End PairMatchErrors.

Lemma pair_count_key_error_witness :
  (returns (@table_pair_match_physical approx_numpy hubble_cosmology
              [obj_a] [obj_a; obj_b] "z" 1000 cosmo_erin "ra" "dec" true) <->
   [obj_a] = [] \/
   (Forall (has_columns ["z"; "ra"; "dec"]) [obj_a] /\
    Forall (has_columns ["ra"; "dec"]) [obj_a; obj_b])) /\
  (forall e,
     @table_pair_match_physical approx_numpy hubble_cosmology
       [obj_a] [obj_a; obj_b] "z" 1000 cosmo_erin "ra" "dec" true
       = Raise e -> e = KeyError).
Proof.
  apply (@pair_count_key_error approx_numpy hubble_cosmology
           [obj_a] [obj_a; obj_b] "z" 1000 cosmo_erin "ra" "dec" true).
  discriminate.
Defined.

Lemma pair_count_monotone_witness :
  exists num_pair' index_pair',
    @table_pair_match_physical approx_numpy hubble_cosmology
       [obj_a] [obj_a; obj_far] "z" 1000000 cosmo_erin "ra" "dec" false
      = Return (num_pair', index_pair') /\
    Forall2 Z.le [1%Z] num_pair' /\
    Forall2 (fun idx idx' => idx ⊆ idx') [[0%nat]] index_pair'.
Proof.
  apply (@pair_count_monotone approx_numpy hubble_cosmology
           [obj_a] [obj_a; obj_far] "z" 1000 1000000 cosmo_erin "ra" "dec"
           false [1%Z] [[0%nat]]).
  - discriminate.
  - vm_compute. reflexivity.
Defined.

Lemma pair_count_concatenation_witness :
  @table_pair_match_physical approx_numpy hubble_cosmology
     ([obj_a] ++ [obj_b]) [obj_a; obj_far] "z" 1000 cosmo_erin "ra" "dec" true
    = Return ([0%Z] ++ [0%Z], [[0%nat]] ++ [[0%nat]]).
Proof.
  apply (@pair_count_concatenation approx_numpy hubble_cosmology
           [obj_a] [obj_b] [obj_a; obj_far] "z" 1000 cosmo_erin "ra" "dec"
           true [0%Z] [0%Z] [[0%nat]] [[0%nat]]).
  - vm_compute. reflexivity.
  - vm_compute. reflexivity.
Defined.

(** ** Unit conversions *)

(** X25.  With a non-zero [np.pi], [rad2deg] and [deg2rad] undo each
    other. *)
Theorem rad2deg_deg2rad `{Numpy} (x : Q) :
  ~ math_pi == 0 ->
  Convert.rad2deg (Convert.deg2rad x) == x /\
  Convert.deg2rad (Convert.rad2deg x) == x.
Proof.
  intros Hpi. unfold Convert.rad2deg, Convert.deg2rad.
  split; field; exact Hpi.
Qed.

Lemma rad2deg_deg2rad_witness :
  @Convert.rad2deg approx_numpy (@Convert.deg2rad approx_numpy 90) == 90 /\
  @Convert.deg2rad approx_numpy (@Convert.rad2deg approx_numpy 90) == 90.
Proof.
  apply (@rad2deg_deg2rad approx_numpy 90).
  discriminate.
Defined.

(** X26.  [hr2deg] and [deg2hr] undo each other; [hr2deg] divides its
    argument by 15 (it turns degrees into hours), [deg2hr] multiplies by
    15. *)
Theorem hr2deg_deg2hr (x : Q) :
  Convert.hr2deg (Convert.deg2hr x) == x /\
  Convert.deg2hr (Convert.hr2deg x) == x /\
  Convert.hr2deg x == x / 15.
Proof.
  unfold Convert.hr2deg, Convert.deg2hr.
  repeat split; field.
Qed.

(** ** image_clean_up and its flag verbose *)

Section Quiet.
Context `{Sep} `{RandomNormal} `{Display}.

Lemma quieter_bind {A B : Type} (m1 m2 : M A) (f1 f2 : A -> M B) :
  quieter m1 m2 -> (forall a, quieter (f1 a) (f2 a)) ->
  quieter (m1 ≫= f1) (m2 ≫= f2).
Proof.
  intros Hm Hf s1 s2 Hh Hg. specialize (Hm s1 s2 Hh Hg).
  unfold mbind, M_bind, agree_but_output in *.
  destruct (m1 s1) as [[a1 s1']|e1], (m2 s2) as [[a2 s2']|e2];
    try contradiction; [|exact Hm].
  destruct Hm as (-> & Hh' & Hg' & Hout).
  specialize (Hf a2 s1' s2' Hh' Hg'). unfold agree_but_output in Hf.
  rewrite Hout in Hf. exact Hf.
Qed.

Lemma quieter_ret {A : Type} (a : A) : quieter (mret a) (mret a).
Proof. intros s1 s2 Hh Hg. cbn. auto. Qed.

Lemma quieter_lift {A : Type} (r : result A) : quieter (lift r) (lift r).
Proof. intros s1 s2 Hh Hg. unfold lift. destruct r; cbn; auto. Qed.

Lemma quieter_load (l : positive) : quieter (load l) (load l).
Proof.
  intros s1 s2 Hh Hg. unfold load. rewrite Hh.
  destruct (heap s2 !! l); cbn; auto.
Qed.

Lemma quieter_load_opt (l : option positive) : quieter (load_opt l) (load_opt l).
Proof.
  destruct l as [l|]; cbn [load_opt]; [|apply quieter_ret].
  apply quieter_bind; [apply quieter_load|intros a; apply quieter_ret].
Qed.

Lemma quieter_alloc (a : ndarray Q) : quieter (alloc a) (alloc a).
Proof. intros s1 s2 Hh Hg. unfold alloc. rewrite Hh. cbn. auto. Qed.

Lemma quieter_deepcopy (l : positive) : quieter (deepcopy l) (deepcopy l).
Proof.
  unfold deepcopy.
  apply quieter_bind; [apply quieter_load|intros a; apply quieter_alloc].
Qed.

Lemma quieter_setitem_mask (l : positive) (mask : ndarray bool) (vals : list Q) :
  quieter (setitem_mask l mask vals) (setitem_mask l mask vals).
Proof.
  intros s1 s2 Hh Hg. unfold setitem_mask. rewrite Hh.
  destruct (heap s2 !! l) as [a|]; [|cbn; auto].
  destruct (mask_set a mask vals); cbn; auto.
Qed.

Lemma quieter_random_normal (loc scale : normal_arg) (size : nat * nat) :
  quieter (random_normal loc scale size) (random_normal loc scale size).
Proof.
  intros s1 s2 Hh Hg. unfold random_normal. rewrite Hg.
  destruct (np_random_normal loc scale size (rng s2)); cbn; auto.
Qed.

Lemma quieter_print_if (verbose : bool) (msg : message) :
  quieter (print_if verbose msg) (print_if false msg).
Proof. intros s1 s2 Hh Hg. unfold print_if. destruct verbose; cbn; auto. Qed.

Lemma quieter_render (l : positive) (ev : everything) (kwargs : plot_kwargs) :
  quieter (render l ev kwargs) (render l ev kwargs).
Proof. intros s1 s2 Hh Hg. unfold render. rewrite Hh. cbn. auto. Qed.

Lemma image_clean_up_quieter (img : positive) (sig : option positive)
    (bad : option (ndarray bool))
    (p1 : bkg_param) (d1 : det_param) (p2 : bkg_param) (d2 : det_param)
    (p3 : bkg_param) (d3 : det_param) (verbose visual diagnose : bool)
    (kwargs : plot_kwargs) :
  quieter
    (image_clean_up img sig bad p1 d1 p2 d2 p3 d3 verbose visual diagnose kwargs)
    (image_clean_up img sig bad p1 d1 p2 d2 p3 d3 false visual diagnose kwargs).
Proof.
  unfold image_clean_up.
  repeat
    match goal with
    | |- quieter (mbind _ _) (mbind _ _) => apply quieter_bind; [|intros ?]
    | |- quieter (match ?e with _ => _ end) _ => destruct e
    | |- quieter _ _ =>
        first [ apply quieter_load | apply quieter_load_opt
              | apply quieter_lift | apply quieter_print_if
              | apply quieter_random_normal | apply quieter_deepcopy
              | apply quieter_setitem_mask | apply quieter_ret
              | apply quieter_render ]
    end.
Qed.

(** X27.  The flag [verbose] changes what [image_clean_up] prints and
    nothing else: a call with it and the call without it end alike, with
    the same error, or with the same return value, the same arrays in
    memory and the same generator state; and the call without it prints
    nothing. *)
Theorem image_clean_up_verbose_prints_only (img : positive)
    (sig : option positive) (bad : option (ndarray bool))
    (p1 : bkg_param) (d1 : det_param) (p2 : bkg_param) (d2 : det_param)
    (p3 : bkg_param) (d3 : det_param) (verbose visual diagnose : bool)
    (kwargs : plot_kwargs) (s : store) :
  agree_but_output
    (image_clean_up img sig bad p1 d1 p2 d2 p3 d3 verbose visual diagnose
       kwargs s)
    (image_clean_up img sig bad p1 d1 p2 d2 p3 d3 false visual diagnose
       kwargs s)
    (stdout s).
Proof. apply image_clean_up_quieter; reflexivity. Qed.
End Quiet.

(** ** weighted_median: the value without a dominant weight *)

(** The walk along the pairs sorted by datum, up to the first pair at
    which the running sum of the weights passes the midpoint. *)
Lemma weighted_median_crossing (np_median : list Q -> Q)
    (data weights : list Q) :
  length data = length weights ->
  any_gt ((1 # 2) * py_sum weights) weights = false ->
  any_gt 0 weights = true ->
  exists k a b r,
    (py_sorted (zip data weights)).*1 !! k = Some a /\
    (py_sorted (zip data weights)).*1 !! S k = Some b /\
    (forall j, (j <= S k)%nat ->
       py_sum (take j (py_sorted (zip data weights)).*2)
       <= (1 # 2) * py_sum weights) /\
    (1 # 2) * py_sum weights
    < py_sum (take (S (S k)) (py_sorted (zip data weights)).*2) /\
    weighted_median np_median data (Some weights) = Return (Some r) /\
    r == (a + b) / 2.
Proof.
  intros Hlen Hmid Hpos. unfold weighted_median. cbv zeta.
  set (midpoint := (1 # 2) * py_sum weights) in *.
  rewrite Hmid, Hpos.
  apply any_gt_le in Hmid. apply any_gt_true in Hpos.
  destruct Hpos as (k0 & w0 & Hk0 & Hw0).
  assert (Hmidpos : 0 < midpoint).
  { rewrite Forall_lookup in Hmid. specialize (Hmid k0 w0 Hk0).
    cbv beta in Hmid. lra. }
  pose proof (py_sorted_perm (zip data weights)) as Hperm.
  set (pairs := py_sorted (zip data weights)) in *. clearbody pairs.
  assert (Hw : pairs.*2 ≡ₚ weights).
  { rewrite Hperm. rewrite snd_zip by lia. reflexivity. }
  assert (Hn : length pairs = length weights).
  { rewrite <- (length_fmap snd pairs). apply Permutation_length, Hw. }
  destruct pairs as [|p0 pairs'].
  { apply lookup_lt_Some in Hk0. simpl in Hn. lia. }
  set (pairs := p0 :: pairs') in *. clearbody pairs. clear p0 pairs'.
  assert (Hsum : py_sum pairs.*2 == 2 * midpoint).
  { rewrite (py_sum_perm _ _ Hw). unfold midpoint. ring. }
  assert (Hall : Forall (fun w => w <= midpoint) pairs.*2).
  { rewrite Hw. exact Hmid. }
  destruct (accumulate_weights_stops midpoint pairs.*2 0 0)
    as (c' & k & Hrun & Hk & Hc & Heq & Hbelow); [lra|].
  rewrite Hrun. clear Hrun. rewrite Z.add_0_l.
  cbn [mbind result_bind]. unfold mbind at 1, result_bind at 1.
  cbv beta iota.
  assert (Hk2 : (2 <= k)%nat).
  { destruct k as [|[|k]]; [| |lia].
    - cbn [take] in Heq. unfold py_sum in Heq. simpl in Heq. lra.
    - destruct (pairs.*2) as [|w1 ws] eqn:Hws; [simpl in Hk; lia|].
      cbn [take] in Heq. rewrite py_sum_cons in Heq.
      unfold py_sum at 1 in Heq. simpl in Heq.
      apply Forall_cons in Hall. destruct Hall as [Hw1 _]. lra. }
  rewrite length_fmap in Hk.
  destruct k as [|[|k]]; [lia|lia|]. clear Hk2.
  replace (Z.of_nat (S (S k)) - 1)%Z with (Z.of_nat (S k)) by lia.
  rewrite !py_index_nat.
  destruct (lookup_lt_is_Some_2 pairs.*2 (S k)) as [w Hwk];
    [rewrite length_fmap; lia|].
  rewrite Hwk. cbv beta iota.
  destruct (lookup_lt_is_Some_2 pairs.*1 k) as [a Ha];
    [rewrite length_fmap; lia|].
  destruct (lookup_lt_is_Some_2 pairs.*1 (S k)) as [b Hb];
    [rewrite length_fmap; lia|].
  assert (Hprev : c' - w == 0 + py_sum (take (S k) pairs.*2)).
  { rewrite Heq, (take_S_r _ _ w Hwk), <- fold_left_Qplus.
    unfold py_sum. rewrite fold_left_app. cbn [fold_left].
    rewrite !fold_left_Qplus. ring. }
  assert (Hle : c' - w <= midpoint).
  { rewrite Hprev. apply Hbelow. lia. }
  assert (Htest : Qltb (c' - w - midpoint) float_epsilon = true).
  { apply Qltb_lt. unfold float_epsilon.
    assert (Heps : 0 < 1 # 4503599627370496) by reflexivity.
    set (eps := 1 # 4503599627370496) in *. clearbody eps.
    set (cw := c' - w) in *. clearbody cw midpoint.
    clear - Hle Heps. lra. }
  rewrite Htest.
  assert (Hbounds : py_slice pairs.*1 (Z.of_nat (S (S k)) - 2)
                             (Z.of_nat (S (S k))) = [a; b]).
  { unfold py_slice, py_slice_bound. rewrite length_fmap.
    destruct (Z.ltb_spec (Z.of_nat (S (S k)) - 2) 0); [lia|].
    destruct (Z.ltb_spec (Z.of_nat (S (S k))) 0); [lia|].
    replace (Z.to_nat (Z.min (Z.of_nat (S (S k))) (Z.of_nat (length pairs)) -
                       Z.min (Z.of_nat (S (S k)) - 2) (Z.of_nat (length pairs))))
      with 2%nat by lia.
    replace (Z.to_nat (Z.min (Z.of_nat (S (S k)) - 2) (Z.of_nat (length pairs))))
      with k by lia.
    rewrite (drop_S _ a k Ha).
    assert (Hb' : drop (S k) pairs.*1 !! 0%nat = Some b).
    { rewrite lookup_drop, Nat.add_0_r. exact Hb. }
    destruct (drop (S k) pairs.*1) as [|b' rest]; [discriminate|].
    injection Hb' as ->. reflexivity. }
  rewrite Hbounds.
  exists k, a, b, (py_sum [a; b] / inject_Z (Z.of_nat (length [a; b]))).
  split; [exact Ha|]. split; [exact Hb|]. split.
  { intros j Hj. specialize (Hbelow j ltac:(lia)). lra. }
  split.
  { rewrite Heq in Hc. lra. }
  split; [reflexivity|].
  unfold py_sum. cbn [fold_left length]. 
  change (inject_Z (Z.of_nat 2)) with 2. field.
Qed.

(** X28.  For integer weights, whose sums and comparisons are exact in
    the program (their sum at most 2**53): when no weight exceeds half of
    the sum of the weights and some weight is positive (as many weights
    as data), [weighted_median] walks the pairs sorted by datum up to the
    first one at which the running sum of the weights passes half of the
    total, and returns the mean of the datum of that pair and the datum
    before it.  The test before the last [return] holds then: the datum
    of the pair alone is not returned. *)
Theorem weighted_median_mean_of_two (np_median : list Q -> Q)
    (data : list Q) (ws : list Z) :
  length data = length ws ->
  py_sum (map inject_Z ws) <= inject_Z (2 ^ 53) ->
  any_gt ((1 # 2) * py_sum (map inject_Z ws)) (map inject_Z ws) = false ->
  any_gt 0 (map inject_Z ws) = true ->
  exists k a b r,
    (py_sorted (zip data (map inject_Z ws))).*1 !! k = Some a /\
    (py_sorted (zip data (map inject_Z ws))).*1 !! S k = Some b /\
    (forall j, (j <= S k)%nat ->
       py_sum (take j (py_sorted (zip data (map inject_Z ws))).*2)
       <= (1 # 2) * py_sum (map inject_Z ws)) /\
    (1 # 2) * py_sum (map inject_Z ws)
    < py_sum (take (S (S k)) (py_sorted (zip data (map inject_Z ws))).*2) /\
    weighted_median np_median data (Some (map inject_Z ws)) = Return (Some r) /\
    r == (a + b) / 2.
Proof.
  intros Hlen _ Hmid Hpos.
  apply weighted_median_crossing; [|exact Hmid|exact Hpos].
  rewrite length_map. exact Hlen.
Qed.

Lemma weighted_median_mean_of_two_witness :
  exists k a b r,
    (py_sorted (zip [1; 2; 3] (map inject_Z [1; 1; 1]%Z))).*1 !! k = Some a /\
    (py_sorted (zip [1; 2; 3] (map inject_Z [1; 1; 1]%Z))).*1 !! S k = Some b /\
    (forall j, (j <= S k)%nat ->
       py_sum (take j (py_sorted (zip [1; 2; 3] (map inject_Z [1; 1; 1]%Z))).*2)
       <= (1 # 2) * py_sum (map inject_Z [1; 1; 1]%Z)) /\
    (1 # 2) * py_sum (map inject_Z [1; 1; 1]%Z)
    < py_sum (take (S (S k))
                (py_sorted (zip [1; 2; 3] (map inject_Z [1; 1; 1]%Z))).*2) /\
    weighted_median median [1; 2; 3] (Some (map inject_Z [1; 1; 1]%Z))
    = Return (Some r) /\
    r == (a + b) / 2.
Proof.
  apply (weighted_median_mean_of_two median [1; 2; 3] [1; 1; 1]%Z);
    [reflexivity|discriminate|reflexivity|reflexivity].
Defined.

(** ** numpy_weighted_median against weighted_median *)

Lemma py_sum_app (l l' : list Q) : py_sum (l ++ l') == py_sum l + py_sum l'.
Proof.
  induction l as [|x l IH]; cbn [app].
  - unfold py_sum at 2. simpl. ring.
  - rewrite !py_sum_cons, IH. ring.
Qed.

Lemma prefix_sum_mono (l : list Q) (j j' : nat) :
  Forall (fun v => 0 <= v) l -> (j <= j')%nat ->
  py_sum (take j l) <= py_sum (take j' l).
Proof.
  intros Hall Hle.
  replace j' with (j + (j' - j))%nat by lia.
  rewrite <- take_take_drop, py_sum_app.
  assert (0 <= py_sum (take (j' - j) (drop j l))).
  { apply py_sum_nonneg, Forall_take, Forall_drop, Hall. }
  lra.
Qed.

Lemma cumsum_from_length (acc : Q) (l : list Q) :
  length (cumsum_from acc l) = length l.
Proof. revert acc. induction l as [|x l IH]; intros acc; simpl; auto. Qed.

Lemma cumsum_from_lookup (acc : Q) (l : list Q) (i : nat) (c : Q) :
  cumsum_from acc l !! i = Some c -> c == acc + py_sum (take (S i) l).
Proof.
  revert acc i. induction l as [|x l IH]; intros acc [|i] Hc; try discriminate.
  - injection Hc as <-. cbn [take]. unfold py_sum. simpl. ring.
  - cbn [cumsum_from] in Hc. apply IH in Hc. rewrite Hc.
    change (take (S (S i)) (x :: l)) with (x :: take (S i) l).
    rewrite py_sum_cons. ring.
Qed.

Lemma np_cumsum_length (l : list Q) : length (np_cumsum l) = length l.
Proof. destruct l; simpl; [reflexivity|]. rewrite cumsum_from_length. auto. Qed.

Lemma np_cumsum_lookup (l : list Q) (i : nat) (c : Q) :
  np_cumsum l !! i = Some c -> c == py_sum (take (S i) l).
Proof.
  destruct l as [|x l]; [discriminate|]. destruct i as [|i]; cbn [np_cumsum].
  - intros [= <-]. cbn [take]. unfold py_sum. simpl. ring.
  - intros Hc. apply cumsum_from_lookup in Hc. rewrite Hc.
    change (take (S (S i)) (x :: l)) with (x :: take (S i) l).
    rewrite py_sum_cons. reflexivity.
Qed.

(** [np.where] on a mask that holds up to a position and not after. *)
Lemma np_where_from_initial (mask : list bool) (m i0 : nat) :
  (forall i, (i < m)%nat -> mask !! i = Some true) ->
  (forall i b, (m <= i)%nat -> mask !! i = Some b -> b = false) ->
  np_where_from i0 mask = seq i0 m.
Proof.
  revert m i0. induction mask as [|b mask IH]; intros m i0 Htrue Hfalse.
  - destruct m; [reflexivity|]. specialize (Htrue 0%nat ltac:(lia)). discriminate.
  - destruct m as [|m].
    + rewrite (Hfalse 0%nat b ltac:(lia) eq_refl). cbn [np_where_from].
      change (seq i0 0) with (seq (S i0) 0). apply (IH 0%nat).
      * intros i Hi. lia.
      * intros i b' _ Hb'. apply (Hfalse (S i) b'); [lia|exact Hb'].
    + pose proof (Htrue 0%nat ltac:(lia)) as H0. injection H0 as ->.
      cbn [np_where_from seq]. f_equal. apply IH.
      * intros i Hi. apply (Htrue (S i)). lia.
      * intros i b' Hi Hb'. apply (Hfalse (S i) b'); [lia|exact Hb'].
Qed.

Lemma py_index_last_seq (m : nat) :
  py_index (seq 0 (S m)) (-1) = Return m.
Proof.
  unfold py_index. rewrite length_seq.
  destruct (Z.ltb_spec (-1) 0) as [_|Hge]; [|lia].
  destruct (Z.ltb_spec (-1 + Z.of_nat (S m)) 0) as [Hlt|_]; [lia|].
  replace (Z.to_nat (-1 + Z.of_nat (S m))) with m by lia.
  rewrite lookup_seq_lt by lia. reflexivity.
Qed.

Lemma any_gt_comp (b b' : Q) (l : list Q) :
  b == b' -> any_gt b l = any_gt b' l.
Proof.
  intros Hb. unfold any_gt. induction l as [|x l IH]; cbn [existsb]; [reflexivity|].
  rewrite IH, (Qltb_comp b b' x x Hb) by reflexivity. reflexivity.
Qed.

(** The first element selected by a mask. *)
Lemma select_first {A : Type} (mask : list bool) (data : list A) (k : nat) (x : A) :
  (forall j, (j < k)%nat -> mask !! j = Some false) ->
  mask !! k = Some true -> data !! k = Some x ->
  select mask data !! 0%nat = Some x.
Proof.
  revert data k. induction mask as [|b mask IH]; intros [|d data] [|k] Hbefore Hk Hx;
    try discriminate.
  - injection Hk as ->. injection Hx as ->. reflexivity.
  - pose proof (Hbefore 0%nat ltac:(lia)) as H0. injection H0 as ->.
    cbn [select]. apply (IH data k); [|exact Hk|exact Hx].
    intros j Hj. apply (Hbefore (S j)). lia.
Qed.

(** A weight above half of the sum of weights that are not negative is
    the maximum, and no other weight equals it. *)
Lemma dominant_weight (weights : list Q) (k : nat) (w : Q) :
  Forall (fun v => 0 <= v) weights ->
  weights !! k = Some w -> (1 # 2) * py_sum weights < w ->
  py_max weights = Return w /\
  list_index w weights = Return (Z.of_nat k) /\
  forall j y, j <> k -> weights !! j = Some y -> y < w.
Proof.
  intros Hall Hw Hdom.
  assert (Hothers : forall j y, j <> k -> weights !! j = Some y -> y < w).
  { intros j y Hjk Hy.
    pose proof (py_sum_ge_two weights j k y w Hall Hjk Hy Hw). lra. }
  split; [|split; [|exact Hothers]].
  - destruct weights as [|v ws]; [discriminate|]. cbn [py_max].
    destruct (max_fold ws v) as [[k' Hk'] Hmax]. cbv zeta in *.
    set (m := fold_left _ ws v) in *. clearbody m.
    destruct (Nat.eq_dec k' k) as [->|Hne]; [congruence|].
    pose proof (Hothers k' m Hne Hk'). pose proof (Hmax k w Hw). lra.
  - apply list_index_first; [exact Hw|].
    intros j y Hj Hy Heq.
    assert (y < w) by (apply (Hothers j); [lia|exact Hy]). lra.
Qed.

(** On weights none of which is negative, one for each datum, the two
    functions do the same when every step is exact. *)
Lemma weighted_medians_agree_exact (np_median np_mean : list Q -> Q)
    (data weights : list Q) :
  (forall a b, np_mean [a; b] == (a + b) / 2) ->
  Forall (fun v => 0 <= v) weights ->
  length data = length weights ->
  exists r1 r2,
    weighted_median np_median data (Some weights) = Return r1 /\
    numpy_weighted_median np_median np_mean data (Some weights) = Return r2 /\
    same_value r1 r2.
Proof.
  intros Hmean Hall Hlen.
  pose proof (py_sum_nonneg weights Hall) as Hsum0.
  destruct (any_gt 0 weights) eqn:Hpos.
  2:{ (* no positive weight *)
    exists None, None. split; [|split; [|exact I]].
    - apply weighted_median_falls_through; [|exact Hpos].
      apply any_gt_false. apply any_gt_le in Hpos.
      eapply Forall_impl; [exact Hpos|]. intros w Hw. cbv beta in *. lra.
    - unfold numpy_weighted_median. rewrite Hpos. reflexivity. }
  pose proof (py_sorted_perm (zip data weights)) as Hperm.
  assert (Hw : (py_sorted (zip data weights)).*2 ≡ₚ weights).
  { rewrite Hperm. rewrite snd_zip by lia. reflexivity. }
  assert (Hmid : (1 # 2) * py_sum (py_sorted (zip data weights)).*2
                 == (1 # 2) * py_sum weights).
  { rewrite (py_sum_perm _ _ Hw). reflexivity. }
  assert (Hne : py_sorted (zip data weights) <> []).
  { intros Hnil. rewrite Hnil in Hw. apply Permutation_nil_l in Hw.
    subst weights. discriminate. }
  destruct (any_gt ((1 # 2) * py_sum weights) weights) eqn:Hdom.
  - (* a dominant weight *)
    destruct (any_gt_true _ _ Hdom) as (k & w & Hk & Hlt).
    destruct (dominant_weight weights k w Hall Hk Hlt) as (Hmax & Hidx & Hothers).
    destruct (lookup_lt_is_Some_2 data k) as [x Hx].
    { apply lookup_lt_Some in Hk. lia. }
    exists (Some x), (Some x). split; [|split; [|cbn; reflexivity]].
    + unfold weighted_median. cbv zeta. rewrite Hdom, Hmax.
      cbn [mbind result_bind]. unfold mbind at 1, result_bind at 1.
      rewrite Hidx. unfold mbind at 1, result_bind at 1.
      rewrite py_index_nat, Hx. reflexivity.
    + unfold numpy_weighted_median. rewrite Hpos. cbv zeta.
      destruct (py_sorted (zip data weights)) as [|p ps] eqn:Hps; [congruence|].
      rewrite (any_gt_comp _ _ weights Hmid), Hdom, Hmax.
      cbn [mbind result_bind]. unfold mbind at 1, result_bind at 1.
      unfold mask_get_1d. rewrite length_map, Hlen, Nat.eqb_refl.
      unfold mbind at 1, result_bind at 1.
      change 0%Z with (Z.of_nat 0). rewrite py_index_nat.
      rewrite (select_first _ data k x); [reflexivity| | |exact Hx].
      * intros j Hj. rewrite lookup_map.
        destruct (lookup_lt_is_Some_2 weights j) as [y Hy].
        { apply lookup_lt_Some in Hk. lia. }
        rewrite Hy. cbn. f_equal.
        destruct (Qeq_bool y w) eqn:E; [|reflexivity].
        apply Qeq_bool_iff in E.
        assert (y < w) by (apply (Hothers j); [lia|exact Hy]). lra.
      * rewrite lookup_map, Hk. cbn. f_equal.
        apply Qeq_bool_iff. reflexivity.
  - (* the walk along the sorted pairs *)
    destruct (weighted_median_crossing np_median data weights Hlen Hdom Hpos)
      as (k & a & b & r & Ha & Hb & Hbelow & Habove & Hrun & Hr).
    exists (Some r). eexists. split; [exact Hrun|].
    unfold numpy_weighted_median. rewrite Hpos. cbv zeta.
    remember (py_sorted (zip data weights)) as pairs eqn:Hps.
    destruct pairs as [|p ps]; [congruence|]. cbv iota.
    set (pairs := p :: ps) in *. clearbody pairs. clear Hps p ps.
    rewrite (any_gt_comp _ _ weights Hmid), Hdom.
    set (mid' := (1 # 2) * py_sum pairs.*2) in *.
    set (mid := (1 # 2) * py_sum weights) in *.
    assert (Hnn : Forall (fun v => 0 <= v) pairs.*2) by (rewrite Hw; exact Hall).
    assert (Hn : (S k < length pairs.*2)%nat).
    { rewrite length_fmap, <- (length_fmap fst). apply lookup_lt_Some in Hb. exact Hb. }
    assert (Hwhere :
      np_where (map (fun c => Qle_bool c mid') (np_cumsum pairs.*2))
      = seq 0 (S k)).
    { apply np_where_from_initial.
      - intros i Hi. rewrite lookup_map.
        destruct (lookup_lt_is_Some_2 (np_cumsum pairs.*2) i) as [c Hc].
        { rewrite np_cumsum_length. lia. }
        rewrite Hc. cbn. f_equal. apply Qle_bool_iff.
        rewrite (np_cumsum_lookup _ _ _ Hc), Hmid. apply Hbelow. lia.
      - intros i b' Hi Hb'. rewrite lookup_map in Hb'.
        destruct (np_cumsum pairs.*2 !! i) as [c|] eqn:Hc; [|discriminate].
        cbn in Hb'. injection Hb' as <-.
        destruct (Qle_bool c mid') eqn:E; [|reflexivity].
        apply Qle_bool_iff in E.
        rewrite (np_cumsum_lookup _ _ _ Hc), Hmid in E.
        pose proof (prefix_sum_mono pairs.*2 (S (S k)) (S i) Hnn ltac:(lia)).
        fold mid in Habove. lra. }
    rewrite Hwhere, py_index_last_seq.
    cbn [mbind result_bind]. unfold mbind at 1, result_bind at 1.
    rewrite py_index_nat.
    destruct (lookup_lt_is_Some_2 (np_cumsum pairs.*2) k) as [c Hc].
    { rewrite np_cumsum_length. lia. }
    rewrite Hc. unfold mbind at 1, result_bind at 1.
    assert (Hcle : c <= mid').
    { rewrite (np_cumsum_lookup _ _ _ Hc), Hmid. apply Hbelow. lia. }
    assert (Htest : Qltb (c - mid') float_epsilon = true).
    { apply Qltb_lt. unfold float_epsilon.
      assert (Heps : 0 < 1 # 4503599627370496) by reflexivity.
      set (eps := 1 # 4503599627370496) in *. clearbody eps mid' mid.
      clear - Hcle Heps. lra. }
    rewrite Htest.
    assert (Hbounds : py_slice pairs.*1 (Z.of_nat k) (Z.of_nat k + 2) = [a; b]).
    { unfold py_slice, py_slice_bound.
      rewrite length_fmap, <- (length_fmap snd).
      destruct (Z.ltb_spec (Z.of_nat k) 0); [lia|].
      destruct (Z.ltb_spec (Z.of_nat k + 2) 0); [lia|].
      replace (Z.to_nat (Z.min (Z.of_nat k + 2) (Z.of_nat (length pairs.*2)) -
                         Z.min (Z.of_nat k) (Z.of_nat (length pairs.*2))))
        with 2%nat by lia.
      replace (Z.to_nat (Z.min (Z.of_nat k) (Z.of_nat (length pairs.*2))))
        with k by lia.
      rewrite (drop_S _ a k Ha).
      assert (Hb' : drop (S k) pairs.*1 !! 0%nat = Some b).
      { rewrite lookup_drop, Nat.add_0_r. exact Hb. }
      destruct (drop (S k) pairs.*1) as [|b' rest]; [discriminate|].
      injection Hb' as ->. reflexivity. }
    rewrite Hbounds. split; [reflexivity|].
    cbn. rewrite Hr, Hmean. reflexivity.
Qed.

(** X29.  For integer weights, whose sums and comparisons are exact in
    the program (their sum at most 2**53), none of them negative, one for
    each datum, and a [numpy.mean] that gives the mean of two numbers,
    [numpy_weighted_median] and [weighted_median] return the same:
    nothing both, or two equal numbers. *)
Theorem weighted_medians_agree (np_median np_mean : list Q -> Q)
    (data : list Q) (ws : list Z) :
  (forall a b, np_mean [a; b] == (a + b) / 2) ->
  Forall (fun w => (0 <= w)%Z) ws ->
  py_sum (map inject_Z ws) <= inject_Z (2 ^ 53) ->
  length data = length ws ->
  exists r1 r2,
    weighted_median np_median data (Some (map inject_Z ws)) = Return r1 /\
    numpy_weighted_median np_median np_mean data (Some (map inject_Z ws))
      = Return r2 /\
    same_value r1 r2.
Proof.
  intros Hmean Hall _ Hlen.
  assert (Hnn : Forall (fun v => 0 <= v) (map inject_Z ws)).
  { clear - Hall. induction Hall as [|w ws' Hw _ IH]; cbn [map].
    - constructor.
    - constructor; [|exact IH].
      change 0 with (inject_Z 0). rewrite <- Zle_Qle. exact Hw. }
  apply weighted_medians_agree_exact; [exact Hmean|exact Hnn|].
  rewrite length_map. exact Hlen.
Qed.

Lemma weighted_medians_agree_witness :
  exists r1 r2,
    weighted_median median [3; 1; 2; 4] (Some (map inject_Z [1; 2; 1; 0]%Z))
      = Return r1 /\
    numpy_weighted_median median mean [3; 1; 2; 4]
      (Some (map inject_Z [1; 2; 1; 0]%Z)) = Return r2 /\
    same_value r1 r2.
Proof.
  apply (weighted_medians_agree median mean [3; 1; 2; 4] [1; 2; 1; 0]%Z).
  - intros a b. unfold mean. rewrite Qred_correct.
    unfold py_sum. cbn [fold_left length].
    change (inject_Z (Z.of_nat 2)) with 2. field.
  - repeat constructor; discriminate.
  - discriminate.
  - reflexivity.
Defined.
